(** * Interval map and placement-group transaction

    A shallow embedding of [common/interval_map.h] and [osd/PGTransaction.h].

    - [uint64_t] values are integers of [Z] in [0, 2^64); every addition and
      subtraction of the source is written with its wrap-around ([u64_add],
      [u64_sub]).
    - A [std::map] is the list of its (key, value) pairs in iteration order,
      i.e. ascending keys; an iterator is a position in that list.
    - An [assert] that fails aborts the operation ([AssertFail]); walking an
      iterator past [end()] has no defined behaviour ([Undefined]). *)

From Stdlib Require Import ZArith Lia List Bool Sorted.
From stdpp Require Import base option list gmap strings.

(** ** Outcomes of an operation *)

Inductive outcome (A : Type) : Type :=
| Ok (a : A)
| AssertFail
| Undefined.
Arguments Ok {A} a.
Arguments AssertFail {A}.
Arguments Undefined {A}.

#[global] Instance outcome_bind : MBind outcome := fun A B f x =>
  match x with
  | Ok a => f a
  | AssertFail => AssertFail
  | Undefined => Undefined
  end.

Definition assert (b : bool) : outcome unit :=
  if b then Ok tt else AssertFail.

(** ** 64-bit unsigned arithmetic *)

Definition u64_modulus : Z := Eval cbv in (2 ^ 64)%Z.
Definition u64_max : Z := Eval cbv in (2 ^ 64 - 1)%Z.
Definition u64 (z : Z) : Z := (z mod u64_modulus)%Z.
Definition u64_add (a b : Z) : Z := u64 (a + b).
Definition u64_sub (a b : Z) : Z := u64 (a - b).

Definition in_u64 (z : Z) : Prop := (0 ≤ z ≤ u64_max)%Z.

(** [unsigned], 32 bits wide on the platforms Ceph builds for: the
    conversion of a size to it drops the higher bits *)
Definition unsigned_modulus : Z := Eval cbv in (2 ^ 32)%Z.
Definition to_unsigned (z : Z) : Z := (z mod unsigned_modulus)%Z.

(** ** std::map as a list of pairs in ascending key order *)

(** [lt] is the comparator.  Two keys are the same key when neither is less
    than the other, which for a strict total order is equality; the
    functions below use the decidable equality of [K] for it. *)
Section StdMap.
Context {K V : Type} `{EqDecision K} (lt : K → K → bool).

(** [find]: the value stored at [k], if any *)
Fixpoint sm_find (k : K) (m : list (K * V)) : option V :=
  match m with
  | [] => None
  | (k', v) :: t => if decide (k = k') then Some v else sm_find k t
  end.

(** [count] *)
Definition sm_count (k : K) (m : list (K * V)) : bool :=
  match sm_find k m with Some _ => true | None => false end.

(** [insert(value_type)]: places the pair at its position in the order;
    does nothing when the key is present *)
Fixpoint sm_insert (k : K) (v : V) (m : list (K * V)) : list (K * V) :=
  match m with
  | [] => [(k, v)]
  | (k', v') :: t =>
      if decide (k = k') then m
      else if lt k k' then (k, v) :: m
      else (k', v') :: sm_insert k v t
  end.

(** [insert(first, last)] *)
Definition sm_insert_all (es : list (K * V)) (m : list (K * V)) : list (K * V) :=
  fold_left (fun acc e => sm_insert e.1 e.2 acc) es m.

(** a write through the reference returned by [operator[]] or held by an
    iterator: the pair at [k] is replaced, or created at its position *)
Fixpoint sm_set (k : K) (v : V) (m : list (K * V)) : list (K * V) :=
  match m with
  | [] => [(k, v)]
  | (k', v') :: t =>
      if decide (k = k') then (k, v) :: t
      else if lt k k' then (k, v) :: m
      else (k', v') :: sm_set k v t
  end.

(** [erase] of the element at key [k] (a map holds at most one) *)
Fixpoint sm_erase (k : K) (m : list (K * V)) : list (K * V) :=
  match m with
  | [] => []
  | (k', v') :: t =>
      if decide (k = k') then sm_erase k t else (k', v') :: sm_erase k t
  end.
End StdMap.

(** ** interval_map<uint64_t, V, S> *)

Module interval_map.
(** [std::map<K, std::pair<K, V>> m] *)
Abbreviation t V := (list (Z * (Z * V))).

Section IntervalMap.
Context {V : Type}.
(** the splitter functor [S::operator()(offset, len, value)] *)
Variable s : Z → Z → V → V.
Abbreviation t := (interval_map.t V).

(** [m.upper_bound(x)]: position of the first key greater than [x] *)
Fixpoint upper_bound (x : Z) (m : t) : nat :=
  match m with
  | [] => 0%nat
  | (k, _) :: r => if (x <? k)%Z then 0%nat else S (upper_bound x r)
  end.

(** [m.lower_bound(x)]: position of the first key not less than [x] *)
Fixpoint lower_bound (x : Z) (m : t) : nat :=
  match m with
  | [] => 0%nat
  | (k, _) :: r => if (k <? x)%Z then S (lower_bound x r) else 0%nat
  end.

Definition get_range (off len : Z) (m : t) : nat * nat :=
  let fst := upper_bound off m in
  let fst := if decide (fst = 0%nat) then fst else pred fst in
  let fst :=
    match m !! fst with
    | Some (k, (l, _)) => if (u64_add k l <=? off)%Z then S fst else fst
    | None => fst
    end in
  let lst := lower_bound (u64_add off len) m in
  (fst, lst).

(** what one entry of the erased range contributes to [to_insert] *)
Definition remnants (off len : Z) (e : Z * (Z * V)) : list (Z * (Z * V)) :=
  let '(k, (l, v)) := e in
  (if (k <? off)%Z
   then [(k, (u64_sub off k, s 0 (u64_sub off k) v))]
   else [])
  ++
  (if (u64_add off len <? u64_add k l)%Z
   then let nlen := u64_sub (u64_add k l) (u64_add off len) in
        [(u64_add off len, (nlen, s (u64_sub l nlen) nlen v))]
   else []).

(** [erase(off, len)].  The loop walks from [range.first] up to
    [range.second]; when [range.first] lies behind [range.second] the walk
    steps over [end()], which is [None] here. *)
Definition erase (off len : Z) (m : t) : option t :=
  if decide (len = 0%Z) then Some m
  else
    let '(fst, lst) := get_range off len m in
    if decide (lst < fst)%nat then None
    else
      let range := take (lst - fst) (drop fst m) in
      let to_insert := flat_map (remnants off len) range in
      let m' := take fst m ++ drop lst m in
      Some (sm_insert_all Z.ltb to_insert m').

(** [insert(off, len, v)] *)
Definition insert (off len : Z) (v : V) (m : t) : option t :=
  m' ← erase off len m;
  Some (sm_insert Z.ltb off (len, v) m').

Definition clear (m : t) : t := [].
Definition empty (m : t) : bool := match m with [] => true | _ => false end.
(** [unsigned ext_count()]: [m.size()] converted to [unsigned] *)
Definition ext_count (m : t) : Z := to_unsigned (Z.of_nat (length m)).

(** [get_containing_range]: the entries between the two iterators *)
Definition get_containing_range (off len : Z) (m : t) : option t :=
  let '(fst, lst) := get_range off len m in
  if decide (lst < fst)%nat then None
  else Some (take (lst - fst) (drop fst m)).
End IntervalMap.
End interval_map.

(** ** PGTransaction::ObjectOperation *)

(** Modelled from the spec: [bufferlist] (include/buffer.h) is an opaque
    immutable byte sequence. *)
Definition bufferlist : Type := list Byte.byte.

(** Modelled from the spec: [bufferlist::substr_of(other, off, len)] yields
    the slice of [len] bytes of [other] that starts at [off]. *)
Definition substr_of (other : bufferlist) (off len : Z) : bufferlist :=
  take (Z.to_nat len) (drop (Z.to_nat off) other).

Module ObjectOperation.
Section Defs.
Context {hobject_t : Type}.

Inductive InitType : Type :=
| None_
| Create
| Clone (source : hobject_t)
| Rename (source : hobject_t).

Inductive OmapUpdateType : Type := Remove | Insert.

Record alloc_hint_t : Type := mk_alloc_hint {
  expected_object_size : Z;
  expected_write_size : Z;
  flags : Z
}.

Inductive BufferUpdateType : Type :=
| Write (buffer : bufferlist) (fadvise_flags : Z)
| Zero
| CloneRange (from : hobject_t) (offset : Z) (len : Z).

(** [Splitter::operator()] *)
Definition Splitter (offset len : Z) (bu : BufferUpdateType) : BufferUpdateType :=
  match bu with
  | Write buffer fadvise_flags => Write (substr_of buffer offset len) fadvise_flags
  | Zero => Zero
  | CloneRange from coff _ => CloneRange from (u64_add coff offset) len
  end.

Record t : Type := mk {
  init_type : InitType;
  delete_first : bool;
  clear_omap : bool;
  truncate : option Z;
  attr_updates : gmap string (option bufferlist);
  omap_updates : list (OmapUpdateType * bufferlist);
  omap_header : option bufferlist;
  updated_snaps : option (gset Z);
  alloc_hint : option alloc_hint_t;
  buffer_updates : interval_map.t BufferUpdateType
}.

(** a default-constructed [ObjectOperation] *)
Definition fresh : t :=
  {| init_type := None_; delete_first := false; clear_omap := false;
     truncate := None; attr_updates := ∅; omap_updates := [];
     omap_header := None; updated_snaps := None; alloc_hint := None;
     buffer_updates := [] |}.

Definition is_delete (op : t) : bool :=
  match init_type op with None_ => delete_first op | _ => false end.

Definition is_none (op : t) : bool :=
  match init_type op with None_ => negb (delete_first op) | _ => false end.

Definition is_fresh_object (op : t) : bool :=
  match init_type op with None_ => false | _ => true end.

(** [has_source(&source)]: [Some source] stands for the result [true] with
    [*source] written, [None] for [false] *)
Definition has_source (op : t) : option hobject_t :=
  match init_type op with
  | Clone source => Some source
  | Rename source => Some source
  | None_ => None
  | Create => None
  end.

(** assignments to single members *)
Definition set_init_type (x : InitType) (op : t) : t :=
  mk x (delete_first op) (clear_omap op) (truncate op) (attr_updates op)
     (omap_updates op) (omap_header op) (updated_snaps op) (alloc_hint op)
     (buffer_updates op).
Definition set_delete_first (x : bool) (op : t) : t :=
  mk (init_type op) x (clear_omap op) (truncate op) (attr_updates op)
     (omap_updates op) (omap_header op) (updated_snaps op) (alloc_hint op)
     (buffer_updates op).
Definition set_clear_omap (x : bool) (op : t) : t :=
  mk (init_type op) (delete_first op) x (truncate op) (attr_updates op)
     (omap_updates op) (omap_header op) (updated_snaps op) (alloc_hint op)
     (buffer_updates op).
Definition set_truncate (x : option Z) (op : t) : t :=
  mk (init_type op) (delete_first op) (clear_omap op) x (attr_updates op)
     (omap_updates op) (omap_header op) (updated_snaps op) (alloc_hint op)
     (buffer_updates op).
Definition set_attr_updates (x : gmap string (option bufferlist)) (op : t) : t :=
  mk (init_type op) (delete_first op) (clear_omap op) (truncate op) x
     (omap_updates op) (omap_header op) (updated_snaps op) (alloc_hint op)
     (buffer_updates op).
Definition set_omap_updates (x : list (OmapUpdateType * bufferlist)) (op : t) : t :=
  mk (init_type op) (delete_first op) (clear_omap op) (truncate op)
     (attr_updates op) x (omap_header op) (updated_snaps op) (alloc_hint op)
     (buffer_updates op).
Definition set_omap_header (x : option bufferlist) (op : t) : t :=
  mk (init_type op) (delete_first op) (clear_omap op) (truncate op)
     (attr_updates op) (omap_updates op) x (updated_snaps op) (alloc_hint op)
     (buffer_updates op).
Definition set_updated_snaps (x : option (gset Z)) (op : t) : t :=
  mk (init_type op) (delete_first op) (clear_omap op) (truncate op)
     (attr_updates op) (omap_updates op) (omap_header op) x (alloc_hint op)
     (buffer_updates op).
Definition set_alloc_hint (x : option alloc_hint_t) (op : t) : t :=
  mk (init_type op) (delete_first op) (clear_omap op) (truncate op)
     (attr_updates op) (omap_updates op) (omap_header op) (updated_snaps op) x
     (buffer_updates op).
Definition set_buffer_updates (x : interval_map.t BufferUpdateType) (op : t) : t :=
  mk (init_type op) (delete_first op) (clear_omap op) (truncate op)
     (attr_updates op) (omap_updates op) (omap_header op) (updated_snaps op)
     (alloc_hint op) x.
End Defs.
Arguments InitType : clear implicits.
Arguments BufferUpdateType : clear implicits.
Arguments t : clear implicits.
End ObjectOperation.

(** ** PGTransaction *)

Module PGTransaction.
Section Defs.
Context {hobject_t : Type} `{EqDecision hobject_t}.
(** [hobject_t::BitwiseComparator], the order of [op_map] and [dgraph] *)
Variable hobject_lt : hobject_t → hobject_t → bool.
(** [hobject_t::is_temp()] *)
Variable is_temp : hobject_t → bool.
(** [::encode] of a [map<string, bufferlist>] and of a [set<string>] *)
Variable encode_map : gmap string bufferlist → bufferlist.
Variable encode_set : gset string → bufferlist.

Abbreviation op_t := (ObjectOperation.t hobject_t).

(** The transaction is its [op_map].  ([obc_map] is a side table that only
    [add_obc] touches.) *)
Record t : Type := mk { op_map : list (hobject_t * op_t) }.

(** [op_map[hoid]]: the operation at [hoid], default-constructed and stored
    first when absent; returns it with the map that now holds it *)
Definition subscript (hoid : hobject_t) (m : list (hobject_t * op_t))
  : op_t * list (hobject_t * op_t) :=
  match sm_find hoid m with
  | Some op => (op, m)
  | None => (ObjectOperation.fresh, sm_insert hobject_lt hoid ObjectOperation.fresh m)
  end.

(** writes through the reference [op] obtained for [hoid] *)
Definition store (hoid : hobject_t) (op : op_t) (m : list (hobject_t * op_t)) : t :=
  mk (sm_set hobject_lt hoid op m).

Definition get_object_op_for_modify (hoid : hobject_t) (pgt : t)
  : outcome (op_t * list (hobject_t * op_t)) :=
  let '(op, m) := subscript hoid (op_map pgt) in
  _ ← assert (negb (ObjectOperation.is_delete op));
  Ok (op, m).

Definition create (hoid : hobject_t) (pgt : t) : outcome t :=
  let '(op, m) := subscript hoid (op_map pgt) in
  _ ← assert (ObjectOperation.is_none op || ObjectOperation.is_delete op);
  Ok (store hoid (ObjectOperation.set_init_type ObjectOperation.Create op) m).

Definition clone (target source : hobject_t) (pgt : t) : outcome t :=
  let '(op, m) := subscript target (op_map pgt) in
  _ ← assert (ObjectOperation.is_none op || ObjectOperation.is_delete op);
  Ok (store target (ObjectOperation.set_init_type (ObjectOperation.Clone source) op) m).

Definition rename (target source : hobject_t) (pgt : t) : outcome t :=
  _ ← assert (is_temp source);
  _ ← assert (negb (is_temp target));
  let '(op, m) := subscript target (op_map pgt) in
  _ ← assert (ObjectOperation.is_none op || ObjectOperation.is_delete op);
  let '(op, m) :=
    match sm_find source m with
    | Some sop => (sop, sm_erase source (sm_set hobject_lt target sop m))
    | None => (op, m)
    end in
  Ok (store target (ObjectOperation.set_init_type (ObjectOperation.Rename source) op) m).

Definition remove (hoid : hobject_t) (pgt : t) : outcome t :=
  '(op, m) ← get_object_op_for_modify hoid pgt;
  _ ← assert (bool_decide (ObjectOperation.updated_snaps op = None));
  Ok (store hoid (ObjectOperation.set_delete_first true ObjectOperation.fresh) m).

Definition update_snaps (hoid : hobject_t) (snaps : gset Z) (pgt : t) : outcome t :=
  '(op, m) ← get_object_op_for_modify hoid pgt;
  _ ← assert (bool_decide (ObjectOperation.updated_snaps op = None));
  Ok (store hoid (ObjectOperation.set_updated_snaps (Some snaps) op) m).

Definition omap_clear (hoid : hobject_t) (pgt : t) : outcome t :=
  '(op, m) ← get_object_op_for_modify hoid pgt;
  let op := ObjectOperation.set_clear_omap true op in
  let op := ObjectOperation.set_omap_updates [] op in
  let op := ObjectOperation.set_omap_header None op in
  Ok (store hoid op m).

Definition truncate (hoid : hobject_t) (off : Z) (pgt : t) : outcome t :=
  '(op, m) ← get_object_op_for_modify hoid pgt;
  if match ObjectOperation.truncate op with
     | Some cur => (off <=? cur)%Z
     | None => false
     end
  then Ok (mk m)
  else
    match interval_map.erase ObjectOperation.Splitter off (u64_sub u64_max off)
            (ObjectOperation.buffer_updates op) with
    | None => Undefined
    | Some bu =>
        let op := ObjectOperation.set_buffer_updates bu op in
        let op :=
          if ObjectOperation.is_fresh_object op then op
          else ObjectOperation.set_truncate (Some off) op in
        Ok (store hoid op m)
    end.

Definition setattrs (hoid : hobject_t) (attrs : list (string * bufferlist)) (pgt : t)
  : outcome t :=
  '(op, m) ← get_object_op_for_modify hoid pgt;
  let upd :=
    fold_left (fun acc i => <[i.1 := Some i.2]> acc) attrs
      (ObjectOperation.attr_updates op) in
  Ok (store hoid (ObjectOperation.set_attr_updates upd op) m).

Definition setattr (hoid : hobject_t) (attrname : string) (bl : bufferlist) (pgt : t)
  : outcome t :=
  '(op, m) ← get_object_op_for_modify hoid pgt;
  Ok (store hoid
        (ObjectOperation.set_attr_updates
           (<[attrname := Some bl]> (ObjectOperation.attr_updates op)) op) m).

Definition rmattr (hoid : hobject_t) (attrname : string) (pgt : t) : outcome t :=
  '(op, m) ← get_object_op_for_modify hoid pgt;
  Ok (store hoid
        (ObjectOperation.set_attr_updates
           (<[attrname := None]> (ObjectOperation.attr_updates op)) op) m).

Definition set_alloc_hint (hoid : hobject_t)
    (expected_object_size expected_write_size flags : Z) (pgt : t) : outcome t :=
  '(op, m) ← get_object_op_for_modify hoid pgt;
  Ok (store hoid
        (ObjectOperation.set_alloc_hint
           (Some (ObjectOperation.mk_alloc_hint
                    expected_object_size expected_write_size flags)) op) m).

(** the three buffer updates share [op.buffer_updates.insert(off, len, bu)] *)
Definition buffer_insert (hoid : hobject_t) (off len : Z)
    (bu : ObjectOperation.BufferUpdateType hobject_t) (pgt : t) : outcome t :=
  '(op, m) ← get_object_op_for_modify hoid pgt;
  match interval_map.insert ObjectOperation.Splitter off len bu
          (ObjectOperation.buffer_updates op) with
  | None => Undefined
  | Some b => Ok (store hoid (ObjectOperation.set_buffer_updates b op) m)
  end.

Definition write (hoid : hobject_t) (off len : Z) (bl : bufferlist)
    (fadvise_flags : Z) (pgt : t) : outcome t :=
  buffer_insert hoid off len (ObjectOperation.Write bl fadvise_flags) pgt.

Definition clone_range (from to : hobject_t) (fromoff len tooff : Z) (pgt : t)
  : outcome t :=
  buffer_insert to tooff len (ObjectOperation.CloneRange from fromoff len) pgt.

Definition zero (hoid : hobject_t) (off len : Z) (pgt : t) : outcome t :=
  buffer_insert hoid off len ObjectOperation.Zero pgt.

Definition omap_setkeys (hoid : hobject_t) (keys_bl : bufferlist) (pgt : t) : outcome t :=
  '(op, m) ← get_object_op_for_modify hoid pgt;
  Ok (store hoid
        (ObjectOperation.set_omap_updates
           (ObjectOperation.omap_updates op ++ [(ObjectOperation.Insert, keys_bl)]) op) m).

Definition omap_setkeys_map (hoid : hobject_t) (keys : gmap string bufferlist) (pgt : t)
  : outcome t :=
  omap_setkeys hoid (encode_map keys) pgt.

Definition omap_rmkeys (hoid : hobject_t) (keys_bl : bufferlist) (pgt : t) : outcome t :=
  '(op, m) ← get_object_op_for_modify hoid pgt;
  Ok (store hoid
        (ObjectOperation.set_omap_updates
           (ObjectOperation.omap_updates op ++ [(ObjectOperation.Remove, keys_bl)]) op) m).

Definition omap_rmkeys_set (hoid : hobject_t) (keys : gset string) (pgt : t) : outcome t :=
  omap_rmkeys hoid (encode_set keys) pgt.

Definition omap_setheader (hoid : hobject_t) (header : bufferlist) (pgt : t) : outcome t :=
  '(op, m) ← get_object_op_for_modify hoid pgt;
  Ok (store hoid (ObjectOperation.set_omap_header (Some header) op) m).

Definition empty (pgt : t) : bool :=
  match op_map pgt with [] => true | _ => false end.

Definition get_bytes_written (pgt : t) : Z :=
  fold_left
    (fun ret i =>
       fold_left (fun ret j => u64_add ret j.2.1) (ObjectOperation.buffer_updates i.2) ret)
    (op_map pgt) 0%Z.

Definition nop (hoid : hobject_t) (pgt : t) : outcome t :=
  '(_, m) ← get_object_op_for_modify hoid pgt;
  Ok (mk m).

(** *** safe_create_traverse *)

Abbreviation dgraph_t := (list (hobject_t * list hobject_t)).

(** one iteration of the loop that fills [dgraph] and [stack] *)
Definition populate_step (ops : list (hobject_t * op_t))
    (st : dgraph_t * list hobject_t) (opair : hobject_t * op_t)
  : dgraph_t * list hobject_t :=
  let '(dgraph, stack) := st in
  match ObjectOperation.has_source opair.2 with
  | Some source =>
      let l := default [] (sm_find source dgraph) in
      let stack :=
        if bool_decide (l = []) && negb (sm_count source ops)
        then stack ++ [source] else stack in
      (sm_set hobject_lt source (l ++ [opair.1]) dgraph, stack)
  | None => (dgraph, stack ++ [opair.1])
  end.

Definition populate (ops : list (hobject_t * op_t)) : dgraph_t * list hobject_t :=
  fold_left (populate_step ops) ops ([], []).

(** The [while (!stack.empty())] loop.  [visited] is the sequence of pairs
    [t] has been called on so far.  [fuel] bounds the number of iterations;
    [None] means the bound was reached. *)
Fixpoint traverse_loop (fuel : nat) (ops : list (hobject_t * op_t))
    (dgraph : dgraph_t) (stack : list hobject_t) (visited : list (hobject_t * op_t))
  : option (outcome (list (hobject_t * op_t))) :=
  match stack with
  | [] => Some (Ok visited)
  | cur :: rest =>
      match fuel with
      | O => None
      | S fuel =>
          match sm_find cur dgraph with
          | None =>
              let visited :=
                match sm_find cur ops with
                | Some op => visited ++ [(cur, op)]
                | None => visited
                end in
              traverse_loop fuel ops dgraph rest visited
          | Some children =>
              match children with
              | [] => Some AssertFail
              | _ => traverse_loop fuel ops (sm_erase cur dgraph) (children ++ stack) visited
              end
          end
      end
  end.

(** every iteration pops the stack or removes a [dgraph] entry together with
    its edges, so this many iterations are enough *)
Definition traverse_fuel (dgraph : dgraph_t) (stack : list hobject_t) : nat :=
  length stack + length dgraph + length (concat dgraph.*2).

(** [safe_create_traverse(t)]: the pairs [t] is called on, in call order *)
Definition safe_create_traverse (pgt : t) : option (outcome (list (hobject_t * op_t))) :=
  let '(dgraph, stack) := populate (op_map pgt) in
  traverse_loop (traverse_fuel dgraph stack) (op_map pgt) dgraph stack [].
End Defs.
Arguments t : clear implicits.
End PGTransaction.

(** [bufferlist_test_type::splitter] of test/common/test_interval_map.cc *)
Definition bufferlist_splitter (offset len : Z) (bu : bufferlist) : bufferlist :=
  substr_of bu offset len.

(** The object ids of the concrete runs below: integers in their usual
    order, the negative ones being temp objects. *)
Definition negative_is_temp (h : Z) : bool := (h <? 0)%Z.

(** ** Specification vocabulary *)

(** what [std::map] asks of its comparator: a strict total order *)
Record strict_total {K : Type} (lt : K → K → bool) : Prop := {
  lt_irrefl : ∀ a, lt a a = false;
  lt_trans : ∀ a b c, lt a b = true → lt b c = true → lt a c = true;
  lt_total : ∀ a b, a ≠ b → lt a b = true ∨ lt b a = true
}.

(** the pairs stand in strictly ascending key order *)
Definition sm_sorted {K V : Type} (lt : K → K → bool) (m : list (K * V)) : Prop :=
  StronglySorted (λ a b, lt a b = true) m.*1.

Module interval_map_spec.
Section Defs.
Context {V : Type}.
Variable s : Z → Z → V → V.
Implicit Types m : interval_map.t V.
Local Open Scope Z_scope.

(** I1: stored entries do not overlap *)
Definition I1 m : Prop :=
  ∀ a la va b lb vb,
    (a, (la, va)) ∈ m → (b, (lb, vb)) ∈ m → a < b → a + la ≤ b.

(** I2: no stored entry is empty *)
Definition I2 m : Prop :=
  ∀ a la va, (a, (la, va)) ∈ m → 0 < la.

(** I3: iteration meets strictly ascending start offsets *)
Definition I3 m : Prop :=
  ∀ (i j : nat) x y, (i < j)%nat → m !! i = Some x → m !! j = Some y → x.1 < y.1.

(** every stored range lies inside the offsets a [uint64_t] can address *)
Definition in_range m : Prop :=
  ∀ a la va, (a, (la, va)) ∈ m → 0 ≤ a ∧ a + la ≤ u64_max.

(** the four conditions along the list: each entry starts at or after [lo],
    is non-empty, ends within range, and the rest starts at or after its end *)
Fixpoint ok (lo : Z) m : Prop :=
  match m with
  | [] => True
  | (k, (l, _)) :: r => lo ≤ k ∧ 0 < l ∧ k + l ≤ u64_max ∧ ok (k + l) r
  end.

(** the entry meets the range [off, e) *)
Definition intersects (off e : Z) (x : Z * (Z * V)) : Prop :=
  off < x.1 + x.2.1 ∧ x.1 < e.

(** the part of an entry that lies before [off] *)
Definition prefix_of (off : Z) (x : Z * (Z * V)) : Z * (Z * V) :=
  (x.1, (off - x.1, s 0 (off - x.1) x.2.2)).

(** the part of an entry that lies at or after [e] *)
Definition suffix_of (e : Z) (x : Z * (Z * V)) : Z * (Z * V) :=
  let suffix_len := (x.1 + x.2.1) - e in
  (e, (suffix_len, s (x.2.1 - suffix_len) suffix_len x.2.2)).

(** what erasing [off, e) leaves of a map that satisfies [ok] *)
Fixpoint cut (off e : Z) m : interval_map.t V :=
  match m with
  | [] => []
  | x :: r =>
      if x.1 + x.2.1 <=? off then x :: cut off e r
      else if e <=? x.1 then x :: r
      else (if x.1 <? off then [prefix_of off x] else [])
           ++ (if e <? x.1 + x.2.1 then [suffix_of e x] else [])
           ++ cut off e r
  end.

(** position of the first entry that ends after [off] *)
Fixpoint first_after (off : Z) m : nat :=
  match m with
  | [] => 0%nat
  | x :: r => if x.1 + x.2.1 <=? off then S (first_after off r) else 0%nat
  end.

(** a call of the public interface *)
Inductive call : Type :=
| Insert (off len : Z) (v : V)
| Erase (off len : Z).

Definition run_call (c : call) m : option (interval_map.t V) :=
  match c with
  | Insert off len v => interval_map.insert s off len v m
  | Erase off len => interval_map.erase s off len m
  end.

Fixpoint run (cs : list call) m : option (interval_map.t V) :=
  match cs with
  | [] => Some m
  | c :: cs => m' ← run_call c m; run cs m'
  end.

(** arguments are [uint64_t] values and an insert is not empty *)
Definition call_args (c : call) : Prop :=
  match c with
  | Insert off len _ => in_u64 off ∧ in_u64 len ∧ 0 < len
  | Erase off len => in_u64 off ∧ in_u64 len
  end.

(** [off + len] does not wrap around *)
Definition call_no_wrap (c : call) : Prop :=
  match c with
  | Insert off len _ => off + len ≤ u64_max
  | Erase off len => off + len ≤ u64_max
  end.
End Defs.
End interval_map_spec.

Module PGTransaction_spec.
Section Defs.
Context {hobject_t : Type} `{EqDecision hobject_t}.
Abbreviation op_t := (ObjectOperation.t hobject_t).

(** [op_map.find(hoid)] *)
Definition find (hoid : hobject_t) (pgt : PGTransaction.t hobject_t) : option op_t :=
  sm_find hoid (PGTransaction.op_map pgt).

(** the operation [op_map[hoid]] refers to *)
Definition op_at (hoid : hobject_t) (pgt : PGTransaction.t hobject_t) : op_t :=
  default ObjectOperation.fresh (find hoid pgt).

(** the representation invariant of [op_map] *)
Definition wf (hobject_lt : hobject_t → hobject_t → bool)
    (pgt : PGTransaction.t hobject_t) : Prop :=
  sm_sorted hobject_lt (PGTransaction.op_map pgt).

(** the three assertions of [rename] *)
Definition rename_pre (is_temp : hobject_t → bool) (target source : hobject_t)
    (pgt : PGTransaction.t hobject_t) : bool :=
  is_temp source && negb (is_temp target)
  && (ObjectOperation.is_none (op_at target pgt)
      || ObjectOperation.is_delete (op_at target pgt)).

(** the clone/rename edge [source → target] *)
Definition edge (ops : list (hobject_t * op_t)) (source target : hobject_t) : Prop :=
  ∃ op, (target, op) ∈ ops ∧ ObjectOperation.has_source op = Some source.

(** P5: no object reaches itself along clone/rename edges *)
Definition acyclic (ops : list (hobject_t * op_t)) : Prop :=
  ∀ h, ¬ tc (edge ops) h h.

(** the source the operation at [h] is cloned or renamed from *)
Definition source_of (ops : list (hobject_t * op_t)) (h : hobject_t) : option hobject_t :=
  sm_find h ops ≫= ObjectOperation.has_source.

(** [a] stands closer to the front of the stack than [b] *)
Definition ahead (a b : hobject_t) (stack : list hobject_t) : Prop :=
  ∃ l1 l2, stack = l1 ++ l2 ∧ a ∈ l1 ∧ b ∈ l2.

(** [h] waits in the child list of a [dgraph] entry *)
Definition pending (dgraph : list (hobject_t * list hobject_t)) (h : hobject_t) : Prop :=
  ∃ s l, sm_find s dgraph = Some l ∧ h ∈ l.

(** what holds of [dgraph] and [stack] once the first loop has gone through
    the entries [pre] of [ops] *)
Record populated (ops pre : list (hobject_t * op_t))
    (dgraph : list (hobject_t * list hobject_t)) (stack : list hobject_t) : Prop := {
  pop_children : ∀ s l, sm_find s dgraph = Some l →
    l ≠ [] ∧ NoDup l ∧ ∀ h, h ∈ l → h ∈ pre.*1 ∧ source_of ops h = Some s;
  pop_placed : ∀ h, h ∈ pre.*1 →
    match source_of ops h with
    | None => h ∈ stack
    | Some s => ∃ l, sm_find s dgraph = Some l ∧ h ∈ l
    end;
  pop_roots : ∀ x, x ∈ stack →
    (x ∈ pre.*1 ∧ source_of ops x = None)
    ∨ ((x ∉ ops.*1) ∧ is_Some (sm_find x dgraph));
  pop_stack_nodup : NoDup stack;
  pop_keys : ∀ s, is_Some (sm_find s dgraph) → s ∈ ops.*1 ∨ s ∈ stack
}.

(** what holds of [dgraph], [stack] and the visited pairs at the head of
    every iteration of the second loop *)
Record traversing (ops : list (hobject_t * op_t))
    (dgraph : list (hobject_t * list hobject_t)) (stack : list hobject_t)
    (visited : list (hobject_t * op_t)) : Prop := {
  tr_children : ∀ s l, sm_find s dgraph = Some l →
    l ≠ [] ∧ NoDup l ∧ ∀ h, h ∈ l → source_of ops h = Some s;
  tr_all : ∀ h, h ∈ ops.*1 → h ∈ visited.*1 ∨ h ∈ stack ∨ pending dgraph h;
  tr_stack_nodup : NoDup stack;
  tr_visited_nodup : NoDup visited.*1;
  tr_visited_popped : ∀ h, h ∈ visited.*1 → h ∉ stack;
  tr_pending_fresh : ∀ h, pending dgraph h → (h ∉ stack) ∧ (h ∉ visited.*1);
  tr_visited_ops : ∀ h op, (h, op) ∈ visited → sm_find h ops = Some op;
  tr_keys : ∀ s, is_Some (sm_find s dgraph) → s ∈ stack ∨ pending dgraph s;
  tr_order : ∀ h s, source_of ops h = Some s → s ∈ visited.*1 →
    ∃ (i j : nat), (i < j)%nat ∧ visited.*1 !! i = Some h ∧ visited.*1 !! j = Some s;
  tr_edges : ∀ h s, source_of ops h = Some s →
    (∃ l, sm_find s dgraph = Some l ∧ h ∈ l) ∨ h ∈ visited.*1 ∨ ahead h s stack
}.

(** a call of a mutating member function, with its arguments *)
Inductive mutation : Type :=
| Create (hoid : hobject_t)
| Clone (target source : hobject_t)
| Rename (target source : hobject_t)
| Remove (hoid : hobject_t)
| UpdateSnaps (hoid : hobject_t) (snaps : gset Z)
| OmapClear (hoid : hobject_t)
| Truncate (hoid : hobject_t) (off : Z)
| Setattrs (hoid : hobject_t) (attrs : list (string * bufferlist))
| Setattr (hoid : hobject_t) (attrname : string) (bl : bufferlist)
| Rmattr (hoid : hobject_t) (attrname : string)
| SetAllocHint (hoid : hobject_t) (expected_object_size expected_write_size flags : Z)
| Write_ (hoid : hobject_t) (off len : Z) (bl : bufferlist) (fadvise_flags : Z)
| CloneRange (from to : hobject_t) (fromoff len tooff : Z)
| Zero (hoid : hobject_t) (off len : Z)
| OmapSetkeys (hoid : hobject_t) (keys_bl : bufferlist)
| OmapSetkeysMap (hoid : hobject_t) (keys : gmap string bufferlist)
| OmapRmkeys (hoid : hobject_t) (keys_bl : bufferlist)
| OmapRmkeysSet (hoid : hobject_t) (keys : gset string)
| OmapSetheader (hoid : hobject_t) (header : bufferlist)
| Nop (hoid : hobject_t).

Section Mutate.
Variable hobject_lt : hobject_t → hobject_t → bool.
Variable is_temp : hobject_t → bool.
Variable encode_map : gmap string bufferlist → bufferlist.
Variable encode_set : gset string → bufferlist.

Definition mutate (c : mutation) (pgt : PGTransaction.t hobject_t)
  : outcome (PGTransaction.t hobject_t) :=
  match c with
  | Create hoid => PGTransaction.create hobject_lt hoid pgt
  | Clone target source => PGTransaction.clone hobject_lt target source pgt
  | Rename target source => PGTransaction.rename hobject_lt is_temp target source pgt
  | Remove hoid => PGTransaction.remove hobject_lt hoid pgt
  | UpdateSnaps hoid snaps => PGTransaction.update_snaps hobject_lt hoid snaps pgt
  | OmapClear hoid => PGTransaction.omap_clear hobject_lt hoid pgt
  | Truncate hoid off => PGTransaction.truncate hobject_lt hoid off pgt
  | Setattrs hoid attrs => PGTransaction.setattrs hobject_lt hoid attrs pgt
  | Setattr hoid attrname bl => PGTransaction.setattr hobject_lt hoid attrname bl pgt
  | Rmattr hoid attrname => PGTransaction.rmattr hobject_lt hoid attrname pgt
  | SetAllocHint hoid osz wsz fl => PGTransaction.set_alloc_hint hobject_lt hoid osz wsz fl pgt
  | Write_ hoid off len bl fl => PGTransaction.write hobject_lt hoid off len bl fl pgt
  | CloneRange from to fromoff len tooff =>
      PGTransaction.clone_range hobject_lt from to fromoff len tooff pgt
  | Zero hoid off len => PGTransaction.zero hobject_lt hoid off len pgt
  | OmapSetkeys hoid bl => PGTransaction.omap_setkeys hobject_lt hoid bl pgt
  | OmapSetkeysMap hoid keys => PGTransaction.omap_setkeys_map hobject_lt encode_map hoid keys pgt
  | OmapRmkeys hoid bl => PGTransaction.omap_rmkeys hobject_lt hoid bl pgt
  | OmapRmkeysSet hoid keys => PGTransaction.omap_rmkeys_set hobject_lt encode_set hoid keys pgt
  | OmapSetheader hoid bl => PGTransaction.omap_setheader hobject_lt hoid bl pgt
  | Nop hoid => PGTransaction.nop hobject_lt hoid pgt
  end.

Fixpoint mutate_all (cs : list mutation) (pgt : PGTransaction.t hobject_t)
  : outcome (PGTransaction.t hobject_t) :=
  match cs with
  | [] => Ok pgt
  | c :: cs => pgt' ← mutate c pgt; mutate_all cs pgt'
  end.
End Mutate.

(** [a] is passed to the visitor strictly before [b] *)
Definition visited_before (a b : hobject_t) (visited : list (hobject_t * op_t)) : Prop :=
  ∃ (i j : nat), (i < j)%nat ∧ visited.*1 !! i = Some a ∧ visited.*1 !! j = Some b.

End Defs.
End PGTransaction_spec.

(** ** Further vocabulary: what a map holds at one offset *)

Module interval_map_view.
Section Defs.
Context {V D : Type}.
(** what a stored value means at its [i]-th position *)
Variable view : V → Z → D.
Implicit Types m : interval_map.t V.
Local Open Scope Z_scope.

(** the meaning at offset [x] of the first entry that covers [x] *)
Fixpoint value_at m (x : Z) : option D :=
  match m with
  | [] => None
  | e :: r =>
      if (e.1 <=? x) && (x <? e.1 + e.2.1)
      then Some (view e.2.2 (x - e.1))
      else value_at r x
  end.

(** the contract of a splitter: position [i] of the sub-value taken at
    [offset] is position [offset + i] of the value *)
Definition splits (s : Z → Z → V → V) : Prop :=
  ∀ offset len v i, 0 ≤ offset → 0 ≤ i < len →
    view (s offset len v) i = view v (offset + i).
End Defs.
End interval_map_view.

(** the byte a [bufferlist] holds at a position *)
Definition byte_at (bl : bufferlist) (i : Z) : option Byte.byte :=
  bl !! Z.to_nat i.

(** ** Further vocabulary: transactions *)

Module PGTransaction_view.
Import PGTransaction_spec.
Section Defs.
Context {hobject_t : Type} `{EqDecision hobject_t}.
Abbreviation op_t := (ObjectOperation.t hobject_t).

(** what a buffer update does to one byte of the object *)
Inductive byte_update : Type :=
| WriteByte (b : option Byte.byte) (fadvise_flags : Z)
| ZeroByte
| CloneByte (from : hobject_t) (offset : Z).

(** what the update [bu] does to the [i]-th byte of its range: write the
    [i]-th byte of the buffer, zero it, or copy the byte [i] positions after
    the start of the cloned range *)
Definition update_at (bu : ObjectOperation.BufferUpdateType hobject_t) (i : Z)
  : byte_update :=
  match bu with
  | ObjectOperation.Write buffer fadvise_flags => WriteByte (byte_at buffer i) fadvise_flags
  | ObjectOperation.Zero => ZeroByte
  | ObjectOperation.CloneRange from offset _ => CloneByte from (u64 (offset + i))
  end.

(** the sum of the lengths of the entries of one map *)
Definition ext_sum {V : Type} (m : interval_map.t V) : Z :=
  foldr (λ e acc, (e.2.1 + acc)%Z) 0%Z m.

(** the sum of the lengths of all buffer updates of a transaction *)
Definition bytes_sum (pgt : PGTransaction.t hobject_t) : Z :=
  foldr (λ p acc, (ext_sum (ObjectOperation.buffer_updates p.2) + acc)%Z) 0%Z
    (PGTransaction.op_map pgt).

(** the object whose operation a mutation writes *)
Definition target_of (c : mutation) : hobject_t :=
  match c with
  | Create hoid | Remove hoid | UpdateSnaps hoid _ | OmapClear hoid
  | Truncate hoid _ | Setattrs hoid _ | Setattr hoid _ _ | Rmattr hoid _
  | SetAllocHint hoid _ _ _ | Write_ hoid _ _ _ _ | Zero hoid _ _
  | OmapSetkeys hoid _ | OmapSetkeysMap hoid _ | OmapRmkeys hoid _
  | OmapRmkeysSet hoid _ | OmapSetheader hoid _ | Nop hoid => hoid
  | Clone target _ | Rename target _ => target
  | CloneRange _ to _ _ _ => to
  end.

(** one [omap_setkeys] or [omap_rmkeys] call, by the kind of update *)
Definition omap_update (hobject_lt : hobject_t → hobject_t → bool) (hoid : hobject_t)
    (u : ObjectOperation.OmapUpdateType * bufferlist)
    (pgt : PGTransaction.t hobject_t) : outcome (PGTransaction.t hobject_t) :=
  match u.1 with
  | ObjectOperation.Insert => PGTransaction.omap_setkeys hobject_lt hoid u.2 pgt
  | ObjectOperation.Remove => PGTransaction.omap_rmkeys hobject_lt hoid u.2 pgt
  end.

(** the ranges a mutation passes on are not empty and do not wrap around *)
Definition ranges_fit (c : @mutation hobject_t) : Prop :=
  match c with
  | Write_ _ off len _ _ | Zero _ off len | CloneRange _ _ _ len off =>
      in_u64 off ∧ (0 < len)%Z ∧ (off + len ≤ u64_max)%Z
  | Truncate _ off => in_u64 off
  | _ => True
  end.

(** every [buffer_updates] of the transaction satisfies I1 to I3 within the
    64-bit range *)
Definition buffers_ok (pgt : PGTransaction.t hobject_t) : Prop :=
  Forall (λ p, interval_map_spec.ok 0 (ObjectOperation.buffer_updates p.2))
    (PGTransaction.op_map pgt).

(** the chain of sources that starts at [h] ends: at an object without a
    source, or at one [op_map] does not hold *)
Inductive grounded (ops : list (hobject_t * op_t)) : hobject_t → Prop :=
| grounded_root h : source_of ops h = None → grounded ops h
| grounded_step h s : source_of ops h = Some s → grounded ops s → grounded ops h.
End Defs.
End PGTransaction_view.

(** * Properties *)

(** ** std::map *)

Section StdMapFacts.
Context {K V : Type} `{EqDecision K}.
Implicit Types (k : K) (v : V) (m : list (K * V)).

Lemma sm_find_Some_elem k v m : sm_find k m = Some v → (k, v) ∈ m.
Proof.
  induction m as [|[k' v'] m IH]; simpl; [done|].
  case_decide; intros; simplify_eq; [left | right; auto].
Qed.

Lemma sm_find_None k m : sm_find k m = None ↔ k ∉ m.*1.
Proof.
  induction m as [|[k' v'] m IH]; simpl.
  - split; [intros _; apply not_elem_of_nil | done].
  - rewrite not_elem_of_cons. case_decide; subst; [split; [done | tauto] | tauto].
Qed.

Lemma sm_find_is_Some k m : is_Some (sm_find k m) ↔ k ∈ m.*1.
Proof.
  rewrite <- not_eq_None_Some, sm_find_None.
  destruct (decide (k ∈ m.*1)); tauto.
Qed.

Lemma sm_find_elem k v m : NoDup m.*1 → (k, v) ∈ m → sm_find k m = Some v.
Proof.
  induction m as [|[k' v'] m IH]; simpl; intros Hnd Hin.
  - by apply elem_of_nil in Hin.
  - apply NoDup_cons in Hnd as [Hk Hnd].
    apply elem_of_cons in Hin as [Heq | Hin].
    + simplify_eq. by rewrite decide_True.
    + case_decide; [|auto]. subst k'. exfalso. apply Hk.
      apply list_elem_of_fmap. by exists (k, v).
Qed.

Lemma sm_find_erase_eq k m : sm_find k (sm_erase k m) = None.
Proof.
  induction m as [|[k' v'] m IH]; simpl; [done|].
  case_decide; simpl; [done|]. by rewrite decide_False.
Qed.

Lemma sm_find_erase_ne k k' m : k' ≠ k → sm_find k' (sm_erase k m) = sm_find k' m.
Proof.
  intros Hne. induction m as [|[k0 v0] m IH]; simpl; [done|].
  case_decide; simpl.
  - subst k0. by rewrite decide_False.
  - case_decide; auto.
Qed.

Variable lt : K → K → bool.

Lemma sm_find_set_eq k v m : sm_find k (sm_set lt k v m) = Some v.
Proof.
  induction m as [|[k' v'] m IH]; simpl.
  - by rewrite decide_True.
  - case_decide; simpl; [by rewrite decide_True|].
    destruct (lt k k'); simpl; [by rewrite decide_True|].
    by rewrite decide_False.
Qed.

Lemma sm_find_set_ne k k' v m : k' ≠ k → sm_find k' (sm_set lt k v m) = sm_find k' m.
Proof.
  intros Hne. induction m as [|[k0 v0] m IH]; simpl.
  - by rewrite decide_False.
  - case_decide; simpl.
    + subst k0. by rewrite !decide_False.
    + destruct (lt k k0); simpl; [by rewrite (decide_False (P := k' = k))|].
      case_decide; auto.
Qed.

Lemma sm_find_insert_fresh k v m : sm_find k m = None → sm_find k (sm_insert lt k v m) = Some v.
Proof.
  induction m as [|[k' v'] m IH]; simpl.
  - by rewrite decide_True.
  - case_decide; [done|]. intros Hm.
    destruct (lt k k'); simpl; [by rewrite decide_True|].
    rewrite decide_False; auto.
Qed.

Lemma sm_find_insert_ne k k' v m : k' ≠ k → sm_find k' (sm_insert lt k v m) = sm_find k' m.
Proof.
  intros Hne. induction m as [|[k0 v0] m IH]; simpl.
  - by rewrite decide_False.
  - case_decide; simpl; [done|].
    destruct (lt k k0); simpl; [by rewrite (decide_False (P := k' = k))|].
    case_decide; auto.
Qed.

Lemma sm_insert_elem k v m x :
  sm_find k m = None → x ∈ sm_insert lt k v m ↔ x = (k, v) ∨ x ∈ m.
Proof.
  induction m as [|[k' v'] m IH]; simpl.
  - intros _. rewrite list_elem_of_singleton, elem_of_nil. tauto.
  - case_decide; [done|]. intros Hm.
    destruct (lt k k'); [by rewrite elem_of_cons|].
    rewrite !elem_of_cons, IH by done. tauto.
Qed.


(** *** Key order *)

Hypothesis lt_order : strict_total lt.

Lemma sm_sorted_nodup m : sm_sorted lt m → NoDup m.*1.
Proof.
  unfold sm_sorted. induction m as [|[k v] m IH]; csimpl; [constructor|].
  intros Hs. apply StronglySorted_inv in Hs as [Hs Hall].
  apply NoDup_cons. split; [|auto].
  intros Hk. rewrite Forall_forall in Hall. apply Hall in Hk.
  by rewrite (lt_irrefl lt lt_order) in Hk.
Qed.

Lemma sm_insert_keys k v m x : x ∈ (sm_insert lt k v m).*1 → x = k ∨ x ∈ m.*1.
Proof.
  induction m as [|[k' v'] m IH]; csimpl.
  - intros ->%list_elem_of_singleton. by left.
  - case_decide; [by right|]. destruct (lt k k'); csimpl.
    + intros [-> | ?]%elem_of_cons; [by left | by right].
    + intros [-> | Hx]%elem_of_cons; [right; left|].
      destruct (IH Hx); [by left | right; by right].
Qed.

Lemma sm_set_keys k v m x : x ∈ (sm_set lt k v m).*1 → x = k ∨ x ∈ m.*1.
Proof.
  induction m as [|[k' v'] m IH]; csimpl.
  - intros ->%list_elem_of_singleton. by left.
  - case_decide; [subst k'; intros ?; by right|]. destruct (lt k k'); csimpl.
    + intros [-> | ?]%elem_of_cons; [by left | by right].
    + intros [-> | Hx]%elem_of_cons; [right; left|].
      destruct (IH Hx); [by left | right; by right].
Qed.

Lemma sm_erase_keys k m x : x ∈ (sm_erase k m).*1 → x ∈ m.*1.
Proof.
  induction m as [|[k' v'] m IH]; csimpl; [done|].
  case_decide; csimpl; [by right; auto|].
  intros [-> | Hx]%elem_of_cons; [left | right; auto].
Qed.

Lemma sm_insert_sorted k v m : sm_sorted lt m → sm_sorted lt (sm_insert lt k v m).
Proof.
  unfold sm_sorted. induction m as [|[k' v'] m IH]; csimpl.
  - intros _. repeat constructor.
  - intros Hs. pose proof Hs as [Hm Hall]%StronglySorted_inv.
    case_decide; [done|]. destruct (lt k k') eqn:Hlt; csimpl.
    + constructor; [done|]. constructor; [done|].
      eapply Forall_impl; [exact Hall|]. intros y Hy. simpl in Hy.
      by eapply (lt_trans lt lt_order).
    + constructor; [auto|]. rewrite Forall_forall in *.
      intros y [-> | Hy]%sm_insert_keys; [|auto].
      destruct (lt_total lt lt_order k k'); (done || congruence).
Qed.

Lemma sm_set_sorted k v m : sm_sorted lt m → sm_sorted lt (sm_set lt k v m).
Proof.
  unfold sm_sorted. induction m as [|[k' v'] m IH]; csimpl.
  - intros _. repeat constructor.
  - intros Hs. pose proof Hs as [Hm Hall]%StronglySorted_inv.
    case_decide; [by subst k'|]. destruct (lt k k') eqn:Hlt; csimpl.
    + constructor; [done|]. constructor; [done|].
      eapply Forall_impl; [exact Hall|]. intros y Hy. simpl in Hy.
      by eapply (lt_trans lt lt_order).
    + constructor; [auto|]. rewrite Forall_forall in *.
      intros y [-> | Hy]%sm_set_keys; [|auto].
      destruct (lt_total lt lt_order k k'); (done || congruence).
Qed.

Lemma sm_erase_sorted k m : sm_sorted lt m → sm_sorted lt (sm_erase k m).
Proof.
  unfold sm_sorted. induction m as [|[k' v'] m IH]; csimpl; [done|].
  intros [Hm Hall]%StronglySorted_inv.
  case_decide; csimpl; [auto|]. constructor; [auto|].
  rewrite Forall_forall in *. intros y Hy%sm_erase_keys. auto.
Qed.
End StdMapFacts.

(** ** 64-bit arithmetic without wrap-around *)

Lemma u64_small z : (0 ≤ z ≤ u64_max)%Z → u64 z = z.
Proof. intros Hz. unfold u64, u64_modulus, u64_max in *. apply Z.mod_small. lia. Qed.

Lemma u64_add_small a b : (0 ≤ a + b ≤ u64_max)%Z → u64_add a b = (a + b)%Z.
Proof. apply u64_small. Qed.

Lemma u64_sub_small a b : (0 ≤ a - b ≤ u64_max)%Z → u64_sub a b = (a - b)%Z.
Proof. apply u64_small. Qed.

(** ** interval_map *)

Module interval_map_facts.
Import interval_map_spec.
Section Facts.
Context {V : Type}.
Variable s : Z → Z → V → V.
Implicit Types (m r : interval_map.t V) (x y : Z * (Z * V)).
Local Open Scope Z_scope.
Local Arguments interval_map.remnants : simpl never.

Lemma ok_weaken lo lo' m : lo' ≤ lo → ok lo m → ok lo' m.
Proof. destruct m as [|[k [l v]] r]; simpl; [done|]. intros ? (? & ? & ? & ?). repeat split; [lia..|done]. Qed.

Lemma ok_elem lo m x : ok lo m → x ∈ m → lo ≤ x.1 ∧ 0 < x.2.1 ∧ x.1 + x.2.1 ≤ u64_max.
Proof.
  revert lo. induction m as [|[k [l v]] r IH]; simpl; intros lo Hok Hin.
  - by apply elem_of_nil in Hin.
  - destruct Hok as (? & ? & ? & Hr).
    apply elem_of_cons in Hin as [-> | Hin]; simpl; [lia|].
    specialize (IH _ Hr Hin). lia.
Qed.

Lemma first_after_zero lo m off : ok lo m → off < lo → first_after off m = 0%nat.
Proof.
  destruct m as [|[k [l v]] r]; simpl; [done|]. intros (? & ? & ? & _) ?.
  destruct (Z.leb_spec (k + l) off); [lia | done].
Qed.

Lemma lower_bound_zero lo m e : ok lo m → e ≤ lo → interval_map.lower_bound e m = 0%nat.
Proof.
  destruct m as [|[k [l v]] r]; simpl; [done|]. intros (? & ? & ? & _) ?.
  destruct (Z.ltb_spec k e); [lia | done].
Qed.

Lemma upper_bound_zero lo m off :
  ok lo m → interval_map.upper_bound off m = 0%nat → first_after off m = 0%nat.
Proof.
  destruct m as [|[k [l v]] r]; simpl; [done|]. intros (? & ? & ? & _).
  destruct (Z.ltb_spec off k); [|done]. intros _.
  destruct (Z.leb_spec (k + l) off); [lia | done].
Qed.

Lemma upper_bound_pos lo m off :
  ok lo m → interval_map.upper_bound off m ≠ 0%nat → lo ≤ off.
Proof.
  destruct m as [|[k [l v]] r]; simpl; [done|]. intros (? & ? & ? & _).
  destruct (Z.ltb_spec off k); [done | lia].
Qed.

Lemma cut_after lo m off e : ok lo m → off < e → e ≤ lo → cut s off e m = m.
Proof.
  destruct m as [|[k [l v]] r]; simpl; [done|]. intros (? & ? & ? & _) ? ?.
  destruct (Z.leb_spec (k + l) off); [lia|].
  destruct (Z.leb_spec e k); [done | lia].
Qed.

(** [get_range] finds the first entry that ends after [off] *)
Lemma get_range_first lo m off len :
  ok lo m → 0 ≤ lo →
  (interval_map.get_range off len m).1 = first_after off m.
Proof.
  unfold interval_map.get_range. simpl. revert lo.
  induction m as [|[k [l v]] r IH]; intros lo Hok Hlo; [done|].
  destruct Hok as (Hk & Hl & Hmax & Hr). simpl.
  destruct (Z.ltb_spec off k) as [Hlt | Hge]; simpl.
  - rewrite u64_add_small by lia.
    destruct (Z.leb_spec (k + l) off); [lia | done].
  - destruct (interval_map.upper_bound off r) as [|n] eqn:Hub; simpl.
    + rewrite u64_add_small by lia.
      destruct (Z.leb_spec (k + l) off); [|done].
      by rewrite (upper_bound_zero _ _ _ Hr Hub).
    + assert (k + l ≤ off) by (apply (upper_bound_pos _ _ _ Hr); lia).
      destruct (Z.leb_spec (k + l) off); [|lia].
      rewrite <- (IH (k + l) Hr) by lia. case_decide; [lia|]. simpl.
      destruct (r !! n) as [[k' [l' v']]|]; [|done].
      by destruct (u64_add k' l' <=? off).
Qed.

Lemma first_le_last lo m off e :
  ok lo m → off < e → (first_after off m ≤ interval_map.lower_bound e m)%nat.
Proof.
  revert lo. induction m as [|[k [l v]] r IH]; simpl; intros lo Hok He; [done|].
  destruct Hok as (Hk & Hl & Hmax & Hr).
  destruct (Z.leb_spec (k + l) off); [|lia].
  destruct (Z.ltb_spec k e); [|lia].
  specialize (IH _ Hr He). lia.
Qed.

Lemma remnants_keys off len x y :
  y ∈ interval_map.remnants s off len x → y.1 = x.1 ∨ y.1 = u64_add off len.
Proof.
  destruct x as [k [l v]]. unfold interval_map.remnants.
  rewrite elem_of_app. intros [Hy | Hy].
  - destruct (k <? off); [|by apply elem_of_nil in Hy].
    apply list_elem_of_singleton in Hy as ->. by left.
  - destruct (u64_add off len <? u64_add k l); [|by apply elem_of_nil in Hy].
    apply list_elem_of_singleton in Hy as ->. by right.
Qed.

Lemma remnants_eq off len x :
  0 ≤ off → 0 < len → off + len ≤ u64_max →
  0 ≤ x.1 → 0 < x.2.1 → x.1 + x.2.1 ≤ u64_max → x.1 < off + len →
  interval_map.remnants s off len x =
    (if x.1 <? off then [prefix_of s off x] else [])
    ++ (if off + len <? x.1 + x.2.1 then [suffix_of s (off + len) x] else []).
Proof.
  destruct x as [k [l v]]. simpl. intros. unfold interval_map.remnants.
  rewrite !u64_add_small by lia. f_equal.
  - destruct (Z.ltb_spec k off); [|done].
    by rewrite u64_sub_small by lia.
  - destruct (Z.ltb_spec (off + len) (k + l)); [|done].
    unfold suffix_of. simpl.
    by rewrite !u64_sub_small by lia.
Qed.

Lemma sm_insert_head k (v : Z * V) m :
  (∀ y, y ∈ m → k < y.1) → sm_insert Z.ltb k v m = (k, v) :: m.
Proof.
  destruct m as [|[k' v'] r]; simpl; [done|]. intros Hm.
  specialize (Hm (k', v') ltac:(left)). simpl in Hm.
  rewrite decide_False by lia.
  destruct (Z.ltb_spec k k'); [done | lia].
Qed.

Lemma sm_insert_all_cons x (es : list (Z * (Z * V))) m :
  (∀ y, y ∈ es → x.1 < y.1) →
  sm_insert_all Z.ltb es (x :: m) = x :: sm_insert_all Z.ltb es m.
Proof.
  unfold sm_insert_all. revert m. induction es as [|[k v] es IH]; simpl; intros m Hes; [done|].
  destruct x as [kx vx]. simpl in *.
  assert (kx < k) by (apply (Hes (k, v)); left).
  rewrite decide_False by lia.
  destruct (Z.ltb_spec k kx); [lia|].
  apply IH. intros y Hy. apply Hes. by right.
Qed.

Lemma sm_insert_all_app (es es' : list (Z * (Z * V))) m :
  sm_insert_all Z.ltb (es ++ es') m = sm_insert_all Z.ltb es' (sm_insert_all Z.ltb es m).
Proof. unfold sm_insert_all. by rewrite fold_left_app. Qed.

(** the loop and the two map updates of [erase], between the positions
    [get_range] returns *)
Lemma erase_body_cut lo m off len :
  ok lo m → 0 ≤ lo → 0 ≤ off → 0 < len → off + len ≤ u64_max →
  sm_insert_all Z.ltb
    (flat_map (interval_map.remnants s off len)
       (take (interval_map.lower_bound (off + len) m - first_after off m)
          (drop (first_after off m) m)))
    (take (first_after off m) m ++ drop (interval_map.lower_bound (off + len) m) m)
  = cut s off (off + len) m.
Proof.
  intros Hok Hlo Hoff Hlen Hmax. revert lo Hok Hlo.
  induction m as [|[k [l v]] r IH]; intros lo Hok Hlo; [done|].
  destruct Hok as (Hk & Hl & Hkl & Hr). simpl.
  destruct (Z.leb_spec (k + l) off) as [Hbefore | Hmid].
  - (* the entry ends at or before off *)
    destruct (Z.ltb_spec k (off + len)); [|lia]. simpl.
    rewrite sm_insert_all_cons; [by rewrite (IH (k + l)) by (done || lia)|].
    intros y Hy. apply list_elem_of_In, in_flat_map in Hy as (x & Hx & Hy).
    apply list_elem_of_In in Hx, Hy.
    apply subseteq_take, subseteq_drop in Hx.
    apply (ok_elem _ _ _ Hr) in Hx.
    apply remnants_keys in Hy as [-> | ->]; simpl; [lia|].
    rewrite u64_add_small by lia. lia.
  - destruct (Z.ltb_spec k (off + len)) as [Hin | Hafter].
    + (* the entry meets the range *)
      destruct (Z.leb_spec (off + len) k); [lia|]. simpl.
      specialize (IH (k + l) Hr ltac:(lia)).
      rewrite (first_after_zero _ _ _ Hr) in IH by lia.
      rewrite Nat.sub_0_r in IH. simpl in IH. rewrite drop_0 in IH.
      rewrite sm_insert_all_app.
      rewrite (remnants_eq off len (k, (l, v))) by (simpl; lia). simpl.
      assert (Hdrop : ∀ n y, y ∈ drop n r → k + l ≤ y.1).
      { intros n y Hy. apply subseteq_drop in Hy. apply (ok_elem _ _ _ Hr) in Hy. lia. }
      destruct (Z.ltb_spec (off + len) (k + l)) as [Hsuf | Hnosuf].
      * rewrite (lower_bound_zero _ _ _ Hr) by lia.
        rewrite (cut_after _ _ _ _ Hr) by lia. simpl.
        destruct (Z.ltb_spec k off); simpl.
        -- unfold sm_insert_all. simpl. rewrite drop_0.
           rewrite (sm_insert_head k) by (intros y Hy; specialize (Hdrop 0%nat y Hy); lia).
           simpl. rewrite decide_False by lia.
           destruct (Z.ltb_spec (off + len) k); [lia|].
           rewrite sm_insert_head by (intros y Hy; specialize (Hdrop 0%nat y Hy); lia).
           done.
        -- unfold sm_insert_all. simpl. rewrite drop_0.
           rewrite sm_insert_head by (intros y Hy; specialize (Hdrop 0%nat y Hy); lia).
           done.
      * rewrite app_nil_r.
        destruct (Z.ltb_spec k off); simpl.
        -- rewrite sm_insert_head by (intros y Hy; apply Hdrop in Hy; lia).
           rewrite sm_insert_all_cons; [by rewrite IH|].
           intros y Hy. apply list_elem_of_In, in_flat_map in Hy as (x & Hx & Hy).
           apply list_elem_of_In in Hx, Hy. apply subseteq_take in Hx.
           apply (ok_elem _ _ _ Hr) in Hx.
           apply remnants_keys in Hy as [-> | ->]; simpl; [lia|].
           rewrite u64_add_small by lia. lia.
        -- by rewrite IH.
    + (* the entry starts at or after the end of the range *)
      destruct (Z.leb_spec (off + len) k); [|lia]. done.
Qed.

(** under the invariant and without wrap-around, [erase] returns [cut] *)
Lemma erase_cut lo m off len :
  ok lo m → 0 ≤ lo → 0 ≤ off → 0 < len → off + len ≤ u64_max →
  interval_map.erase s off len m = Some (cut s off (off + len) m).
Proof.
  intros Hok Hlo Hoff Hlen Hmax. unfold interval_map.erase.
  rewrite decide_False by lia.
  pose proof (get_range_first lo m off len Hok Hlo) as Hfst.
  destruct (interval_map.get_range off len m) as [fst lst] eqn:Hrange.
  assert (lst = interval_map.lower_bound (off + len) m) as ->.
  { unfold interval_map.get_range in Hrange. simpl in Hrange.
    rewrite u64_add_small in Hrange by lia. congruence. }
  simpl in Hfst. subst fst.
  pose proof (first_le_last lo m off (off + len) Hok ltac:(lia)).
  rewrite decide_False by lia.
  by rewrite (erase_body_cut lo).
Qed.

(** *** What [cut] keeps *)

Lemma cut_ok lo m off e : ok lo m → off < e → ok lo (cut s off e m).
Proof.
  intros Hok He. revert lo Hok.
  induction m as [|[k [l v]] r IH]; intros lo Hok; [done|].
  destruct Hok as (Hk & Hl & Hkl & Hr). simpl.
  specialize (IH _ Hr).
  destruct (Z.leb_spec (k + l) off); [by simpl|].
  destruct (Z.leb_spec e k); [by simpl|].
  destruct (Z.ltb_spec k off), (Z.ltb_spec e (k + l)); simpl;
    repeat split; try lia; try done;
    apply (ok_weaken (k + l)); (lia || done).
Qed.

Lemma cut_gap lo m off e x :
  ok lo m → off < e → x ∈ cut s off e m → x.1 + x.2.1 ≤ off ∨ e ≤ x.1.
Proof.
  intros Hok He. revert lo Hok.
  induction m as [|[k [l v]] r IH]; intros lo Hok; simpl; [by intros ?%elem_of_nil|].
  destruct Hok as (Hk & Hl & Hkl & Hr).
  specialize (IH _ Hr).
  destruct (Z.leb_spec (k + l) off).
  { intros [-> | Hx]%elem_of_cons; simpl; [lia | auto]. }
  destruct (Z.leb_spec e k).
  { intros [-> | Hx]%elem_of_cons; simpl; [lia|].
    apply (ok_elem _ _ _ Hr) in Hx. lia. }
  rewrite !elem_of_app. intros [Hx | [Hx | Hx]]; [| |auto].
  - destruct (k <? off); [|by apply elem_of_nil in Hx].
    apply list_elem_of_singleton in Hx as ->. simpl. lia.
  - destruct (e <? k + l); [|by apply elem_of_nil in Hx].
    apply list_elem_of_singleton in Hx as ->. simpl. lia.
Qed.

Lemma after_disjoint lo m off e y :
  ok lo m → e ≤ lo → y ∈ m → ¬ intersects off e y.
Proof. intros Hok He Hy [_ ?]. apply (ok_elem _ _ _ Hok) in Hy. lia. Qed.

(** the entries of [cut] are the untouched entries and the remnants *)
Lemma cut_elem lo m off e x :
  ok lo m → off < e →
  x ∈ cut s off e m ↔
    (x ∈ m ∧ ¬ intersects off e x)
    ∨ (∃ y, y ∈ m ∧ intersects off e y ∧ y.1 < off ∧ x = prefix_of s off y)
    ∨ (∃ y, y ∈ m ∧ intersects off e y ∧ e < y.1 + y.2.1 ∧ x = suffix_of s e y).
Proof.
  intros Hok He. revert lo Hok.
  induction m as [|[k [l v]] r IH]; intros lo Hok; simpl.
  { split; [by intros ?%elem_of_nil|].
    intros [[?%elem_of_nil _] | [(y & ?%elem_of_nil & _) | (y & ?%elem_of_nil & _)]]; done. }
  destruct Hok as (Hk & Hl & Hkl & Hr).
  specialize (IH _ Hr).
  assert (Hhd : ∀ (P : Z * (Z * V) → Prop),
            (∃ y, y ∈ (k, (l, v)) :: r ∧ P y) ↔ P (k, (l, v)) ∨ ∃ y, y ∈ r ∧ P y).
  { intros P. split.
    - intros (y & [-> | Hy]%elem_of_cons & HP); [by left | right; eauto].
    - intros [HP | (y & Hy & HP)]; [exists (k, (l, v)) | exists y];
        (split; [|done]); [left | by right]. }
  rewrite !Hhd, elem_of_cons. unfold intersects in IH |- *. simpl.
  destruct (Z.leb_spec (k + l) off).
  { rewrite elem_of_cons, IH. intuition (subst; simpl in *; try lia; eauto). }
  destruct (Z.leb_spec e k).
  { rewrite elem_of_cons. split.
    - intros [-> | Hx]; [left; split; [by left | simpl; lia]|].
      left. split; [by right|]. by eapply after_disjoint; [exact Hr | lia |].
    - intros [[[-> | Hx] _] | [[? | (y & Hy & Hi & _)] | [? | (y & Hy & Hi & _)]]];
        [by left | by right | lia | | lia |];
        exfalso; eapply (after_disjoint _ _ off e y Hr); (lia || done). }
  rewrite !elem_of_app, IH.
  destruct (Z.ltb_spec k off), (Z.ltb_spec e (k + l));
    rewrite ?list_elem_of_singleton, ?elem_of_nil;
    intuition (subst; simpl in *; try lia; eauto).
Qed.

(** *** Adding an entry into a gap *)

Lemma gap_find_None lo m off len :
  ok lo m → 0 < len → (∀ x, x ∈ m → x.1 + x.2.1 ≤ off ∨ off + len ≤ x.1) →
  sm_find off m = None.
Proof.
  intros Hok Hlen Hgap. apply sm_find_None. intros Hin.
  apply list_elem_of_fmap in Hin as (x & -> & Hx).
  pose proof (ok_elem _ _ _ Hok Hx). specialize (Hgap _ Hx). lia.
Qed.

Lemma gap_insert_ok lo m off len v :
  ok lo m → lo ≤ off → 0 < len → off + len ≤ u64_max →
  (∀ x, x ∈ m → x.1 + x.2.1 ≤ off ∨ off + len ≤ x.1) →
  ok lo (sm_insert Z.ltb off (len, v) m).
Proof.
  intros Hok Hlo Hlen Hmax. revert lo Hok Hlo.
  induction m as [|[k [l w]] r IH]; intros lo Hok Hlo Hgap; simpl; [done|].
  destruct Hok as (Hk & Hl & Hkl & Hr).
  pose proof (Hgap (k, (l, w)) ltac:(left)) as Hhd. simpl in Hhd.
  rewrite decide_False by lia.
  destruct (Z.ltb_spec off k); simpl.
  - repeat split; (lia || done).
  - repeat split; try lia. apply IH; [done | lia|].
    intros x Hx. apply Hgap. by right.
Qed.

(** *** The invariant and I1 to I3 *)

Lemma ok_I1 lo m : ok lo m → I1 m.
Proof.
  revert lo. induction m as [|[k [l v]] r IH]; intros lo Hok.
  { intros a la va b lb vb Ha. by apply elem_of_nil in Ha. }
  destruct Hok as (Hk & Hl & Hkl & Hr).
  intros a la va b lb vb Ha Hb Hab.
  apply elem_of_cons in Ha as [Ha | Ha], Hb as [Hb | Hb].
  - simplify_eq. lia.
  - simplify_eq. apply (ok_elem _ _ _ Hr) in Hb. simpl in Hb. lia.
  - simplify_eq. apply (ok_elem _ _ _ Hr) in Ha. simpl in Ha. lia.
  - by apply (IH _ Hr a la va b lb vb).
Qed.

Lemma ok_I2 lo m : ok lo m → I2 m.
Proof. intros Hok a la va Ha. by apply (ok_elem _ _ _ Hok) in Ha as (_ & ? & _). Qed.

Lemma ok_I3 lo m : ok lo m → I3 m.
Proof.
  revert lo. induction m as [|[k [l v]] r IH]; intros lo Hok i j x y Hij Hi Hj.
  { by rewrite lookup_nil in Hi. }
  destruct Hok as (Hk & Hl & Hkl & Hr).
  destruct j as [|j]; [lia|]. simpl in Hj.
  destruct i as [|i]; simpl in Hi.
  - simplify_eq. apply list_elem_of_lookup_2 in Hj.
    apply (ok_elem _ _ _ Hr) in Hj. simpl. lia.
  - apply (IH _ Hr i j); (lia || done).
Qed.

Lemma ok_in_range lo m : ok lo m → 0 ≤ lo → in_range m.
Proof. intros Hok Hlo a la va Ha. apply (ok_elem _ _ _ Hok) in Ha. simpl in Ha. lia. Qed.

Lemma invariants_ok m : I1 m → I2 m → I3 m → in_range m → ok 0 m.
Proof.
  assert (∀ m lo, (∀ x, x ∈ m → lo ≤ x.1) → I1 m → I2 m → I3 m → in_range m → ok lo m)
    as Hgen; [|intros ? ? ? Hr; apply Hgen; try done;
               intros [a [la va]] Hx; apply Hr in Hx; simpl; lia].
  clear m. induction m as [|[k [l v]] r IH]; intros lo Hlo H1 H2 H3 H4; simpl; [done|].
  assert (Hhd : (k, (l, v)) ∈ (k, (l, v)) :: r) by left.
  repeat split.
  - apply (Hlo _ Hhd).
  - apply (H2 _ _ _ Hhd).
  - apply (H4 _ _ _ Hhd).
  - apply IH.
    + intros [b [lb vb]] Hx. simpl.
      apply (H1 k l v b lb vb); [done | by right|].
      apply list_elem_of_lookup in Hx as [j Hj].
      apply (H3 0%nat (S j) (k, (l, v)) (b, (lb, vb))); (lia || done).
    + intros a la va b lb vb Ha Hb. apply (H1 a la va b lb vb); by right.
    + intros a la va Ha. apply (H2 a la va). by right.
    + intros i j x y Hij Hi Hj. apply (H3 (S i) (S j)); (lia || done).
    + intros a la va Ha. apply (H4 a la va). by right.
Qed.

(** *** The public interface *)

Lemma erase_ok lo m off len :
  ok lo m → 0 ≤ lo → in_u64 off → in_u64 len → off + len ≤ u64_max →
  ∃ m', interval_map.erase s off len m = Some m' ∧ ok lo m'
        ∧ (0 < len → m' = cut s off (off + len) m).
Proof.
  intros Hok Hlo [Hoff _] [Hlen _] Hmax.
  destruct (decide (len = 0)) as [-> | Hne].
  - exists m. unfold interval_map.erase. simpl. repeat split; [done | lia].
  - exists (cut s off (off + len) m). rewrite (erase_cut lo) by (done || lia).
    repeat split. apply cut_ok; [done | lia].
Qed.

Lemma insert_ok lo m off len v :
  ok lo m → 0 ≤ lo → lo ≤ off → in_u64 off → 0 < len → off + len ≤ u64_max →
  ∃ m', interval_map.insert s off len v m = Some m' ∧ ok lo m'
        ∧ m' = sm_insert Z.ltb off (len, v) (cut s off (off + len) m).
Proof.
  intros Hok Hlo Hlo' [Hoff _] Hlen Hmax.
  eexists. unfold interval_map.insert.
  rewrite (erase_cut lo) by (done || lia). simpl. repeat split.
  apply gap_insert_ok; try (done || lia).
  - apply cut_ok; [done | lia].
  - intros x Hx. apply (cut_gap lo m); [done | lia | done].
Qed.

Lemma run_ok cs m :
  ok 0 m → Forall call_args cs → Forall call_no_wrap cs →
  ∃ m', run s cs m = Some m' ∧ ok 0 m'.
Proof.
  intros Hok Hargs. revert m Hok.
  induction Hargs as [|c cs Hc Hcs IH]; intros m Hok Hwrap; simpl; [by exists m|].
  apply Forall_cons in Hwrap as [Hw Hwrap].
  destruct c as [off len v | off len]; simpl in *.
  - destruct Hc as (Hoff & _ & Hlen).
    destruct (insert_ok 0 m off len v) as (m' & -> & Hok' & _);
      try (done || lia || apply Hoff).
    simpl. by apply IH.
  - destruct Hc as (Hoff & Hlen).
    destruct (erase_ok 0 m off len) as (m' & -> & Hok' & _); try (done || lia).
    simpl. by apply IH.
Qed.

(** C3 (amended): starting from the empty map, after every call of a
    sequence of [insert(off, len, v)] with [len > 0] and [erase(off, len)]
    whose ranges do not wrap around ([off + len <= 2^64 - 1]), the map is
    defined, stored entries do not overlap (I1), none is empty (I2) and
    iteration meets strictly ascending start offsets (I3). *)
Theorem run_invariants (cs : list call) (n : nat) :
  Forall call_args cs → Forall call_no_wrap cs →
  ∃ m, run s (take n cs) [] = Some m ∧ I1 m ∧ I2 m ∧ I3 m.
Proof.
  intros Hargs Hwrap.
  destruct (run_ok (take n cs) []) as (m & Hrun & Hok);
    [done | by apply Forall_take | by apply Forall_take|].
  exists m. split; [done|].
  split; [by apply (ok_I1 0) | split; [by apply (ok_I2 0) | by apply (ok_I3 0)]].
Qed.

(** C5 (amended): on a map that satisfies I1 to I3 and whose entries end at
    or below [2^64 - 1], [erase(off, len)] with [len > 0] and
    [off + len <= 2^64 - 1] removes every entry that meets [off, off+len),
    leaves its prefix remnant when it starts before [off] and its suffix
    remnant when it ends after [off + len], leaves the other entries
    untouched, and stores nothing else. *)
Theorem erase_splits m (off len : Z) :
  I1 m → I2 m → I3 m → in_range m →
  in_u64 off → 0 < len → off + len ≤ u64_max →
  ∃ m', interval_map.erase s off len m = Some m'
    ∧ (∀ y, y ∈ m → intersects off (off + len) y →
         (y ∉ m')
         ∧ (y.1 < off → prefix_of s off y ∈ m')
         ∧ (off + len < y.1 + y.2.1 → suffix_of s (off + len) y ∈ m'))
    ∧ (∀ y, y ∈ m → ¬ intersects off (off + len) y → y ∈ m')
    ∧ (∀ x, x ∈ m' →
         (x ∈ m ∧ ¬ intersects off (off + len) x)
         ∨ (∃ y, y ∈ m ∧ intersects off (off + len) y
                 ∧ y.1 < off ∧ x = prefix_of s off y)
         ∨ (∃ y, y ∈ m ∧ intersects off (off + len) y
                 ∧ off + len < y.1 + y.2.1 ∧ x = suffix_of s (off + len) y))
    ∧ I1 m' ∧ I2 m' ∧ I3 m'.
Proof.
  intros H1 H2 H3 H4 [Hoff _] Hlen Hmax.
  pose proof (invariants_ok m H1 H2 H3 H4) as Hok.
  exists (cut s off (off + len) m).
  rewrite (erase_cut 0) by (done || lia).
  pose proof (cut_ok 0 m off (off + len) Hok ltac:(lia)) as Hok'.
  pose proof (λ x, cut_elem 0 m off (off + len) x Hok ltac:(lia)) as Hel.
  repeat split.
  - intros Hy. apply Hel in Hy as [[_ Hn] | [(z & _ & _ & _ & ->) | (z & _ & _ & _ & ->)]].
    + done.
    + unfold intersects, prefix_of in *. simpl in *. lia.
    + unfold intersects, suffix_of in *. simpl in *. lia.
  - intros ?. apply Hel. right. left. by exists y.
  - intros ?. apply Hel. right. right. by exists y.
  - intros y Hy Hn. apply Hel. by left.
  - intros x Hx. by apply Hel.
  - by apply (ok_I1 0).
  - by apply (ok_I2 0).
  - by apply (ok_I3 0).
Qed.

(** C4 (amended): on a map that satisfies I1 to I3 and whose entries end at
    or below [2^64 - 1], [insert(off, len, v)] with [len > 0] and
    [off + len <= 2^64 - 1] is [erase(off, len)] followed by adding
    [(off, len, v)]; afterwards [(off, len, v)] is the only entry that meets
    [off, off+len), an earlier entry that met the range is gone or replaced
    by its remnants, and the other entries are unchanged. *)
Theorem insert_overwrites m (off len : Z) (v : V) :
  I1 m → I2 m → I3 m → in_range m →
  in_u64 off → 0 < len → off + len ≤ u64_max →
  ∃ m0 m', interval_map.erase s off len m = Some m0
    ∧ interval_map.insert s off len v m = Some m'
    ∧ (∀ x, x ∈ m' ↔ x = (off, (len, v)) ∨ x ∈ m0)
    ∧ (∀ x, x ∈ m' → intersects off (off + len) x ↔ x = (off, (len, v)))
    ∧ (∀ y, y ∈ m → intersects off (off + len) y → y ≠ (off, (len, v)) → y ∉ m')
    ∧ (∀ x, x ∈ m0 ↔
         (x ∈ m ∧ ¬ intersects off (off + len) x)
         ∨ (∃ y, y ∈ m ∧ intersects off (off + len) y
                 ∧ y.1 < off ∧ x = prefix_of s off y)
         ∨ (∃ y, y ∈ m ∧ intersects off (off + len) y
                 ∧ off + len < y.1 + y.2.1 ∧ x = suffix_of s (off + len) y))
    ∧ I1 m' ∧ I2 m' ∧ I3 m'.
Proof.
  intros H1 H2 H3 H4 Hoff Hlen Hmax.
  pose proof (invariants_ok m H1 H2 H3 H4) as Hok.
  destruct (insert_ok 0 m off len v) as (m' & Hins & Hok' & ->);
    try (done || lia || apply Hoff).
  destruct Hoff as [Hoff _].
  exists (cut s off (off + len) m), (sm_insert Z.ltb off (len, v) (cut s off (off + len) m)).
  pose proof (cut_ok 0 m off (off + len) Hok ltac:(lia)) as Hokc.
  pose proof (λ x, cut_elem 0 m off (off + len) x Hok ltac:(lia)) as Hel.
  pose proof (λ x, cut_gap 0 m off (off + len) x Hok ltac:(lia)) as Hgap.
  assert (Hnew : ∀ x, x ∈ sm_insert Z.ltb off (len, v) (cut s off (off + len) m)
                      ↔ x = (off, (len, v)) ∨ x ∈ cut s off (off + len) m).
  { intros x. apply sm_insert_elem. by apply (gap_find_None 0 _ off len). }
  split; [by apply (erase_cut 0); (done || lia)|].
  split; [done|]. split; [done|].
  split; [|split; [|split; [done|]]].
  - intros x Hx. split.
    + intros [? ?]. apply Hnew in Hx as [-> | Hx]; [done|].
      apply Hgap in Hx. lia.
    + intros ->. unfold intersects. simpl. lia.
  - intros y Hy Hi Hne Hy'. apply Hnew in Hy' as [-> | Hy']; [done|].
    apply Hgap in Hy'. unfold intersects in Hi. lia.
  - split; [by apply (ok_I1 0) | split; [by apply (ok_I2 0) | by apply (ok_I3 0)]].
Qed.

(** C10: [erase(off, 0)] leaves any map unchanged, whereas
    [insert(off, 0, v)] skips the erase and still stores: the entry
    [(off, 0, v)] is in the map whenever no entry started at [off]; on the
    empty map [insert(5, 0, v)] gives a map that is not [empty()], has
    [ext_count() = 1] and breaks I2. *)
Theorem insert_zero_len_stores m (off : Z) (v : V) :
  interval_map.erase s off 0 m = Some m
  ∧ interval_map.insert s off 0 v m = Some (sm_insert Z.ltb off (0, v) m)
  ∧ (sm_find off m = None → (off, (0, v)) ∈ sm_insert Z.ltb off (0, v) m)
  ∧ ∃ m5, interval_map.insert s 5 0 v [] = Some m5
          ∧ interval_map.empty m5 = false
          ∧ interval_map.ext_count m5 = 1
          ∧ ¬ I2 m5.
Proof.
  split; [done|]. split; [done|]. split.
  - intros Hnone. apply (sm_insert_elem Z.ltb); [done | by left].
  - exists [(5, (0, v))]. repeat split.
    intros H2. specialize (H2 5 0 v ltac:(left)). lia.
Qed.
End Facts.

(** *** Concrete runs *)

Local Open Scope Z_scope.

Ltac solve_calls :=
  repeat match goal with x := _ |- _ => subst x end;
  repeat (apply Forall_cons; split;
          [simpl; unfold in_u64, u64_max; lia|]);
  first [exact I | apply Forall_nil; exact I].

Example test_insert_middle_overlap (a b c : bufferlist) :
  run bufferlist_splitter [Insert 0 5 a; Insert 10 5 c; Insert 4 7 b] []
  = Some [(0, (4, bufferlist_splitter 0 4 a)); (4, (7, b));
          (11, (4, bufferlist_splitter 1 4 c))].
Proof. reflexivity. Qed.

Example test_erase (a b c : bufferlist) :
  run bufferlist_splitter [Insert 0 5 a; Insert 5 5 b; Insert 10 5 c; Erase 3 5] []
  = Some [(0, (3, bufferlist_splitter 0 3 a)); (8, (2, bufferlist_splitter 3 2 b));
          (10, (5, c))].
Proof. reflexivity. Qed.

Example test_get_containing_range (a b c d : bufferlist) :
  interval_map.get_containing_range 5 21
    [(0, (5, a)); (10, (5, b)); (20, (5, c)); (30, (5, d))]
  = Some [(10, (5, b)); (20, (5, c))].
Proof. reflexivity. Qed.

Lemma run_invariants_witness :
  let cs := [Insert 0 5 [Byte.x61]; Insert 10 5 [Byte.x63];
             Insert 4 7 [Byte.x62]; Erase 3 5] in
  Forall call_args cs ∧ Forall call_no_wrap cs
  ∧ ∃ m, run bufferlist_splitter (take 4 cs) [] = Some m ∧ I1 m ∧ I2 m ∧ I3 m.
Proof.
  intros cs.
  assert (Ha : Forall call_args cs) by solve_calls.
  assert (Hw : Forall call_no_wrap cs) by solve_calls.
  split; [exact Ha|]. split; [exact Hw|].
  exact (run_invariants bufferlist_splitter cs 4 Ha Hw).
Defined.

(** C3 as stated fails: both calls have [len > 0], yet the second range
    wraps around, nothing is erased, and the two stored entries overlap. *)
Lemma run_wrap_overlaps :
  let cs := [Insert 5 10 [Byte.x61]; Insert 8 (u64_max - 4) [Byte.x62]] in
  Forall call_args cs
  ∧ ∃ m, run bufferlist_splitter cs [] = Some m ∧ ¬ I1 m.
Proof.
  intros cs. split; [solve_calls|].
  exists [(5, (10, [Byte.x61])); (8, (u64_max - 4, [Byte.x62]))].
  split; [reflexivity|].
  intros H1.
  specialize (H1 5 10 [Byte.x61] 8 (u64_max - 4) [Byte.x62]
                ltac:(left) ltac:(right; left) ltac:(lia)).
  lia.
Qed.

Lemma erase_splits_witness :
  let m := [(0, (5, [Byte.x61])); (5, (5, [Byte.x62])); (10, (5, [Byte.x63]))] in
  (I1 m ∧ I2 m ∧ I3 m ∧ in_range m ∧ in_u64 3 ∧ 0 < 5 ∧ 3 + 5 ≤ u64_max)
  ∧ ∃ m', interval_map.erase bufferlist_splitter 3 5 m = Some m'
    ∧ (∀ y, y ∈ m → intersects 3 (3 + 5) y →
         (y ∉ m')
         ∧ (y.1 < 3 → prefix_of bufferlist_splitter 3 y ∈ m')
         ∧ (3 + 5 < y.1 + y.2.1 → suffix_of bufferlist_splitter (3 + 5) y ∈ m'))
    ∧ (∀ y, y ∈ m → ¬ intersects 3 (3 + 5) y → y ∈ m')
    ∧ (∀ x, x ∈ m' →
         (x ∈ m ∧ ¬ intersects 3 (3 + 5) x)
         ∨ (∃ y, y ∈ m ∧ intersects 3 (3 + 5) y
                 ∧ y.1 < 3 ∧ x = prefix_of bufferlist_splitter 3 y)
         ∨ (∃ y, y ∈ m ∧ intersects 3 (3 + 5) y
                 ∧ 3 + 5 < y.1 + y.2.1 ∧ x = suffix_of bufferlist_splitter (3 + 5) y))
    ∧ I1 m' ∧ I2 m' ∧ I3 m'.
Proof.
  intros m.
  assert (Hok : ok 0 m) by (unfold m; simpl; unfold u64_max; lia).
  assert (Hoff : in_u64 3) by (unfold in_u64, u64_max; lia).
  assert (Hmax : 3 + 5 ≤ u64_max) by (unfold u64_max; lia).
  pose proof (ok_I1 0 m Hok) as H1. pose proof (ok_I2 0 m Hok) as H2.
  pose proof (ok_I3 0 m Hok) as H3.
  pose proof (ok_in_range 0 m Hok ltac:(lia)) as H4.
  split; [exact (conj H1 (conj H2 (conj H3 (conj H4 (conj Hoff (conj eq_refl Hmax))))))|].
  exact (erase_splits bufferlist_splitter m 3 5 H1 H2 H3 H4 Hoff ltac:(lia) Hmax).
Defined.

(** C5 as stated fails: the map satisfies I1 to I3 and [len > 0]; the
    entry [10, 15) meets [8, 8 + len), yet [off + len] wraps around to 4 and
    the entry stays. *)
Lemma erase_wrap_keeps_entry :
  let m := [(10, (5, [Byte.x61]))] in
  let len := u64_max - 3 in
  I1 m ∧ I2 m ∧ I3 m ∧ in_u64 8 ∧ in_u64 len ∧ 0 < len
  ∧ (10, (5, [Byte.x61])) ∈ m
  ∧ intersects 8 (8 + len) (10, (5, [Byte.x61]))
  ∧ ∃ m', interval_map.erase bufferlist_splitter 8 len m = Some m'
          ∧ (10, (5, [Byte.x61])) ∈ m'.
Proof.
  intros m len.
  assert (Hok : ok 0 m) by (unfold m; simpl; unfold u64_max; lia).
  split; [by apply (ok_I1 0)|]. split; [by apply (ok_I2 0)|].
  split; [by apply (ok_I3 0)|].
  repeat split; try (unfold len, u64_max; simpl; lia); [left|].
  exists m. split; [reflexivity | left].
Qed.

Lemma insert_overwrites_witness :
  let m := [(0, (5, [Byte.x61])); (10, (5, [Byte.x63]))] in
  let v := [Byte.x62] in
  (I1 m ∧ I2 m ∧ I3 m ∧ in_range m ∧ in_u64 4 ∧ 0 < 7 ∧ 4 + 7 ≤ u64_max)
  ∧ ∃ m0 m', interval_map.erase bufferlist_splitter 4 7 m = Some m0
    ∧ interval_map.insert bufferlist_splitter 4 7 v m = Some m'
    ∧ (∀ x, x ∈ m' ↔ x = (4, (7, v)) ∨ x ∈ m0)
    ∧ (∀ x, x ∈ m' → intersects 4 (4 + 7) x ↔ x = (4, (7, v)))
    ∧ (∀ y, y ∈ m → intersects 4 (4 + 7) y → y ≠ (4, (7, v)) → y ∉ m')
    ∧ (∀ x, x ∈ m0 ↔
         (x ∈ m ∧ ¬ intersects 4 (4 + 7) x)
         ∨ (∃ y, y ∈ m ∧ intersects 4 (4 + 7) y
                 ∧ y.1 < 4 ∧ x = prefix_of bufferlist_splitter 4 y)
         ∨ (∃ y, y ∈ m ∧ intersects 4 (4 + 7) y
                 ∧ 4 + 7 < y.1 + y.2.1 ∧ x = suffix_of bufferlist_splitter (4 + 7) y))
    ∧ I1 m' ∧ I2 m' ∧ I3 m'.
Proof.
  intros m v.
  assert (Hok : ok 0 m) by (unfold m; simpl; unfold u64_max; lia).
  assert (Hoff : in_u64 4) by (unfold in_u64, u64_max; lia).
  assert (Hmax : 4 + 7 ≤ u64_max) by (unfold u64_max; lia).
  pose proof (ok_I1 0 m Hok) as H1. pose proof (ok_I2 0 m Hok) as H2.
  pose proof (ok_I3 0 m Hok) as H3.
  pose proof (ok_in_range 0 m Hok ltac:(lia)) as H4.
  split; [exact (conj H1 (conj H2 (conj H3 (conj H4 (conj Hoff (conj eq_refl Hmax))))))|].
  exact (insert_overwrites bufferlist_splitter m 4 7 v H1 H2 H3 H4 Hoff ltac:(lia) Hmax).
Defined.

(** C4 as stated fails: the map satisfies I1 to I3 and [len > 0], yet
    [off + len] wraps around, the entry [10, 15) that meets the inserted
    range stays as it was, and two entries meet [off, off+len). *)
Lemma insert_wrap_keeps_entry :
  let m := [(10, (5, [Byte.x61]))] in
  let len := u64_max - 3 in
  I1 m ∧ I2 m ∧ I3 m ∧ in_u64 8 ∧ in_u64 len ∧ 0 < len
  ∧ intersects 8 (8 + len) (10, (5, [Byte.x61]))
  ∧ ∃ m', interval_map.insert bufferlist_splitter 8 len [Byte.x62] m = Some m'
          ∧ (10, (5, [Byte.x61])) ∈ m'
          ∧ (10, (5, [Byte.x61])) ≠ (8, (len, [Byte.x62])).
Proof.
  intros m len.
  assert (Hok : ok 0 m) by (unfold m; simpl; unfold u64_max; lia).
  split; [by apply (ok_I1 0)|]. split; [by apply (ok_I2 0)|].
  split; [by apply (ok_I3 0)|].
  repeat split; try (unfold len, u64_max; simpl; lia).
  exists [(8, (len, [Byte.x62])); (10, (5, [Byte.x61]))].
  split; [reflexivity|]. split; [right; left | done].
Qed.

Lemma insert_zero_len_stores_witness :
  sm_find 7 [(3, (2, [Byte.x61]))] = None
  ∧ (7, (0, [Byte.x62])) ∈ sm_insert Z.ltb 7 (0, [Byte.x62]) [(3, (2, [Byte.x61]))].
Proof.
  split; [reflexivity|].
  exact (proj1 (proj2 (proj2
    (insert_zero_len_stores bufferlist_splitter [(3, (2, [Byte.x61]))] 7 [Byte.x62])))
    eq_refl).
Defined.
End interval_map_facts.

(** ** PGTransaction: operations on one object *)

Module PGTransaction_facts.
Import PGTransaction_spec.
Section Facts.
Context {hobject_t : Type} `{EqDecision hobject_t}.
Variable hobject_lt : hobject_t → hobject_t → bool.
Variable is_temp : hobject_t → bool.
Variable encode_map : gmap string bufferlist → bufferlist.
Variable encode_set : gset string → bufferlist.
Abbreviation op_t := (ObjectOperation.t hobject_t).
Abbreviation pgt_t := (PGTransaction.t hobject_t).
Implicit Types (hoid target source h : hobject_t) (pgt : pgt_t) (op : op_t)
  (m : list (hobject_t * op_t)).

Lemma subscript_op hoid m :
  (PGTransaction.subscript hobject_lt hoid m).1
  = default ObjectOperation.fresh (sm_find hoid m).
Proof. unfold PGTransaction.subscript. by destruct (sm_find hoid m). Qed.

Lemma subscript_find_eq hoid m :
  sm_find hoid (PGTransaction.subscript hobject_lt hoid m).2
  = Some (default ObjectOperation.fresh (sm_find hoid m)).
Proof.
  unfold PGTransaction.subscript. destruct (sm_find hoid m) eqn:Hf; simpl; [done|].
  by apply sm_find_insert_fresh.
Qed.

Lemma subscript_find_ne hoid h m :
  h ≠ hoid → sm_find h (PGTransaction.subscript hobject_lt hoid m).2 = sm_find h m.
Proof.
  intros Hne. unfold PGTransaction.subscript. destruct (sm_find hoid m); simpl; [done|].
  by apply sm_find_insert_ne.
Qed.

Lemma store_find_eq hoid op m :
  find hoid (PGTransaction.store hobject_lt hoid op m) = Some op.
Proof. apply sm_find_set_eq. Qed.

Lemma store_find_ne hoid h op m :
  h ≠ hoid → find h (PGTransaction.store hobject_lt hoid op m) = sm_find h m.
Proof. apply sm_find_set_ne. Qed.

Lemma subscript_eta hoid m :
  PGTransaction.subscript hobject_lt hoid m
  = (default ObjectOperation.fresh (sm_find hoid m),
     (PGTransaction.subscript hobject_lt hoid m).2).
Proof. rewrite <- subscript_op. by destruct (PGTransaction.subscript hobject_lt hoid m). Qed.

Lemma modify_spec hoid pgt :
  PGTransaction.get_object_op_for_modify hobject_lt hoid pgt
  = if ObjectOperation.is_delete (op_at hoid pgt) then AssertFail
    else Ok (op_at hoid pgt,
             (PGTransaction.subscript hobject_lt hoid (PGTransaction.op_map pgt)).2).
Proof.
  unfold PGTransaction.get_object_op_for_modify, op_at, find.
  rewrite subscript_eta. by destruct (ObjectOperation.is_delete _).
Qed.

(** C8: on an object whose operation is not [is_delete], [omap_clear] sets
    [clear_omap], empties [omap_updates] and resets [omap_header]; the other
    members of that operation and the operations of all other objects stay
    as they were. *)
Theorem omap_clear_frame hoid pgt :
  ObjectOperation.is_delete (op_at hoid pgt) = false →
  ∃ pgt' op',
    PGTransaction.omap_clear hobject_lt hoid pgt = Ok pgt'
    ∧ find hoid pgt' = Some op'
    ∧ ObjectOperation.clear_omap op' = true
    ∧ ObjectOperation.omap_updates op' = []
    ∧ ObjectOperation.omap_header op' = None
    ∧ ObjectOperation.init_type op' = ObjectOperation.init_type (op_at hoid pgt)
    ∧ ObjectOperation.delete_first op' = ObjectOperation.delete_first (op_at hoid pgt)
    ∧ ObjectOperation.truncate op' = ObjectOperation.truncate (op_at hoid pgt)
    ∧ ObjectOperation.attr_updates op' = ObjectOperation.attr_updates (op_at hoid pgt)
    ∧ ObjectOperation.updated_snaps op' = ObjectOperation.updated_snaps (op_at hoid pgt)
    ∧ ObjectOperation.alloc_hint op' = ObjectOperation.alloc_hint (op_at hoid pgt)
    ∧ ObjectOperation.buffer_updates op' = ObjectOperation.buffer_updates (op_at hoid pgt)
    ∧ ∀ h, h ≠ hoid → find h pgt' = find h pgt.
Proof.
  intros Hdel. unfold PGTransaction.omap_clear. rewrite modify_spec, Hdel. simpl.
  eexists _, _. split; [done|]. split; [apply store_find_eq|].
  repeat (split; [done|]).
  intros h Hne. rewrite store_find_ne by done. by apply subscript_find_ne.
Qed.

Lemma op_at_store hoid op m :
  op_at hoid (PGTransaction.store hobject_lt hoid op m) = op.
Proof. unfold op_at. by rewrite store_find_eq. Qed.

Lemma create_spec hoid pgt :
  PGTransaction.create hobject_lt hoid pgt
  = if ObjectOperation.is_none (op_at hoid pgt) || ObjectOperation.is_delete (op_at hoid pgt)
    then Ok (PGTransaction.store hobject_lt hoid
               (ObjectOperation.set_init_type ObjectOperation.Create (op_at hoid pgt))
               (PGTransaction.subscript hobject_lt hoid (PGTransaction.op_map pgt)).2)
    else AssertFail.
Proof.
  unfold PGTransaction.create, op_at, find. rewrite subscript_eta.
  by destruct (_ || _).
Qed.

Lemma clone_spec target source pgt :
  PGTransaction.clone hobject_lt target source pgt
  = if ObjectOperation.is_none (op_at target pgt)
       || ObjectOperation.is_delete (op_at target pgt)
    then Ok (PGTransaction.store hobject_lt target
               (ObjectOperation.set_init_type (ObjectOperation.Clone source)
                  (op_at target pgt))
               (PGTransaction.subscript hobject_lt target (PGTransaction.op_map pgt)).2)
    else AssertFail.
Proof.
  unfold PGTransaction.clone, op_at, find. rewrite subscript_eta.
  by destruct (_ || _).
Qed.

Lemma rename_spec target source pgt :
  PGTransaction.rename hobject_lt is_temp target source pgt
  = if rename_pre is_temp target source pgt
    then
      let m := (PGTransaction.subscript hobject_lt target (PGTransaction.op_map pgt)).2 in
      match sm_find source m with
      | Some sop =>
          Ok (PGTransaction.store hobject_lt target
                (ObjectOperation.set_init_type (ObjectOperation.Rename source) sop)
                (sm_erase source (sm_set hobject_lt target sop m)))
      | None =>
          Ok (PGTransaction.store hobject_lt target
                (ObjectOperation.set_init_type (ObjectOperation.Rename source)
                   (op_at target pgt)) m)
      end
    else AssertFail.
Proof.
  unfold PGTransaction.rename, rename_pre, op_at, find.
  destruct (is_temp source); [|done]. destruct (is_temp target); [done|]. simpl.
  rewrite subscript_eta. destruct (_ || _); [|done]. simpl.
  by destruct (sm_find source _).
Qed.

Lemma rename_with_source target source pgt sop :
  rename_pre is_temp target source pgt = true → find source pgt = Some sop →
  ∃ pgt', PGTransaction.rename hobject_lt is_temp target source pgt = Ok pgt'
    ∧ find source pgt' = None
    ∧ find target pgt' = Some (ObjectOperation.set_init_type (ObjectOperation.Rename source) sop)
    ∧ ∀ h, h ≠ target → h ≠ source → find h pgt' = find h pgt.
Proof.
  intros Hpre Hsrc. rewrite rename_spec, Hpre. simpl.
  assert (source ≠ target) as Hne.
  { intros ->. unfold rename_pre in Hpre. by destruct (is_temp target). }
  rewrite subscript_find_ne by done. unfold find in Hsrc. rewrite Hsrc.
  eexists. split; [done|]. split; [|split].
  - rewrite store_find_ne by done. apply sm_find_erase_eq.
  - apply store_find_eq.
  - intros h Ht Hs. rewrite store_find_ne by done.
    rewrite sm_find_erase_ne, sm_find_set_ne by done.
    by apply subscript_find_ne.
Qed.

Lemma rename_without_source target source pgt :
  rename_pre is_temp target source pgt = true → find source pgt = None →
  ∃ pgt', PGTransaction.rename hobject_lt is_temp target source pgt = Ok pgt'
    ∧ find target pgt'
      = Some (ObjectOperation.set_init_type (ObjectOperation.Rename source) (op_at target pgt))
    ∧ ∀ h, h ≠ target → find h pgt' = find h pgt.
Proof.
  intros Hpre Hsrc. rewrite rename_spec, Hpre. simpl.
  assert (source ≠ target) as Hne.
  { intros ->. unfold rename_pre in Hpre. by destruct (is_temp target). }
  rewrite subscript_find_ne by done. unfold find in Hsrc. rewrite Hsrc.
  eexists. split; [done|]. split.
  - apply store_find_eq.
  - intros h Ht. rewrite store_find_ne by done. by apply subscript_find_ne.
Qed.

Lemma buffer_insert_fresh hoid off len bu :
  in_u64 off → (0 < len)%Z → (off + len ≤ u64_max)%Z →
  PGTransaction.buffer_insert hobject_lt hoid off len bu (PGTransaction.mk [])
  = Ok (PGTransaction.store hobject_lt hoid
          (ObjectOperation.set_buffer_updates [(off, (len, bu))] ObjectOperation.fresh)
          [(hoid, ObjectOperation.fresh)]).
Proof.
  intros Hoff Hlen Hmax. unfold PGTransaction.buffer_insert. rewrite modify_spec. simpl.
  destruct (interval_map_facts.insert_ok ObjectOperation.Splitter 0 [] off len bu)
    as (b & -> & _ & ->); (done || lia || apply Hoff).
Qed.

(** C6: [rename(target, source)] aborts unless [source.is_temp()],
    [!target.is_temp()] and the operation at [target] is [is_none] or
    [is_delete]; when [op_map] holds an operation at [source], that
    operation, with [init_type = Rename{source}], becomes the one at
    [target] and the [source] key leaves [op_map]; after
    [write(T, 0, 4, X)] and [rename(D, T)] there is no entry at [T] and the
    entry at [D] has [init_type = Rename{T}] and the single buffer update
    [(0, 4, Write{X})]. *)
Theorem rename_moves_source target source pgt :
  (PGTransaction.rename hobject_lt is_temp target source pgt = AssertFail
   ↔ ¬ (is_temp source = true ∧ is_temp target = false
        ∧ (ObjectOperation.is_none (op_at target pgt) = true
           ∨ ObjectOperation.is_delete (op_at target pgt) = true)))
  ∧ (∀ sop,
       is_temp source = true → is_temp target = false →
       ObjectOperation.is_none (op_at target pgt) = true
       ∨ ObjectOperation.is_delete (op_at target pgt) = true →
       find source pgt = Some sop →
       ∃ pgt', PGTransaction.rename hobject_lt is_temp target source pgt = Ok pgt'
         ∧ find source pgt' = None
         ∧ find target pgt'
           = Some (ObjectOperation.set_init_type (ObjectOperation.Rename source) sop)
         ∧ ∀ h, h ≠ target → h ≠ source → find h pgt' = find h pgt)
  ∧ (∀ (X : bufferlist) (fadvise_flags : Z),
       is_temp source = true → is_temp target = false →
       ∃ pgt1 pgt2 op,
         PGTransaction.write hobject_lt source 0 4 X fadvise_flags (PGTransaction.mk [])
           = Ok pgt1
         ∧ PGTransaction.rename hobject_lt is_temp target source pgt1 = Ok pgt2
         ∧ find source pgt2 = None
         ∧ find target pgt2 = Some op
         ∧ ObjectOperation.init_type op = ObjectOperation.Rename source
         ∧ ObjectOperation.buffer_updates op
           = [(0%Z, (4%Z, ObjectOperation.Write X fadvise_flags))]).
Proof.
  assert (Hpre : ∀ p, rename_pre is_temp target source p = true ↔
            is_temp source = true ∧ is_temp target = false
            ∧ (ObjectOperation.is_none (op_at target p) = true
               ∨ ObjectOperation.is_delete (op_at target p) = true)).
  { intros p. unfold rename_pre.
    rewrite !andb_true_iff, orb_true_iff, negb_true_iff. tauto. }
  split; [|split].
  - rewrite <- Hpre, rename_spec.
    destruct (rename_pre is_temp target source pgt); simpl.
    + destruct (sm_find source _); split; (done || congruence).
    + split; [congruence | done].
  - intros sop Hs Ht Hop Hsrc. apply rename_with_source; [|done]. by apply Hpre.
  - intros X fl Hs Ht. unfold PGTransaction.write.
    rewrite buffer_insert_fresh by (unfold in_u64, u64_max; lia).
    set (pgt1 := PGTransaction.store hobject_lt source _ _).
    assert (source ≠ target) by (intros ->; congruence).
    destruct (rename_with_source target source pgt1
                (ObjectOperation.set_buffer_updates
                   [(0%Z, (4%Z, ObjectOperation.Write X fl))] ObjectOperation.fresh))
      as (pgt2 & Hren & Hnone & Hfind & _).
    + apply Hpre. split; [done|]. split; [done|]. left.
      unfold op_at, pgt1. rewrite store_find_ne by done. simpl.
      by rewrite decide_False.
    + apply store_find_eq.
    + exists pgt1, pgt2. eexists. repeat split; done.
Qed.

(** C7: when [op_map] holds an operation at [source], [rename] replaces the
    whole operation recorded at [target] by a copy of the source's
    operation before it sets [init_type]: nothing recorded at [target]
    survives, a [delete_first] set by [remove(target)] included; when
    [op_map] holds nothing at [source], the members recorded at [target]
    are kept. *)
Theorem rename_overwrites_target target source pgt :
  is_temp source = true → is_temp target = false →
  ObjectOperation.is_none (op_at target pgt) = true
  ∨ ObjectOperation.is_delete (op_at target pgt) = true →
  (∀ sop, find source pgt = Some sop →
     ∃ pgt' op',
       PGTransaction.rename hobject_lt is_temp target source pgt = Ok pgt'
       ∧ find target pgt' = Some op'
       ∧ op' = ObjectOperation.set_init_type (ObjectOperation.Rename source) sop
       ∧ ObjectOperation.delete_first op' = ObjectOperation.delete_first sop)
  ∧ (find source pgt = None →
     ∃ pgt' op',
       PGTransaction.rename hobject_lt is_temp target source pgt = Ok pgt'
       ∧ find target pgt' = Some op'
       ∧ op' = ObjectOperation.set_init_type (ObjectOperation.Rename source)
                 (op_at target pgt)
       ∧ ObjectOperation.delete_first op'
         = ObjectOperation.delete_first (op_at target pgt))
  ∧ (∀ pgt0 pgt1 sop,
       PGTransaction.remove hobject_lt target pgt0 = Ok pgt1 →
       find source pgt1 = Some sop →
       ObjectOperation.delete_first (op_at target pgt1) = true
       ∧ ∃ pgt2 op',
           PGTransaction.rename hobject_lt is_temp target source pgt1 = Ok pgt2
           ∧ find target pgt2 = Some op'
           ∧ ObjectOperation.delete_first op' = ObjectOperation.delete_first sop).
Proof.
  intros Hs Ht Hop.
  assert (Hpre : ∀ p,
            ObjectOperation.is_none (op_at target p) = true
            ∨ ObjectOperation.is_delete (op_at target p) = true →
            rename_pre is_temp target source p = true).
  { intros p Hp. unfold rename_pre. rewrite Hs, Ht. simpl. by apply orb_true_iff. }
  split; [|split].
  - intros sop Hsrc.
    destruct (rename_with_source target source pgt sop) as (pgt' & ? & _ & ? & _);
      [by apply Hpre | done|].
    by exists pgt', (ObjectOperation.set_init_type (ObjectOperation.Rename source) sop).
  - intros Hsrc.
    destruct (rename_without_source target source pgt) as (pgt' & ? & ? & _);
      [by apply Hpre | done|].
    by eexists pgt', _.
  - intros pgt0 pgt1 sop Hrm Hsrc.
    unfold PGTransaction.remove in Hrm. rewrite modify_spec in Hrm.
    destruct (ObjectOperation.is_delete (op_at target pgt0)); [done|]. simpl in Hrm.
    destruct (bool_decide _); [|done]. simpl in Hrm. injection Hrm as <-.
    rewrite op_at_store. split; [done|].
    destruct (rename_with_source target source
                (PGTransaction.store hobject_lt target
                   (ObjectOperation.set_delete_first true ObjectOperation.fresh)
                   (PGTransaction.subscript hobject_lt target (PGTransaction.op_map pgt0)).2)
                sop) as (pgt' & ? & _ & ? & _); [|done|].
    + apply Hpre. rewrite op_at_store. by right.
    + by eexists pgt', _.
Qed.

(** C9 (amended): on an object whose operation [is_delete], every mutation
    that goes through [get_object_op_for_modify] aborts on its assertion,
    while [create] and [clone] onto that object succeed, and so does
    [rename] onto it when its two other assertions hold
    ([source.is_temp()] and [!target.is_temp()]).  Every operation either
    yields the next transaction or aborts. *)
Theorem deleted_rejects_modify hoid pgt :
  ObjectOperation.is_delete (op_at hoid pgt) = true →
  PGTransaction.remove hobject_lt hoid pgt = AssertFail
  ∧ (∀ snaps, PGTransaction.update_snaps hobject_lt hoid snaps pgt = AssertFail)
  ∧ PGTransaction.omap_clear hobject_lt hoid pgt = AssertFail
  ∧ (∀ off, PGTransaction.truncate hobject_lt hoid off pgt = AssertFail)
  ∧ (∀ attrs, PGTransaction.setattrs hobject_lt hoid attrs pgt = AssertFail)
  ∧ (∀ name bl, PGTransaction.setattr hobject_lt hoid name bl pgt = AssertFail)
  ∧ (∀ name, PGTransaction.rmattr hobject_lt hoid name pgt = AssertFail)
  ∧ (∀ osz wsz fl, PGTransaction.set_alloc_hint hobject_lt hoid osz wsz fl pgt = AssertFail)
  ∧ (∀ off len bl fl, PGTransaction.write hobject_lt hoid off len bl fl pgt = AssertFail)
  ∧ (∀ off len, PGTransaction.zero hobject_lt hoid off len pgt = AssertFail)
  ∧ (∀ from fromoff len tooff,
       PGTransaction.clone_range hobject_lt from hoid fromoff len tooff pgt = AssertFail)
  ∧ (∀ bl, PGTransaction.omap_setkeys hobject_lt hoid bl pgt = AssertFail)
  ∧ (∀ keys, PGTransaction.omap_setkeys_map hobject_lt encode_map hoid keys pgt = AssertFail)
  ∧ (∀ bl, PGTransaction.omap_rmkeys hobject_lt hoid bl pgt = AssertFail)
  ∧ (∀ keys, PGTransaction.omap_rmkeys_set hobject_lt encode_set hoid keys pgt = AssertFail)
  ∧ (∀ bl, PGTransaction.omap_setheader hobject_lt hoid bl pgt = AssertFail)
  ∧ PGTransaction.nop hobject_lt hoid pgt = AssertFail
  ∧ (∃ pgt', PGTransaction.create hobject_lt hoid pgt = Ok pgt'
             ∧ ObjectOperation.init_type (op_at hoid pgt') = ObjectOperation.Create)
  ∧ (∀ source, ∃ pgt', PGTransaction.clone hobject_lt hoid source pgt = Ok pgt'
             ∧ ObjectOperation.init_type (op_at hoid pgt') = ObjectOperation.Clone source)
  ∧ (∀ source, is_temp source = true → is_temp hoid = false →
       ∃ pgt', PGTransaction.rename hobject_lt is_temp hoid source pgt = Ok pgt'
             ∧ ObjectOperation.init_type (op_at hoid pgt') = ObjectOperation.Rename source).
Proof.
  intros Hdel.
  unfold PGTransaction.remove, PGTransaction.update_snaps, PGTransaction.omap_clear,
    PGTransaction.truncate, PGTransaction.setattrs, PGTransaction.setattr,
    PGTransaction.rmattr, PGTransaction.set_alloc_hint, PGTransaction.write,
    PGTransaction.zero, PGTransaction.clone_range, PGTransaction.omap_setkeys_map,
    PGTransaction.omap_rmkeys_set, PGTransaction.omap_setkeys, PGTransaction.omap_rmkeys,
    PGTransaction.omap_setheader, PGTransaction.nop, PGTransaction.buffer_insert.
  rewrite modify_spec, Hdel. simpl.
  repeat (split; [done|]).
  split; [|split].
  - rewrite create_spec, Hdel, orb_true_r. eexists. split; [done|]. by rewrite op_at_store.
  - intros source. rewrite clone_spec, Hdel, orb_true_r. eexists. split; [done|].
    by rewrite op_at_store.
  - intros source Hs Ht.
    assert (rename_pre is_temp hoid source pgt = true) as Hpre.
    { unfold rename_pre. by rewrite Hs, Ht, Hdel, orb_true_r. }
    destruct (sm_find source (PGTransaction.op_map pgt)) as [sop|] eqn:Hsrc.
    + destruct (rename_with_source hoid source pgt sop Hpre Hsrc) as (pgt' & ? & _ & Hf & _).
      exists pgt'. split; [done|]. unfold op_at. by rewrite Hf.
    + destruct (rename_without_source hoid source pgt Hpre Hsrc) as (pgt' & ? & Hf & _).
      exists pgt'. split; [done|]. unfold op_at at 1. by rewrite Hf.
Qed.

(** what [truncate] does as coded, on an object whose operation is not
    [is_delete]: the guard returns at once when [op.truncate] is already set
    to a value [>= off]; otherwise, on [buffer_updates] that satisfy I1 to
    I3 within the 64-bit range, no entry that reaches beyond [off] is left,
    and when the operation is not a fresh object [op.truncate] becomes
    [off].  [truncate(O, 100)] followed by [truncate(O, 200)] leaves
    [op.truncate = 200]. *)
Theorem truncate_raises hoid (off : Z) pgt :
  ObjectOperation.is_delete (op_at hoid pgt) = false → in_u64 off →
  (∀ cur, ObjectOperation.truncate (op_at hoid pgt) = Some cur → (off ≤ cur)%Z →
     ∃ pgt', PGTransaction.truncate hobject_lt hoid off pgt = Ok pgt'
       ∧ find hoid pgt' = Some (op_at hoid pgt)
       ∧ ∀ h, h ≠ hoid → find h pgt' = find h pgt)
  ∧ ((∀ cur, ObjectOperation.truncate (op_at hoid pgt) = Some cur → (cur < off)%Z) →
     interval_map_spec.I1 (ObjectOperation.buffer_updates (op_at hoid pgt)) →
     interval_map_spec.I2 (ObjectOperation.buffer_updates (op_at hoid pgt)) →
     interval_map_spec.I3 (ObjectOperation.buffer_updates (op_at hoid pgt)) →
     interval_map_spec.in_range (ObjectOperation.buffer_updates (op_at hoid pgt)) →
     ∃ pgt' op',
       PGTransaction.truncate hobject_lt hoid off pgt = Ok pgt'
       ∧ find hoid pgt' = Some op'
       ∧ (∀ x, x ∈ ObjectOperation.buffer_updates op' → (x.1 + x.2.1 ≤ off)%Z)
       ∧ (ObjectOperation.is_fresh_object (op_at hoid pgt) = false →
          ObjectOperation.truncate op' = Some off)
       ∧ (ObjectOperation.is_fresh_object (op_at hoid pgt) = true →
          ObjectOperation.truncate op' = ObjectOperation.truncate (op_at hoid pgt))
       ∧ ∀ h, h ≠ hoid → find h pgt' = find h pgt)
  ∧ ∃ pgt1 pgt2 op2,
      PGTransaction.truncate hobject_lt hoid 100 (PGTransaction.mk []) = Ok pgt1
      ∧ PGTransaction.truncate hobject_lt hoid 200 pgt1 = Ok pgt2
      ∧ find hoid pgt2 = Some op2
      ∧ ObjectOperation.truncate op2 = Some 200%Z.
Proof.
  intros Hdel Hoff. split; [|split].
  - intros cur Hcur Hle. unfold PGTransaction.truncate.
    rewrite modify_spec, Hdel. simpl. rewrite Hcur.
    destruct (Z.leb_spec off cur); [|lia].
    eexists. split; [done|]. split.
    + unfold find. simpl. apply subscript_find_eq.
    + intros h Hne. unfold find. simpl. by apply subscript_find_ne.
  - intros Hcur H1 H2 H3 H4. unfold PGTransaction.truncate.
    rewrite modify_spec, Hdel. simpl.
    set (op := op_at hoid pgt) in *.
    assert ((match ObjectOperation.truncate op with
             | Some cur => (off <=? cur)%Z | None => false end) = false) as ->.
    { destruct (ObjectOperation.truncate op) as [cur|]; [|done].
      specialize (Hcur cur eq_refl). destruct (Z.leb_spec off cur); [lia | done]. }
    pose proof (interval_map_facts.invariants_ok _ H1 H2 H3 H4) as Hok.
    destruct Hoff as [Hoff0 Hoff1].
    destruct (interval_map_facts.erase_ok ObjectOperation.Splitter 0
                (ObjectOperation.buffer_updates op) off (u64_sub u64_max off))
      as (bu & -> & Hbu & Hcut);
      try (done || lia);
      try (unfold in_u64; rewrite u64_sub_small; lia).
    rewrite u64_sub_small in Hcut by lia.
    eexists _, _. split; [done|]. split; [apply store_find_eq|].
    split; [|split; [|split]].
    + intros x Hx.
      assert (Hx' : x ∈ bu).
      { by destruct (ObjectOperation.is_fresh_object _). }
      pose proof (interval_map_facts.ok_elem _ _ _ Hbu Hx') as Hrange.
      destruct (decide (off = u64_max)) as [-> | Hne]; [lia|].
      rewrite Hcut in Hx' by lia.
      apply (interval_map_facts.cut_gap _ 0) in Hx'; [lia | done | lia].
    + intros Hfresh. unfold ObjectOperation.is_fresh_object in *. simpl.
      by destruct (ObjectOperation.init_type op).
    + intros Hfresh. unfold ObjectOperation.is_fresh_object in *. simpl.
      by destruct (ObjectOperation.init_type op).
    + intros h Hne. rewrite store_find_ne by done. by apply subscript_find_ne.
  - unfold PGTransaction.truncate. rewrite !modify_spec. simpl.
    eexists _, _, _. split; [reflexivity|].
    rewrite modify_spec, op_at_store. simpl.
    split; [reflexivity|]. split; [apply store_find_eq | done].
Qed.

(** *** The keys of [op_map] stay in order *)

Hypothesis hobject_order : strict_total hobject_lt.

Lemma subscript_sorted hoid m :
  sm_sorted hobject_lt m →
  sm_sorted hobject_lt (PGTransaction.subscript hobject_lt hoid m).2.
Proof.
  intros Hs. unfold PGTransaction.subscript. destruct (sm_find hoid m); simpl; [done|].
  by apply sm_insert_sorted.
Qed.

Lemma store_wf hoid op m :
  sm_sorted hobject_lt m → wf hobject_lt (PGTransaction.store hobject_lt hoid op m).
Proof. intros Hs. by apply sm_set_sorted. Qed.

Lemma modify_wf hoid pgt op m :
  wf hobject_lt pgt →
  PGTransaction.get_object_op_for_modify hobject_lt hoid pgt = Ok (op, m) →
  sm_sorted hobject_lt m.
Proof.
  intros Hwf. rewrite modify_spec. destruct (ObjectOperation.is_delete _); [done|].
  intros [= _ <-]. by apply subscript_sorted.
Qed.

Ltac modify_case Hwf :=
  match goal with
  | |- context [PGTransaction.get_object_op_for_modify hobject_lt ?hoid ?pgt] =>
      let Hm := fresh "Hm" in
      pose proof (modify_wf hoid pgt) as Hm;
      destruct (PGTransaction.get_object_op_for_modify hobject_lt hoid pgt)
        as [[? ?]| |]; simpl; try done;
      specialize (Hm _ _ Hwf eq_refl)
  end.

(** every mutation keeps the keys of [op_map] in strictly ascending order *)
Lemma mutate_wf c pgt pgt' :
  wf hobject_lt pgt →
  mutate hobject_lt is_temp encode_map encode_set c pgt = Ok pgt' →
  wf hobject_lt pgt'.
Proof.
  intros Hwf.
  pose proof (subscript_sorted) as Hsub.
  destruct c; simpl;
    unfold PGTransaction.write, PGTransaction.clone_range, PGTransaction.zero,
      PGTransaction.omap_setkeys_map, PGTransaction.omap_rmkeys_set;
    unfold PGTransaction.remove, PGTransaction.update_snaps, PGTransaction.omap_clear,
      PGTransaction.truncate, PGTransaction.setattrs, PGTransaction.setattr,
      PGTransaction.rmattr, PGTransaction.set_alloc_hint, PGTransaction.buffer_insert,
      PGTransaction.omap_setkeys, PGTransaction.omap_rmkeys,
      PGTransaction.omap_setheader, PGTransaction.nop;
    try (modify_case Hwf;
         repeat match goal with
                | |- context [if ?b then _ else _] => destruct b
                | |- context [match ?o with Some _ => _ | None => _ end] => destruct o
                | |- context [assert ?b] => destruct b; simpl
                end;
         simpl; try done; intros [= <-]; (done || by apply store_wf)).
  - rewrite create_spec. destruct (_ || _); [|done]. intros [= <-].
    by apply store_wf, Hsub.
  - rewrite clone_spec. destruct (_ || _); [|done]. intros [= <-].
    by apply store_wf, Hsub.
  - rewrite rename_spec. destruct (rename_pre _ _ _ _); [|done]. simpl.
    destruct (sm_find source _); intros [= <-]; apply store_wf.
    + by apply sm_erase_sorted, sm_set_sorted, Hsub.
    + by apply Hsub.
Qed.

Lemma mutate_all_wf cs pgt pgt' :
  wf hobject_lt pgt →
  mutate_all hobject_lt is_temp encode_map encode_set cs pgt = Ok pgt' →
  wf hobject_lt pgt'.
Proof.
  revert pgt. induction cs as [|c cs IH]; intros pgt Hwf; simpl.
  - by intros [= <-].
  - destruct (mutate _ _ _ _ c pgt) as [pgt1| |] eqn:Hc; simpl; try done.
    apply IH. by eapply mutate_wf.
Qed.

(** a transaction built from the empty one has distinct keys *)
Lemma built_nodup cs pgt :
  mutate_all hobject_lt is_temp encode_map encode_set cs (PGTransaction.mk []) = Ok pgt →
  NoDup (PGTransaction.op_map pgt).*1.
Proof.
  intros Hrun. apply (sm_sorted_nodup hobject_lt hobject_order).
  eapply mutate_all_wf; [|exact Hrun]. constructor.
Qed.
End Facts.

(** ** PGTransaction: safe_create_traverse *)

Section Traverse.
Context {hobject_t : Type} `{EqDecision hobject_t}.
Variable hobject_lt : hobject_t → hobject_t → bool.
Abbreviation op_t := (ObjectOperation.t hobject_t).
Implicit Types (h s cur : hobject_t) (op : op_t) (ops pre : list (hobject_t * op_t))
  (dgraph : list (hobject_t * list hobject_t)) (stack l : list hobject_t)
  (visited : list (hobject_t * op_t)).

Lemma source_of_elem ops h op :
  NoDup ops.*1 → (h, op) ∈ ops → source_of ops h = ObjectOperation.has_source op.
Proof. intros Hnd Hin. unfold source_of. by rewrite (sm_find_elem h op ops Hnd Hin). Qed.

Lemma source_of_key ops h s : source_of ops h = Some s → h ∈ ops.*1.
Proof.
  unfold source_of. destruct (sm_find h ops) as [op|] eqn:Hf; [|done].
  intros _. apply sm_find_is_Some. by rewrite Hf.
Qed.

Lemma edge_source_of ops s h :
  NoDup ops.*1 → edge ops s h ↔ source_of ops h = Some s.
Proof.
  intros Hnd. split.
  - intros (op & Hin & Hs). by rewrite (source_of_elem ops h op).
  - unfold source_of. destruct (sm_find h ops) as [op|] eqn:Hf; [|done].
    simpl. intros Hs. exists op. split; [by apply sm_find_Some_elem | done].
Qed.

Lemma sm_count_elem ops s : sm_count s ops = true ↔ s ∈ ops.*1.
Proof.
  rewrite <- sm_find_is_Some. unfold sm_count.
  destruct (sm_find s ops); split; (done || by intros [? ?]).
Qed.

(** *** The first loop *)

Lemma populated_nil ops : populated ops [] [] [].
Proof.
  split; try done.
  - intros h Hh. by apply elem_of_nil in Hh.
  - intros x Hx. by apply elem_of_nil in Hx.
  - constructor.
  - intros s [? ?]. done.
Qed.

Lemma populated_step ops pre h op rest dgraph stack :
  NoDup ops.*1 → ops = pre ++ (h, op) :: rest →
  populated ops pre dgraph stack →
  populated ops (pre ++ [(h, op)])
    (PGTransaction.populate_step hobject_lt ops (dgraph, stack) (h, op)).1
    (PGTransaction.populate_step hobject_lt ops (dgraph, stack) (h, op)).2.
Proof.
  intros Hnd Hops [Hch Hpl Hroots Hsn Hkeys].
  assert (Hin : (h, op) ∈ ops).
  { rewrite Hops. apply elem_of_app. right. left. }
  assert (Hfresh : h ∉ pre.*1).
  { rewrite Hops, fmap_app, fmap_cons in Hnd. apply NoDup_app in Hnd as (_ & Hd & _).
    intros Hh. apply (Hd h Hh). left. }
  assert (Hkey : h ∈ ops.*1).
  { apply list_elem_of_fmap. by exists (h, op). }
  pose proof (source_of_elem ops h op Hnd Hin) as Hsrc.
  assert (Hpre : ∀ x, x ∈ (pre ++ [(h, op)]).*1 ↔ x ∈ pre.*1 ∨ x = h).
  { intros x. rewrite fmap_app, elem_of_app. simpl. by rewrite list_elem_of_singleton. }
  assert (Hprekey : ∀ x, x ∈ pre.*1 → x ∈ ops.*1).
  { intros x Hx. rewrite Hops, fmap_app. apply elem_of_app. by left. }
  unfold PGTransaction.populate_step. simpl.
  destruct (ObjectOperation.has_source op) as [s|] eqn:Hhas; simpl.
  - (* the entry has a source *)
    set (l := default [] (sm_find s dgraph)).
    assert (Hl : l = [] ∨ sm_find s dgraph = Some l).
    { unfold l. destruct (sm_find s dgraph); simpl; auto. }
    assert (Hlch : NoDup l ∧ ∀ x, x ∈ l → x ∈ pre.*1 ∧ source_of ops x = Some s).
    { destruct Hl as [-> | Hl].
      - split; [constructor|]. intros x Hx. by apply elem_of_nil in Hx.
      - by apply Hch in Hl as (_ & ? & ?). }
    assert (Hfind : ∀ x, sm_find x (sm_set hobject_lt s (l ++ [h]) dgraph)
                        = if decide (x = s) then Some (l ++ [h]) else sm_find x dgraph).
    { intros x. case_decide; [subst; apply sm_find_set_eq | by apply sm_find_set_ne]. }
    set (stack' := if bool_decide (l = []) && negb (sm_count s ops)
                   then stack ++ [s] else stack).
    assert (Hsub : ∀ x, x ∈ stack → x ∈ stack').
    { intros x Hx. unfold stack'. destruct (_ && _); [|done].
      apply elem_of_app. by left. }
    split.
    + intros s' l'. rewrite Hfind. case_decide; [subst s'|].
      * intros [= <-]. split; [by destruct l|]. split.
        -- apply NoDup_app. split; [apply Hlch|]. split; [|apply NoDup_singleton].
           intros x Hx ->%list_elem_of_singleton. by apply Hlch in Hx as [? _].
        -- intros x [Hx | ->%list_elem_of_singleton]%elem_of_app.
           ++ apply Hlch in Hx as [? ?]. split; [apply Hpre; by left | done].
           ++ split; [apply Hpre; by right | by rewrite Hsrc].
      * intros Hs'. apply Hch in Hs' as (? & ? & Hx). split; [done|]. split; [done|].
        intros x Hxl. apply Hx in Hxl as [? ?]. split; [apply Hpre; by left | done].
    + intros x [Hx | ->]%Hpre.
      * specialize (Hpl x Hx). destruct (source_of ops x) as [sx|]; [|by apply Hsub].
        destruct Hpl as (lx & Hlx & Hxin). rewrite Hfind. case_decide; [subst sx|eauto].
        exists (l ++ [h]). split; [done|]. apply elem_of_app. left.
        unfold l. by rewrite Hlx.
      * rewrite Hsrc. exists (l ++ [h]). rewrite Hfind, decide_True by done.
        split; [done|]. apply elem_of_app. right. left.
    + intros x Hx. unfold stack' in Hx.
      assert (x ∈ stack ∨ (x = s ∧ s ∉ ops.*1)) as [Hold | [-> Hnot]].
      { destruct (bool_decide (l = [])); simpl in Hx; [|by left].
        destruct (sm_count s ops) eqn:Hc; simpl in Hx; [by left|].
        apply elem_of_app in Hx as [? | ->%list_elem_of_singleton]; [by left|].
        right. split; [done|]. rewrite <- sm_count_elem. by rewrite Hc. }
      * apply Hroots in Hold as [[? ?] | [? ?]].
        -- left. split; [apply Hpre; by left | done].
        -- right. split; [done|]. rewrite Hfind. by case_decide.
      * right. split; [done|]. by rewrite Hfind, decide_True.
    + unfold stack'. destruct (bool_decide_reflect (l = [])) as [Hnil|]; simpl; [|done].
      destruct (sm_count s ops) eqn:Hc; simpl; [done|].
      apply NoDup_app. split; [done|]. split; [|apply NoDup_singleton].
      intros x Hx ->%list_elem_of_singleton.
      apply Hroots in Hx as [[Hx _] | [_ [l0 Hl0]]].
      * apply Hprekey, sm_count_elem in Hx. congruence.
      * pose proof (Hch _ _ Hl0) as (Hne & _). unfold l in Hnil. rewrite Hl0 in Hnil. done.
    + intros x. rewrite Hfind. case_decide; [subst x|].
      * intros _. destruct (sm_count s ops) eqn:Hc; [left; by apply sm_count_elem|].
        right. unfold stack'. simpl.
        destruct (bool_decide_reflect (l = [])) as [Hnil | Hnn]; simpl.
        -- apply elem_of_app. right. left.
        -- destruct Hl as [? | Hl]; [done|].
           destruct (Hkeys s) as [Hk | Hk]; [by rewrite Hl | | done].
           apply sm_count_elem in Hk. congruence.
      * intros Hx. destruct (Hkeys x Hx); [by left | right; by apply Hsub].
  - (* the entry has no source *)
    split.
    + intros s l Hs. apply Hch in Hs as (? & ? & Hx). split; [done|]. split; [done|].
      intros x Hxl. apply Hx in Hxl as [? ?]. split; [apply Hpre; by left | done].
    + intros x [Hx | ->]%Hpre.
      * specialize (Hpl x Hx). destruct (source_of ops x); [done|].
        apply elem_of_app. by left.
      * rewrite Hsrc. apply elem_of_app. right. left.
    + intros x [Hx | ->%list_elem_of_singleton]%elem_of_app.
      * apply Hroots in Hx as [[? ?] | ?]; [left | by right].
        split; [apply Hpre; by left | done].
      * left. split; [apply Hpre; by right | done].
    + apply NoDup_app. split; [done|]. split; [|apply NoDup_singleton].
      intros x Hx ->%list_elem_of_singleton.
      apply Hroots in Hx as [[? _] | [? _]]; done.
    + intros s Hs. destruct (Hkeys s Hs); [by left | right].
      apply elem_of_app. by left.
Qed.

Lemma populated_fold ops rest pre dgraph stack :
  NoDup ops.*1 → ops = pre ++ rest → populated ops pre dgraph stack →
  populated ops ops
    (fold_left (PGTransaction.populate_step hobject_lt ops) rest (dgraph, stack)).1
    (fold_left (PGTransaction.populate_step hobject_lt ops) rest (dgraph, stack)).2.
Proof.
  intros Hnd. revert pre dgraph stack.
  induction rest as [|[h op] rest IH]; intros pre dgraph stack Hops Hpop;
    cbn [fold_left].
  - by rewrite Hops, app_nil_r in *.
  - pose proof (populated_step ops pre h op rest dgraph stack Hnd Hops Hpop) as Hstep.
    destruct (PGTransaction.populate_step hobject_lt ops (dgraph, stack) (h, op))
      as [dgraph' stack'].
    apply (IH (pre ++ [(h, op)])); [|done].
    by rewrite <- app_assoc.
Qed.

Lemma populated_all ops :
  NoDup ops.*1 →
  populated ops ops (PGTransaction.populate hobject_lt ops).1
    (PGTransaction.populate hobject_lt ops).2.
Proof.
  intros Hnd. apply (populated_fold ops ops []); [done..|]. apply populated_nil.
Qed.

(** *** The second loop *)

Lemma traversing_start ops dgraph stack :
  populated ops ops dgraph stack → traversing ops dgraph stack [].
Proof.
  intros [Hch Hpl Hroots Hsn Hkeys]. split.
  - intros s l Hs. apply Hch in Hs as (? & ? & Hx).
    split; [done|]. split; [done|]. intros h Hh. by apply Hx.
  - intros h Hh. specialize (Hpl h Hh).
    destruct (source_of ops h) as [s|]; [|by right; left].
    destruct Hpl as (l & ? & ?). right. right. by exists s, l.
  - done.
  - constructor.
  - intros h Hh. by apply elem_of_nil in Hh.
  - intros h (s & l & Hs & Hh). split; [|apply not_elem_of_nil].
    apply Hch in Hs as (_ & _ & Hx). apply Hx in Hh as [Hk Hsrc].
    intros [[_ Hn] | [Hn _]]%Hroots; [congruence | done].
  - intros h op Hin. by apply elem_of_nil in Hin.
  - intros s Hs. destruct (Hkeys s Hs) as [Hk | ?]; [|by left].
    specialize (Hpl s Hk). destruct (source_of ops s) as [p|]; [|by left].
    destruct Hpl as (l & ? & ?). right. by exists p, l.
  - intros h s _ Hs. by apply elem_of_nil in Hs.
  - intros h s Hsrc. left. pose proof (source_of_key ops h s Hsrc) as Hk.
    specialize (Hpl h Hk). by rewrite Hsrc in Hpl.
Qed.

(** a leaf: [cur] has no [dgraph] entry, is popped, and is visited when
    [op_map] holds it *)
Lemma traversing_leaf ops dgraph cur stack visited :
  traversing ops dgraph (cur :: stack) visited →
  sm_find cur dgraph = None →
  traversing ops dgraph stack
    match sm_find cur ops with
    | Some op => visited ++ [(cur, op)]
    | None => visited
    end.
Proof.
  intros [Hch Hall Hsn Hvn Hvp Hpf Hvo Hkeys Hord Hedge] Hleaf.
  apply NoDup_cons in Hsn as [Hcur Hsn].
  assert (Hcv : cur ∉ visited.*1).
  { intros Hc. apply (Hvp cur Hc). left. }
  set (visited' := match sm_find cur ops with
                   | Some op => visited ++ [(cur, op)] | None => visited end).
  assert (Hv' : ∀ x, x ∈ visited'.*1 ↔ x ∈ visited.*1 ∨ (x = cur ∧ cur ∈ ops.*1)).
  { intros x. unfold visited'. rewrite <- (sm_find_is_Some cur ops).
    destruct (sm_find cur ops) as [op|].
    - rewrite fmap_app, elem_of_app. simpl. rewrite list_elem_of_singleton.
      split; [intros [?|?]; [by left | right; by eauto] | intros [?|[? _]]; by auto].
    - split; [by left | intros [?|[_ [? ?]]]; done]. }
  assert (Hpre : ∀ (i : nat) x, visited.*1 !! i = Some x → visited'.*1 !! i = Some x).
  { intros i x Hi. unfold visited'. destruct (sm_find cur ops); [|done].
    rewrite fmap_app. by apply lookup_app_l_Some. }
  split.
  - done.
  - intros h Hh. destruct (Hall h Hh) as [? | [[-> | ?]%elem_of_cons | ?]].
    + left. apply Hv'. by left.
    + left. apply Hv'. by right.
    + right. by left.
    + right. by right.
  - done.
  - unfold visited'. destruct (sm_find cur ops) as [op|]; [|done].
    rewrite fmap_app. apply NoDup_app. split; [done|]. split; [|apply NoDup_singleton].
    intros x Hx ->%list_elem_of_singleton. done.
  - intros h [Hh | [-> _]]%Hv'; [|done].
    intros Hs. apply (Hvp h Hh). by right.
  - intros h Hp. destruct (Hpf h Hp) as [Hs Hv]. split.
    + intros ?. apply Hs. by right.
    + intros [? | [-> _]]%Hv'; [done|]. apply Hs. left.
  - intros h op. unfold visited'. destruct (sm_find cur ops) as [op'|] eqn:Hf; [|apply Hvo].
    intros [? | [= -> ->]%list_elem_of_singleton]%elem_of_app; [by apply Hvo | done].
  - intros s Hs. destruct (Hkeys s Hs) as [[-> | ?]%elem_of_cons | ?].
    + rewrite Hleaf in Hs. by destruct Hs.
    + by left.
    + by right.
  - intros h s Hsrc [Hs | [-> Hk]]%Hv'.
    + destruct (Hord h s Hsrc Hs) as (i & j & ? & ? & ?).
      exists i, j. split; [done|]. split; by apply Hpre.
    + (* [cur] is visited now: its targets have been visited already *)
      destruct (Hedge h cur Hsrc) as [(l & Hl & _) | [Hh | (l1 & l2 & Hst & Hh1 & Hc2)]].
      * congruence.
      * apply list_elem_of_lookup in Hh as [i Hi].
        exists i, (length visited.*1). split; [by apply lookup_lt_Some in Hi|].
        split; [by apply Hpre|].
        unfold visited'. apply sm_find_is_Some in Hk as [op Hop]. rewrite Hop.
        rewrite fmap_app. simpl. by rewrite list_lookup_middle.
      * exfalso. destruct l1 as [|x l1]; [by apply elem_of_nil in Hh1|].
        simpl in Hst. injection Hst as <- ->. apply Hcur.
        apply elem_of_app. by right.
  - intros h s Hsrc.
    destruct (Hedge h s Hsrc) as [? | [Hh | (l1 & l2 & Hst & Hh1 & Hs2)]].
    + by left.
    + right. left. apply Hv'. by left.
    + destruct l1 as [|x l1]; [by apply elem_of_nil in Hh1|].
      simpl in Hst. injection Hst as <- ->.
      apply elem_of_cons in Hh1 as [-> | Hh1].
      * right. left. apply Hv'. right. split; [done|]. by eapply source_of_key.
      * right. right. by exists l1, l2.
Qed.

(** an internal node: the children of [cur] go to the front of the stack
    and its [dgraph] entry is erased *)
Lemma traversing_expand ops dgraph cur stack visited children :
  traversing ops dgraph (cur :: stack) visited →
  sm_find cur dgraph = Some children →
  traversing ops (sm_erase cur dgraph) (children ++ cur :: stack) visited.
Proof.
  intros [Hch Hall Hsn Hvn Hvp Hpf Hvo Hkeys Hord Hedge] Hcur.
  destruct (Hch cur children Hcur) as (Hne & Hcn & Hcs).
  assert (Hfind : ∀ s, sm_find s (sm_erase cur dgraph)
                       = if decide (s = cur) then None else sm_find s dgraph).
  { intros s. case_decide; [subst; apply sm_find_erase_eq | by apply sm_find_erase_ne]. }
  assert (Hpend : ∀ h, pending dgraph h → h ∈ children ∨ pending (sm_erase cur dgraph) h).
  { intros h (s & l & Hs & Hh). destruct (decide (s = cur)) as [-> | Hn].
    - left. congruence.
    - right. exists s, l. by rewrite Hfind, decide_False. }
  assert (Hpend' : ∀ h, pending (sm_erase cur dgraph) h → pending dgraph h ∧ h ∉ children).
  { intros h (s & l & Hs & Hh). rewrite Hfind in Hs. case_decide; [done|].
    split; [by exists s, l|]. intros Hc.
    apply Hcs in Hc. apply (Hch s l Hs) in Hh. congruence. }
  assert (Hcp : ∀ h, h ∈ children → pending dgraph h).
  { intros h Hh. by exists cur, children. }
  split.
  - intros s l. rewrite Hfind. case_decide; [done | apply Hch].
  - intros h Hh. destruct (Hall h Hh) as [? | [? | Hp]]; [by left | |].
    + right. left. apply elem_of_app. by right.
    + destruct (Hpend h Hp); [right; left; apply elem_of_app; by left | by right; right].
  - apply NoDup_app. split; [done|]. split; [|done].
    intros h Hh. by apply Hcp, Hpf in Hh as [? _].
  - done.
  - intros h Hh [Hc | Hs]%elem_of_app; [|by apply (Hvp h)].
    by apply Hcp, Hpf in Hc as [_ ?].
  - intros h [Hp Hc]%Hpend'. destruct (Hpf h Hp) as [? ?]. split; [|done].
    intros [? | ?]%elem_of_app; done.
  - done.
  - intros s. rewrite Hfind. case_decide; [by intros [? ?]|]. intros Hs.
    destruct (Hkeys s Hs) as [? | Hp].
    + left. apply elem_of_app. by right.
    + destruct (Hpend s Hp); [left; apply elem_of_app; by left | by right].
  - done.
  - intros h s Hsrc. destruct (Hedge h s Hsrc) as [(l & Hl & Hh) | [? | (l1 & l2 & -> & ? & ?)]].
    + destruct (decide (s = cur)) as [-> | Hn].
      * right. right. exists children, (cur :: stack).
        split; [done|]. split; [congruence | left].
      * left. exists l. by rewrite Hfind, decide_False.
    + right. by left.
    + right. right. exists (children ++ l1), l2. rewrite <- app_assoc.
      split; [by f_equal|]. split; [apply elem_of_app; by right | done].
Qed.

(** *** Termination *)

Lemma sm_erase_size (dgraph : list (hobject_t * list hobject_t)) cur :
  length (sm_erase cur dgraph) + length (concat (sm_erase cur dgraph).*2)
  ≤ length dgraph + length (concat dgraph.*2).
Proof.
  induction dgraph as [|[k l] dgraph IH]; csimpl; [done|].
  case_decide; csimpl; rewrite ?length_app; lia.
Qed.

Lemma sm_erase_found_size (dgraph : list (hobject_t * list hobject_t)) cur children :
  sm_find cur dgraph = Some children →
  length (sm_erase cur dgraph) + length (concat (sm_erase cur dgraph).*2)
    + length children + 1
  ≤ length dgraph + length (concat dgraph.*2).
Proof.
  induction dgraph as [|[k l] dgraph IH]; csimpl; [done|].
  case_decide; csimpl; rewrite ?length_app.
  - intros [= ->]. pose proof (sm_erase_size dgraph cur). lia.
  - intros Hf. specialize (IH Hf). lia.
Qed.

(** the loop ends within [traverse_fuel] iterations, whatever the graph *)
Lemma traverse_loop_total fuel ops dgraph stack visited :
  PGTransaction.traverse_fuel dgraph stack ≤ fuel →
  is_Some (PGTransaction.traverse_loop fuel ops dgraph stack visited).
Proof.
  revert dgraph stack visited.
  induction fuel as [|fuel IH]; intros dgraph stack visited Hfuel.
  - destruct stack as [|cur stack]; [by eexists|].
    unfold PGTransaction.traverse_fuel in Hfuel. simpl in Hfuel. lia.
  - destruct stack as [|cur stack]; [by eexists|]. simpl.
    unfold PGTransaction.traverse_fuel in *. simpl in Hfuel.
    destruct (sm_find cur dgraph) as [children|] eqn:Hcur.
    + destruct children as [|c children]; [by eexists|].
      apply IH. pose proof (sm_erase_found_size dgraph cur _ Hcur).
      rewrite length_app. simpl in *. lia.
    + apply IH. lia.
Qed.

(** while the invariant holds the assertion passes, and the loop ends with
    an empty stack and the invariant *)
Lemma traverse_loop_traversing fuel ops dgraph stack visited r :
  traversing ops dgraph stack visited →
  PGTransaction.traverse_loop fuel ops dgraph stack visited = Some r →
  ∃ dgraph' visited', r = Ok visited' ∧ traversing ops dgraph' [] visited'.
Proof.
  revert dgraph stack visited.
  induction fuel as [|fuel IH]; intros dgraph stack visited Hinv;
    destruct stack as [|cur stack]; simpl; try done.
  - intros [= <-]. by exists dgraph, visited.
  - intros [= <-]. by exists dgraph, visited.
  - destruct (sm_find cur dgraph) as [children|] eqn:Hcur.
    + pose proof (traversing_expand _ _ _ _ _ _ Hinv Hcur) as Hnext.
      destruct children as [|c children].
      * by destruct (tr_children _ _ _ _ Hinv cur [] Hcur) as [? _].
      * by apply IH.
    + apply IH. by apply traversing_leaf.
Qed.

(** *** Acyclic graphs *)

Lemma closed_under_sources_nil {A : Type} (R : relation A) (keys : list A) :
  (∀ x, ¬ tc R x x) →
  (∀ x, x ∈ keys → ∃ p, p ∈ keys ∧ tc R p x) →
  keys = [].
Proof.
  intros Hirr. induction keys as [|a keys IH]; [done|]. intros Hcl. exfalso.
  assert (keys = []) as ->.
  { apply IH. intros x Hx.
    destruct (Hcl x ltac:(by right)) as (p & [-> | Hp]%elem_of_cons & Hpx); [|by eauto].
    destruct (Hcl a ltac:(by left)) as (q & [-> | Hq]%elem_of_cons & Hqa).
    - by apply Hirr in Hqa.
    - exists q. split; [done|]. by eapply tc_trans. }
  destruct (Hcl a ltac:(by left)) as (p & [-> | Hp]%elem_of_cons & Hpa).
  - by apply Hirr in Hpa.
  - by apply elem_of_nil in Hp.
Qed.

Lemma traversing_end_empty ops dgraph visited :
  NoDup ops.*1 → acyclic ops → traversing ops dgraph [] visited →
  ∀ s, sm_find s dgraph = None.
Proof.
  intros Hnd Hacyc Hinv.
  assert (dgraph.*1 = []) as Hkeys.
  { apply (closed_under_sources_nil (edge ops)); [done|].
    intros x Hx. apply sm_find_is_Some in Hx.
    destruct (tr_keys _ _ _ _ Hinv x Hx) as [Hs | (p & l & Hp & Hxl)].
    { by apply elem_of_nil in Hs. }
    exists p. split; [apply sm_find_is_Some; by rewrite Hp|].
    apply tc_once, edge_source_of; [done|].
    by apply (tr_children _ _ _ _ Hinv p l Hp). }
  intros s. apply sm_find_None. rewrite Hkeys. apply not_elem_of_nil.
Qed.

Lemma acyclic_by_rank ops (rank : hobject_t → nat) :
  (∀ s h, edge ops s h → rank s < rank h) → acyclic ops.
Proof.
  intros Hrank h Hcyc.
  assert (∀ a b, tc (edge ops) a b → rank a < rank b) as Hlt.
  { induction 1 as [a b Hab | a b c Hab _ IH]; [by apply Hrank|].
    apply Hrank in Hab. lia. }
  apply Hlt in Hcyc. lia.
Qed.

(** C1: when the keys of [op_map] are distinct (it is a [std::map]) and the
    clone/rename edges form no cycle, [safe_create_traverse] ends and calls
    the visitor exactly once on every pair of [op_map] and on nothing else;
    an operation cloned or renamed from a source that [op_map] holds is
    visited strictly before that source; an object that is not in [op_map]
    is never passed to the visitor. *)
Theorem safe_create_traverse_order (pgt : PGTransaction.t hobject_t) :
  NoDup (PGTransaction.op_map pgt).*1 →
  acyclic (PGTransaction.op_map pgt) →
  ∃ visited,
    PGTransaction.safe_create_traverse hobject_lt pgt = Some (Ok visited)
    ∧ visited ≡ₚ PGTransaction.op_map pgt
    ∧ (∀ p, p ∈ PGTransaction.op_map pgt →
         ∃ i : nat, visited !! i = Some p ∧ ∀ j : nat, visited !! j = Some p → j = i)
    ∧ (∀ target op source,
         (target, op) ∈ PGTransaction.op_map pgt →
         ObjectOperation.has_source op = Some source →
         source ∈ (PGTransaction.op_map pgt).*1 →
         visited_before target source visited)
    ∧ (∀ h, h ∉ (PGTransaction.op_map pgt).*1 → h ∉ visited.*1).
Proof.
  destruct pgt as [ops]. simpl. intros Hnd Hacyc.
  unfold PGTransaction.safe_create_traverse. simpl.
  pose proof (populated_all ops Hnd) as Hpop.
  destruct (PGTransaction.populate hobject_lt ops) as [dgraph stack]. simpl in Hpop.
  apply traversing_start in Hpop.
  destruct (traverse_loop_total (PGTransaction.traverse_fuel dgraph stack)
              ops dgraph stack []) as [r Hr]; [done|].
  destruct (traverse_loop_traversing _ _ _ _ _ _ Hpop Hr) as (dgraph' & visited & -> & Hinv).
  pose proof (traversing_end_empty ops dgraph' visited Hnd Hacyc Hinv) as Hempty.
  assert (Hkey : ∀ h, h ∈ ops.*1 → h ∈ visited.*1).
  { intros h Hh. destruct (tr_all _ _ _ _ Hinv h Hh) as [? | [Hs | (s & l & Hs & _)]].
    - done.
    - by apply elem_of_nil in Hs.
    - by rewrite Hempty in Hs. }
  assert (Hmem : ∀ p, p ∈ visited ↔ p ∈ ops).
  { intros [h op]. split.
    - intros Hin. by apply sm_find_Some_elem, (tr_visited_ops _ _ _ _ Hinv).
    - intros Hin.
      assert (h ∈ visited.*1) as Hv.
      { apply Hkey, list_elem_of_fmap. by exists (h, op). }
      apply list_elem_of_fmap in Hv as ([h' op'] & Heq & Hv). simpl in Heq. subst h'.
      pose proof (tr_visited_ops _ _ _ _ Hinv h op' Hv) as Hf.
      rewrite (sm_find_elem h op ops Hnd Hin) in Hf. by injection Hf as ->. }
  assert (Hvn : NoDup visited).
  { eapply NoDup_fmap_1, (tr_visited_nodup _ _ _ _ Hinv). }
  exists visited. split; [exact Hr|]. split; [|split; [|split]].
  - apply NoDup_Permutation; [done | by eapply NoDup_fmap_1 | done].
  - intros p Hp. apply Hmem, list_elem_of_lookup in Hp as [i Hi].
    exists i. split; [done|]. intros j Hj. by eapply NoDup_lookup.
  - intros target op source Hin Hsrc Hk.
    apply (tr_order _ _ _ _ Hinv); [|by apply Hkey].
    by rewrite (source_of_elem ops target op).
  - intros h Hn Hv. apply Hn.
    apply list_elem_of_fmap in Hv as ([h' op'] & -> & Hv).
    apply Hmem in Hv. apply list_elem_of_fmap. by exists (h', op').
Qed.

(** the loop ends on every [op_map], cyclic or not *)
Lemma safe_create_traverse_total (pgt : PGTransaction.t hobject_t) :
  is_Some (PGTransaction.safe_create_traverse hobject_lt pgt).
Proof.
  unfold PGTransaction.safe_create_traverse.
  destruct (PGTransaction.populate hobject_lt _) as [dgraph stack].
  by apply traverse_loop_total.
Qed.
End Traverse.

(** *** Concrete runs, on integer object ids *)

Local Open Scope Z_scope.

Lemma omap_clear_frame_witness :
  let op :=
    ObjectOperation.set_omap_header (Some [Byte.x68])
      (ObjectOperation.set_attr_updates {[ "a"%string := Some [Byte.x61] ]}
         ObjectOperation.fresh) in
  let pgt := PGTransaction.mk [(1, op); (2, ObjectOperation.fresh)] in
  ObjectOperation.is_delete (op_at 1 pgt) = false
  ∧ ∃ pgt' op',
      PGTransaction.omap_clear Z.ltb 1 pgt = Ok pgt'
      ∧ find 1 pgt' = Some op'
      ∧ ObjectOperation.clear_omap op' = true
      ∧ ObjectOperation.omap_header op' = None
      ∧ ObjectOperation.attr_updates op' = ObjectOperation.attr_updates op
      ∧ find 2 pgt' = find 2 pgt.
Proof.
  intros op pgt.
  assert (Hdel : ObjectOperation.is_delete (op_at 1 pgt) = false) by reflexivity.
  split; [exact Hdel|].
  destruct (omap_clear_frame Z.ltb 1 pgt Hdel)
    as (pgt' & op' & H1 & H2 & H3 & _ & H5 & _ & _ & _ & H9 & _ & _ & _ & H13).
  exists pgt', op'. rewrite H9.
  repeat split; try assumption. apply H13. discriminate.
Defined.

Lemma deleted_rejects_modify_witness :
  let pgt := PGTransaction.mk
               [(1, ObjectOperation.set_delete_first true ObjectOperation.fresh)] in
  ObjectOperation.is_delete (op_at 1 pgt) = true
  ∧ PGTransaction.remove Z.ltb 1 pgt = AssertFail
  ∧ PGTransaction.nop Z.ltb 1 pgt = AssertFail
  ∧ (∃ pgt', PGTransaction.create Z.ltb 1 pgt = Ok pgt'
             ∧ ObjectOperation.init_type (op_at 1 pgt') = ObjectOperation.Create)
  ∧ (∃ pgt', PGTransaction.rename Z.ltb negative_is_temp 1 (-1) pgt = Ok pgt'
             ∧ ObjectOperation.init_type (op_at 1 pgt') = ObjectOperation.Rename (-1)).
Proof.
  intros pgt. split; [reflexivity|].
  pose proof (deleted_rejects_modify Z.ltb negative_is_temp (λ _, []) (λ _, []) 1 pgt eq_refl)
    as Hall.
  split; [apply Hall|]. split; [apply Hall|]. split; [apply Hall|].
  apply Hall; reflexivity.
Defined.

(** C9 as stated fails for [rename]: the operation at object 1 [is_delete],
    yet [rename(1, 2)] aborts, because the source 2 is not a temp object. *)
Lemma rename_onto_deleted_aborts :
  ∃ pgt, PGTransaction.remove Z.ltb 1 (PGTransaction.mk []) = Ok pgt
    ∧ ObjectOperation.is_delete (op_at 1 pgt) = true
    ∧ PGTransaction.rename Z.ltb negative_is_temp 1 2 pgt = AssertFail.
Proof. eexists. split; [reflexivity|]. split; reflexivity. Qed.

Lemma rename_moves_source_witness :
  let sop :=
    ObjectOperation.set_buffer_updates [(0, (4, ObjectOperation.Write [Byte.x58] 0))]
      ObjectOperation.fresh in
  let pgt := PGTransaction.mk [(-1, sop)] in
  (negative_is_temp (-1) = true ∧ negative_is_temp 1 = false
   ∧ (ObjectOperation.is_none (op_at 1 pgt) = true
      ∨ ObjectOperation.is_delete (op_at 1 pgt) = true)
   ∧ find (-1) pgt = Some sop)
  ∧ ∃ pgt', PGTransaction.rename Z.ltb negative_is_temp 1 (-1) pgt = Ok pgt'
      ∧ find (-1) pgt' = None
      ∧ find 1 pgt'
        = Some (ObjectOperation.set_init_type (ObjectOperation.Rename (-1)) sop).
Proof.
  intros sop pgt.
  assert (Hop : ObjectOperation.is_none (op_at 1 pgt) = true
                ∨ ObjectOperation.is_delete (op_at 1 pgt) = true) by (left; reflexivity).
  assert (Hsrc : find (-1) pgt = Some sop) by reflexivity.
  split; [exact (conj eq_refl (conj eq_refl (conj Hop Hsrc)))|].
  destruct (proj1 (proj2 (rename_moves_source Z.ltb negative_is_temp 1 (-1) pgt))
              sop eq_refl eq_refl Hop Hsrc)
    as (pgt' & H1 & H2 & H3 & _).
  exists pgt'. repeat split; assumption.
Defined.

Example rename_carries_state :
  ∃ pgt1 pgt2,
    PGTransaction.write Z.ltb (-1) 0 4 [Byte.x58] 0 (PGTransaction.mk []) = Ok pgt1
    ∧ PGTransaction.rename Z.ltb negative_is_temp 1 (-1) pgt1 = Ok pgt2
    ∧ PGTransaction.op_map pgt2
      = [(1, ObjectOperation.set_init_type (ObjectOperation.Rename (-1))
               (ObjectOperation.set_buffer_updates
                  [(0, (4, ObjectOperation.Write [Byte.x58] 0))]
                  ObjectOperation.fresh))].
Proof. eexists _, _. split; [reflexivity|]. split; reflexivity. Qed.

Lemma rename_overwrites_target_witness :
  let sop :=
    ObjectOperation.set_buffer_updates [(0, (4, ObjectOperation.Write [Byte.x58] 0))]
      ObjectOperation.fresh in
  let pgt := PGTransaction.mk
               [(-1, sop);
                (1, ObjectOperation.set_delete_first true ObjectOperation.fresh)] in
  (negative_is_temp (-1) = true ∧ negative_is_temp 1 = false
   ∧ (ObjectOperation.is_none (op_at 1 pgt) = true
      ∨ ObjectOperation.is_delete (op_at 1 pgt) = true)
   ∧ find (-1) pgt = Some sop)
  ∧ ObjectOperation.delete_first (op_at 1 pgt) = true
  ∧ ∃ pgt' op',
      PGTransaction.rename Z.ltb negative_is_temp 1 (-1) pgt = Ok pgt'
      ∧ find 1 pgt' = Some op'
      ∧ ObjectOperation.delete_first op' = false.
Proof.
  intros sop pgt.
  assert (Hop : ObjectOperation.is_none (op_at 1 pgt) = true
                ∨ ObjectOperation.is_delete (op_at 1 pgt) = true) by (right; reflexivity).
  assert (Hsrc : find (-1) pgt = Some sop) by reflexivity.
  split; [exact (conj eq_refl (conj eq_refl (conj Hop Hsrc)))|].
  split; [reflexivity|].
  destruct (proj1 (rename_overwrites_target Z.ltb negative_is_temp 1 (-1) pgt
                     eq_refl eq_refl Hop)
              sop Hsrc)
    as (pgt' & op' & H1 & H2 & _ & H4).
  exists pgt', op'. repeat split; assumption.
Defined.

Lemma truncate_raises_witness :
  let op :=
    ObjectOperation.set_truncate (Some 100)
      (ObjectOperation.set_buffer_updates [(90, (50, ObjectOperation.Zero))]
         (@ObjectOperation.fresh Z)) in
  let pgt := PGTransaction.mk [(1, op)] in
  (ObjectOperation.is_delete (op_at 1 pgt) = false ∧ in_u64 120)
  ∧ ∃ pgt' op',
      PGTransaction.truncate Z.ltb 1 120 pgt = Ok pgt'
      ∧ find 1 pgt' = Some op'
      ∧ (∀ x, x ∈ ObjectOperation.buffer_updates op' → x.1 + x.2.1 ≤ 120)
      ∧ ObjectOperation.truncate op' = Some 120.
Proof.
  intros op pgt.
  assert (Hoff : in_u64 120) by (unfold in_u64, u64_max; lia).
  assert (Hdel : ObjectOperation.is_delete (op_at 1 pgt) = false) by reflexivity.
  split; [exact (conj Hdel Hoff)|].
  assert (Hok : interval_map_spec.ok 0 (ObjectOperation.buffer_updates (op_at 1 pgt))).
  { simpl. unfold u64_max. lia. }
  destruct (proj1 (proj2 (truncate_raises Z.ltb 1 120 pgt Hdel Hoff)))
    as (pgt' & op' & H1 & H2 & H3 & H4 & _).
  - intros cur Hcur. injection Hcur as <-. lia.
  - exact (interval_map_facts.ok_I1 0 _ Hok).
  - exact (interval_map_facts.ok_I2 0 _ Hok).
  - exact (interval_map_facts.ok_I3 0 _ Hok).
  - exact (interval_map_facts.ok_in_range 0 _ Hok ltac:(lia)).
  - exists pgt', op'. repeat split; try assumption. by apply H4.
Defined.

(** the same guard lets a higher truncate through: after
    [truncate(O, 100)] and [truncate(O, 200)] the operation is not a fresh
    object and [op.truncate] is 200, not the minimum 100 *)
Lemma truncate_keeps_raise :
  ∃ pgt1 pgt2 op,
    PGTransaction.truncate Z.ltb 1 100 (PGTransaction.mk []) = Ok pgt1
    ∧ PGTransaction.truncate Z.ltb 1 200 pgt1 = Ok pgt2
    ∧ find 1 pgt2 = Some op
    ∧ ObjectOperation.is_fresh_object op = false
    ∧ ObjectOperation.truncate op = Some 200
    ∧ ObjectOperation.truncate op ≠ Some (Z.min 100 200).
Proof.
  eexists _, _, _. split; [reflexivity|]. split; [reflexivity|].
  split; [reflexivity|]. split; [reflexivity|]. split; [reflexivity | discriminate].
Qed.

(** C2: the code at [truncate(O, 200)], a write of ten bytes at 150 and
    [truncate(O, 100)] on an empty transaction.  The last call meets the
    guard [*op.truncate >= off] and returns at once: the operation is not a
    fresh object, yet the write at [150, 160) stays in [buffer_updates]
    although it lies beyond the offset 100 that the object is truncated to,
    and [op.truncate] stays 200 and is not the minimum 100. *)
Example truncate_lower_is_dropped :
  let bl := [Byte.x30; Byte.x31; Byte.x32; Byte.x33; Byte.x34;
             Byte.x35; Byte.x36; Byte.x37; Byte.x38; Byte.x39] in
  ∃ pgt1 pgt2 pgt3 op,
    PGTransaction.truncate Z.ltb 1 200 (PGTransaction.mk []) = Ok pgt1
    ∧ PGTransaction.write Z.ltb 1 150 10 bl 0 pgt1 = Ok pgt2
    ∧ PGTransaction.truncate Z.ltb 1 100 pgt2 = Ok pgt3
    ∧ find 1 pgt3 = Some op
    ∧ ObjectOperation.is_fresh_object op = false
    ∧ ObjectOperation.buffer_updates op = [(150, (10, ObjectOperation.Write bl 0))]
    ∧ interval_map_spec.intersects 100 u64_max
        (150, (10, @ObjectOperation.Write Z bl 0))
    ∧ ObjectOperation.truncate op = Some 200
    ∧ ObjectOperation.truncate op ≠ Some (Z.min 200 100).
Proof.
  intros bl. eexists _, _, _, _. split; [reflexivity|]. split; [reflexivity|].
  split; [reflexivity|]. split; [reflexivity|]. split; [reflexivity|].
  split; [reflexivity|]. split; [|split; [reflexivity | discriminate]].
  unfold interval_map_spec.intersects, u64_max. simpl. lia.
Qed.

(** [clone(B, A)], [clone(C, B)] and [create(Z)], with A = 1, B = 2, C = 3
    and Z = 26; A has no operation of its own *)
Example traverse_chain :
  ∃ pgt1 pgt2 pgt3,
    PGTransaction.clone Z.ltb 2 1 (PGTransaction.mk []) = Ok pgt1
    ∧ PGTransaction.clone Z.ltb 3 2 pgt1 = Ok pgt2
    ∧ PGTransaction.create Z.ltb 26 pgt2 = Ok pgt3
    ∧ (PGTransaction.safe_create_traverse Z.ltb pgt3)
      = Some (Ok [(3, ObjectOperation.set_init_type (ObjectOperation.Clone 2)
                        ObjectOperation.fresh);
                  (2, ObjectOperation.set_init_type (ObjectOperation.Clone 1)
                        ObjectOperation.fresh);
                  (26, ObjectOperation.set_init_type ObjectOperation.Create
                         ObjectOperation.fresh)]).
Proof.
  eexists _, _, _. split; [reflexivity|]. split; [reflexivity|].
  split; reflexivity.
Qed.

(** the same with an operation on A: C, B, A, then Z *)
Example traverse_chain_with_root :
  ∃ pgt0 pgt1 pgt2 pgt3,
    PGTransaction.nop Z.ltb 1 (PGTransaction.mk []) = Ok pgt0
    ∧ PGTransaction.clone Z.ltb 2 1 pgt0 = Ok pgt1
    ∧ PGTransaction.clone Z.ltb 3 2 pgt1 = Ok pgt2
    ∧ PGTransaction.create Z.ltb 26 pgt2 = Ok pgt3
    ∧ (λ r, match r with Some (Ok v) => v.*1 | _ => [] end)
        (PGTransaction.safe_create_traverse Z.ltb pgt3) = [3; 2; 1; 26].
Proof.
  eexists _, _, _, _. split; [reflexivity|]. split; [reflexivity|].
  split; [reflexivity|]. split; reflexivity.
Qed.

(** on a cycle the loop still ends, and visits nothing of the cycle *)
Example traverse_cycle :
  PGTransaction.safe_create_traverse Z.ltb
    (PGTransaction.mk
       [(1, ObjectOperation.set_init_type (ObjectOperation.Clone 2) ObjectOperation.fresh);
        (2, ObjectOperation.set_init_type (ObjectOperation.Clone 1) ObjectOperation.fresh)])
  = Some (Ok []).
Proof. reflexivity. Qed.

Lemma safe_create_traverse_order_witness :
  let pgt :=
    PGTransaction.mk
      [(1, ObjectOperation.fresh);
       (2, ObjectOperation.set_init_type (ObjectOperation.Clone 1) ObjectOperation.fresh);
       (3, ObjectOperation.set_init_type (ObjectOperation.Clone 2) ObjectOperation.fresh);
       (26, ObjectOperation.set_init_type ObjectOperation.Create ObjectOperation.fresh)] in
  (NoDup (PGTransaction.op_map pgt).*1 ∧ acyclic (PGTransaction.op_map pgt))
  ∧ ∃ visited,
      PGTransaction.safe_create_traverse Z.ltb pgt = Some (Ok visited)
      ∧ visited ≡ₚ PGTransaction.op_map pgt
      ∧ visited_before 3 2 visited
      ∧ visited_before 2 1 visited.
Proof.
  intros pgt.
  assert (Hnd : NoDup (PGTransaction.op_map pgt).*1).
  { unfold pgt. simpl. apply (bool_decide_unpack _). vm_compute. exact I. }
  assert (Hacyc : acyclic (PGTransaction.op_map pgt)).
  { apply (acyclic_by_rank _ Z.to_nat). intros s h (op & Hin & Hsrc).
    repeat (apply elem_of_cons in Hin as [Hin | Hin];
            [injection Hin as -> ->; simpl in Hsrc;
             first [discriminate Hsrc | injection Hsrc as <-; lia]|]).
    by apply elem_of_nil in Hin. }
  split; [exact (conj Hnd Hacyc)|].
  destruct (safe_create_traverse_order Z.ltb pgt Hnd Hacyc)
    as (visited & Hrun & Hperm & _ & Hord & _).
  exists visited. split; [exact Hrun|]. split; [exact Hperm|]. split.
  - apply (Hord 3 (ObjectOperation.set_init_type (ObjectOperation.Clone 2)
                     ObjectOperation.fresh) 2).
    + right. right. left.
    + reflexivity.
    + unfold pgt. simpl. apply (bool_decide_unpack _). vm_compute. exact I.
  - apply (Hord 2 (ObjectOperation.set_init_type (ObjectOperation.Clone 1)
                     ObjectOperation.fresh) 1).
    + right. left.
    + reflexivity.
    + unfold pgt. simpl. apply (bool_decide_unpack _). vm_compute. exact I.
Defined.
End PGTransaction_facts.

(** ** interval_map: lookups, covered offsets and repeated calls *)

Module interval_map_laws.
Import interval_map_spec interval_map_view.
Section Laws.
Context {V : Type}.
Variable s : Z → Z → V → V.
Implicit Types (m r : interval_map.t V) (x y : Z * (Z * V)).
Local Open Scope Z_scope.
Local Arguments interval_map.remnants : simpl never.

Lemma ok_nodup lo m : ok lo m → NoDup m.
Proof.
  intros Hok. apply NoDup_alt. intros i j x Hi Hj.
  destruct (Nat.lt_total i j) as [Hlt | [-> | Hlt]]; [|done|].
  - pose proof (interval_map_facts.ok_I3 lo m Hok i j x x Hlt Hi Hj). lia.
  - pose proof (interval_map_facts.ok_I3 lo m Hok j i x x Hlt Hj Hi). lia.
Qed.

Lemma first_le_last_le lo m off e :
  ok lo m → off ≤ e →
  (first_after off m ≤ interval_map.lower_bound e m)%nat.
Proof.
  revert lo. induction m as [|[k [l v]] r IH]; simpl; intros lo Hok He; [done|].
  destruct Hok as (Hk & Hl & Hmax & Hr).
  destruct (Z.leb_spec (k + l) off); [|lia].
  destruct (Z.ltb_spec k e); [|lia].
  specialize (IH _ Hr He). lia.
Qed.

(** the entries between the two positions of [get_range] *)
Lemma range_elem lo m off e x :
  ok lo m → off ≤ e →
  x ∈ take (interval_map.lower_bound e m - first_after off m)
        (drop (first_after off m) m)
  ↔ x ∈ m ∧ intersects off e x.
Proof.
  clear s. intros Hok He. revert lo Hok. unfold intersects.
  induction m as [|[k [l v]] r IH]; intros lo Hok; simpl.
  { rewrite elem_of_nil. tauto. }
  destruct Hok as (Hk & Hl & Hkl & Hr). specialize (IH _ Hr).
  rewrite elem_of_cons.
  destruct (Z.leb_spec (k + l) off).
  - destruct (Z.ltb_spec k e); [|lia]. simpl. rewrite IH.
    split; [tauto|]. intros [[-> | ?] ?]; [simpl in *; lia | done].
  - destruct (Z.ltb_spec k e); simpl.
    + rewrite elem_of_cons.
      rewrite (interval_map_facts.first_after_zero _ _ _ Hr) in IH by lia.
      rewrite Nat.sub_0_r, drop_0 in IH. rewrite IH.
      split; [|tauto]. intros [-> | ?]; [simpl; split; [by left | lia] | tauto].
    + rewrite elem_of_nil. split; [done|].
      intros [[-> | Hx] ?]; [simpl in *; lia|].
      apply (interval_map_facts.ok_elem _ _ _ Hr) in Hx. lia.
Qed.

Lemma get_containing_range_eq lo m off len :
  ok lo m → 0 ≤ lo → 0 ≤ off → 0 ≤ len → off + len ≤ u64_max →
  interval_map.get_containing_range off len m
  = Some (take (interval_map.lower_bound (off + len) m - first_after off m)
            (drop (first_after off m) m)).
Proof.
  intros Hok Hlo Hoff Hlen Hmax. unfold interval_map.get_containing_range.
  pose proof (interval_map_facts.get_range_first lo m off len Hok Hlo) as Hfst.
  destruct (interval_map.get_range off len m) as [fst lst] eqn:Hrange.
  assert (lst = interval_map.lower_bound (off + len) m) as ->.
  { unfold interval_map.get_range in Hrange. simpl in Hrange.
    rewrite u64_add_small in Hrange by lia. congruence. }
  simpl in Hfst. subst fst.
  pose proof (first_le_last_le lo m off (off + len) Hok ltac:(lia)).
  by rewrite decide_False by lia.
Qed.

Lemma cut_id lo m off e :
  ok lo m → off < e → (∀ x, x ∈ m → ¬ intersects off e x) → cut s off e m = m.
Proof.
  intros Hok He. revert lo Hok. unfold intersects.
  induction m as [|[k [l v]] r IH]; intros lo Hok Hno; simpl; [done|].
  destruct Hok as (Hk & Hl & Hkl & Hr).
  pose proof (Hno (k, (l, v)) ltac:(left)) as Hhd. simpl in Hhd.
  destruct (Z.leb_spec (k + l) off).
  - f_equal. apply (IH _ Hr). intros x Hx. apply Hno. by right.
  - destruct (Z.leb_spec e k); [done | lia].
Qed.

Lemma cut_no_intersect lo m off e x :
  ok lo m → off < e → x ∈ cut s off e m → ¬ intersects off e x.
Proof.
  intros Hok He Hx [? ?].
  pose proof (interval_map_facts.cut_ok s lo m off e Hok He) as Hok'.
  pose proof (interval_map_facts.ok_elem _ _ _ Hok' Hx).
  apply (interval_map_facts.cut_gap s lo m) in Hx; (done || lia).
Qed.

Lemma cut_sm_insert lo m off len v :
  ok lo m → 0 < len →
  (∀ x, x ∈ m → x.1 + x.2.1 ≤ off ∨ off + len ≤ x.1) →
  cut s off (off + len) (sm_insert Z.ltb off (len, v) m) = m.
Proof.
  intros Hok Hlen. revert lo Hok.
  induction m as [|[k [l w]] r IH]; intros lo Hok Hgap; simpl.
  - destruct (Z.leb_spec (off + len) off); [lia|].
    destruct (Z.leb_spec (off + len) off); [lia|].
    destruct (Z.ltb_spec off off); [lia|].
    destruct (Z.ltb_spec (off + len) (off + len)); [lia | done].
  - destruct Hok as (Hk & Hl & Hkl & Hr).
    pose proof (Hgap (k, (l, w)) ltac:(left)) as Hhd. simpl in Hhd.
    rewrite decide_False by lia.
    destruct (Z.ltb_spec off k); simpl.
    + destruct (Z.leb_spec (off + len) off); [lia|].
      destruct (Z.leb_spec (off + len) off); [lia|].
      destruct (Z.ltb_spec off off); [lia|].
      destruct (Z.ltb_spec (off + len) (off + len)); [lia|]. simpl.
      destruct (Z.leb_spec (k + l) off); [lia|].
      destruct (Z.leb_spec (off + len) k); [done | lia].
    + destruct (Z.leb_spec (k + l) off); [|lia].
      f_equal. apply (IH _ Hr). intros x Hx. apply Hgap. by right.
Qed.

Lemma cut_length lo m off e :
  ok lo m → off < e →
  (length (cut s off e m) ≤ length m + 1)%nat
  ∧ (off ≤ lo → (length (cut s off e m) ≤ length m)%nat).
Proof.
  intros Hok He. revert lo Hok.
  induction m as [|[k [l v]] r IH]; intros lo Hok; simpl; [lia|].
  destruct Hok as (Hk & Hl & Hkl & Hr).
  destruct (IH _ Hr) as [IH1 IH2].
  destruct (Z.leb_spec (k + l) off); [simpl; lia|].
  destruct (Z.leb_spec e k); [simpl; lia|].
  specialize (IH2 ltac:(lia)).
  destruct (Z.ltb_spec e (k + l)).
  - rewrite (interval_map_facts.cut_after s _ _ _ _ Hr) by lia.
    destruct (Z.ltb_spec k off); simpl; lia.
  - destruct (Z.ltb_spec k off); simpl; lia.
Qed.

Lemma sm_insert_length k (v : Z * V) m :
  (length (sm_insert Z.ltb k v m) ≤ S (length m))%nat.
Proof.
  induction m as [|[k' v'] r IH]; simpl; [lia|].
  case_decide; simpl; [lia|]. destruct (k <? k'); simpl; lia.
Qed.
End Laws.

Section Views.
Context {V D : Type}.
Variable view : V → Z → D.
Variable s : Z → Z → V → V.
Implicit Types (m r : interval_map.t V) (x : Z).
Local Open Scope Z_scope.

Lemma value_at_before lo m x : ok lo m → x < lo → value_at view m x = None.
Proof.
  revert lo. induction m as [|[k [l v]] r IH]; intros lo Hok Hx; simpl; [done|].
  destruct Hok as (Hk & Hl & Hkl & Hr).
  destruct (Z.leb_spec k x); [lia|]. simpl. apply (IH _ Hr). lia.
Qed.

Lemma value_at_cut lo m off e x :
  splits view s → ok lo m → 0 ≤ lo → off < e →
  value_at view (cut s off e m) x
  = if (off <=? x) && (x <? e) then None else value_at view m x.
Proof.
  intros Hs Hok Hlo He. revert lo Hok Hlo.
  induction m as [|[k [l v]] r IH]; intros lo Hok Hlo; simpl.
  { by destruct (_ && _). }
  destruct Hok as (Hk & Hl & Hkl & Hr).
  specialize (IH _ Hr ltac:(lia)).
  destruct (Z.leb_spec (k + l) off) as [Hbefore | Hmid].
  { simpl. rewrite IH.
    destruct (Z.leb_spec k x), (Z.ltb_spec x (k + l)); simpl; try done.
    destruct (Z.leb_spec off x); [lia | done]. }
  destruct (Z.leb_spec e k) as [Hafter | Hin].
  { simpl. destruct (Z.leb_spec off x), (Z.ltb_spec x e); simpl; try done.
    destruct (Z.leb_spec k x); [lia|]. simpl.
    apply (value_at_before _ _ _ Hr). lia. }
  assert (Hpre : k < off → off - k > 0 → k ≤ x < off →
            view (s 0 (off - k) v) (x - k) = view v (x - k)).
  { intros. rewrite Hs by lia. f_equal; lia. }
  assert (Hsuf : e ≤ x < k + l →
            view (s (l - (k + l - e)) (k + l - e) v) (x - e) = view v (x - k)).
  { intros. rewrite Hs by lia. f_equal; lia. }
  assert (Hrest : x < k + l → value_at view r x = None).
  { intros. apply (value_at_before _ _ _ Hr). lia. }
  destruct (Z.ltb_spec k off), (Z.ltb_spec e (k + l)); simpl; rewrite ?IH;
    destruct (Z.leb_spec k x), (Z.ltb_spec x (k + l)),
             (Z.leb_spec off x), (Z.ltb_spec x e); simpl;
    try lia; try done;
    repeat match goal with
           | |- context [?a <=? ?b] => destruct (Z.leb_spec a b); try lia
           | |- context [?a <? ?b] => destruct (Z.ltb_spec a b); try lia
           end; simpl; rewrite ?IH, ?Hrest by lia;
    try done; try (f_equal; (apply Hpre || apply Hsuf); lia);
    repeat match goal with
           | |- context [?a <=? ?b] => destruct (Z.leb_spec a b); try lia
           | |- context [?a <? ?b] => destruct (Z.ltb_spec a b); try lia
           end; simpl; try done.
Qed.

Lemma value_at_insert lo m off len v x :
  ok lo m → 0 < len →
  (∀ y, y ∈ m → y.1 + y.2.1 ≤ off ∨ off + len ≤ y.1) →
  value_at view (sm_insert Z.ltb off (len, v) m) x
  = if (off <=? x) && (x <? off + len) then Some (view v (x - off))
    else value_at view m x.
Proof.
  intros Hok Hlen. revert lo Hok.
  induction m as [|[k [l w]] r IH]; intros lo Hok Hgap; simpl; [done|].
  destruct Hok as (Hk & Hl & Hkl & Hr).
  pose proof (Hgap (k, (l, w)) ltac:(left)) as Hhd. simpl in Hhd.
  rewrite decide_False by lia.
  destruct (Z.ltb_spec off k); simpl; [done|].
  rewrite (IH _ Hr) by (intros y Hy; apply Hgap; by right).
  destruct (Z.leb_spec k x), (Z.ltb_spec x (k + l)); simpl; try done.
  destruct (Z.leb_spec off x); [lia | done].
Qed.
End Views.

Lemma bufferlist_splitter_splits : splits byte_at bufferlist_splitter.
Proof.
  intros offset len v i Hoff Hi.
  unfold byte_at, bufferlist_splitter, substr_of, bufferlist in *.
  rewrite lookup_take_lt by lia. rewrite lookup_drop. f_equal. lia.
Qed.

Section Properties.
Context {V D : Type}.
Variable view : V → Z → D.
Variable s : Z → Z → V → V.
Implicit Types (m r : interval_map.t V).
Local Open Scope Z_scope.

(** X1: on a map that satisfies I1 to I3 within range,
    [get_containing_range(off, len)] without wrap-around yields, in map
    order, exactly the entries that meet [off, off+len); for [len = 0] these
    are the entries that straddle [off]. *)
Theorem get_containing_range_meets m (off len : Z) :
  I1 m → I2 m → I3 m → in_range m →
  in_u64 off → 0 ≤ len → off + len ≤ u64_max →
  ∃ r, interval_map.get_containing_range off len m = Some r
    ∧ r `sublist_of` m
    ∧ ∀ x, x ∈ r ↔ x ∈ m ∧ intersects off (off + len) x.
Proof.
  intros H1 H2 H3 H4 [Hoff _] Hlen Hmax.
  pose proof (interval_map_facts.invariants_ok m H1 H2 H3 H4) as Hok.
  eexists. split; [by apply (get_containing_range_eq 0)|]. split.
  - etrans; [apply sublist_take | apply sublist_drop].
  - intros x. apply (range_elem 0); [done | lia].
Qed.

(** X2: [erase(off, len)] removes what the map holds at the offsets of
    [off, off+len) and changes nothing at any other offset, whenever the
    splitter returns the sub-range it is asked for. *)
Theorem erase_value_at m (off len : Z) :
  splits view s →
  I1 m → I2 m → I3 m → in_range m →
  in_u64 off → 0 ≤ len → off + len ≤ u64_max →
  ∃ m', interval_map.erase s off len m = Some m'
    ∧ ∀ x, value_at view m' x
           = if (off <=? x) && (x <? off + len) then None else value_at view m x.
Proof.
  intros Hs H1 H2 H3 H4 [Hoff _] Hlen Hmax.
  pose proof (interval_map_facts.invariants_ok m H1 H2 H3 H4) as Hok.
  destruct (decide (len = 0)) as [-> | Hne].
  - exists m. split; [done|]. intros x.
    destruct (Z.leb_spec off x), (Z.ltb_spec x (off + 0)); simpl; (done || lia).
  - exists (cut s off (off + len) m).
    split; [apply (interval_map_facts.erase_cut s 0); (done || lia)|].
    intros x. apply (value_at_cut view s 0); (done || lia).
Qed.

(** X3: after [insert(off, len, v)] the map holds [v] at every offset of
    [off, off+len) and what it held before at every other offset (the last
    writer wins), whenever the splitter returns the sub-range it is asked
    for. *)
Theorem insert_value_at m (off len : Z) (v : V) :
  splits view s →
  I1 m → I2 m → I3 m → in_range m →
  in_u64 off → 0 < len → off + len ≤ u64_max →
  ∃ m', interval_map.insert s off len v m = Some m'
    ∧ ∀ x, value_at view m' x
           = if (off <=? x) && (x <? off + len) then Some (view v (x - off))
             else value_at view m x.
Proof.
  intros Hs H1 H2 H3 H4 Hoff Hlen Hmax.
  pose proof (interval_map_facts.invariants_ok m H1 H2 H3 H4) as Hok.
  destruct (interval_map_facts.insert_ok s 0 m off len v) as (m' & Hins & _ & ->);
    try (done || lia || apply Hoff).
  destruct Hoff as [Hoff _].
  eexists. split; [exact Hins|]. intros x.
  rewrite (value_at_insert view 0).
  - rewrite (value_at_cut view s 0) by (done || lia). by destruct (_ && _).
  - apply interval_map_facts.cut_ok; [done | lia].
  - done.
  - intros y Hy. apply (interval_map_facts.cut_gap s 0 m); [done | lia | done].
Qed.

(** X4: [get_containing_range(off, len)] right after
    [insert(off, len, v)] yields the single entry [(off, len, v)]. *)
Theorem insert_then_get m (off len : Z) (v : V) :
  I1 m → I2 m → I3 m → in_range m →
  in_u64 off → 0 < len → off + len ≤ u64_max →
  ∃ m', interval_map.insert s off len v m = Some m'
    ∧ interval_map.get_containing_range off len m' = Some [(off, (len, v))].
Proof.
  intros H1 H2 H3 H4 Hoff Hlen Hmax.
  pose proof (interval_map_facts.invariants_ok m H1 H2 H3 H4) as Hok.
  destruct (interval_map_facts.insert_ok s 0 m off len v) as (m' & Hins & Hok' & Hm');
    try (done || lia || apply Hoff).
  destruct Hoff as [Hoff _].
  exists m'. split; [done|].
  rewrite (get_containing_range_eq 0) by (done || lia). f_equal.
  apply Permutation_singleton_r, NoDup_Permutation.
  - eapply sublist_NoDup; [exact (ok_nodup 0 m' Hok')|].
    etrans; [apply sublist_take | apply sublist_drop].
  - apply NoDup_singleton.
  - intros x. rewrite (range_elem 0) by (done || lia).
    rewrite list_elem_of_singleton. subst m'.
    rewrite sm_insert_elem
      by (apply (interval_map_facts.gap_find_None 0 _ off len);
          [by apply interval_map_facts.cut_ok; [|lia] | done
          | intros y Hy; apply (interval_map_facts.cut_gap s 0 m); [done | lia | done]]).
    split.
    + intros [[-> | Hx] [? ?]]; [done|].
      apply (interval_map_facts.cut_gap s 0 m) in Hx; (done || lia).
    + intros ->. split; [by left|]. unfold intersects. simpl. lia.
Qed.

(** X5: [erase(off, len)] on a range that no stored entry meets returns the
    map as it was. *)
Theorem erase_uncovered m (off len : Z) :
  I1 m → I2 m → I3 m → in_range m →
  in_u64 off → 0 ≤ len → off + len ≤ u64_max →
  (∀ x, x ∈ m → ¬ intersects off (off + len) x) →
  interval_map.erase s off len m = Some m.
Proof.
  intros H1 H2 H3 H4 [Hoff _] Hlen Hmax Hno.
  pose proof (interval_map_facts.invariants_ok m H1 H2 H3 H4) as Hok.
  destruct (decide (len = 0)) as [-> | Hne]; [done|].
  rewrite (interval_map_facts.erase_cut s 0) by (done || lia).
  f_equal. apply (cut_id s 0); (done || lia).
Qed.

(** X6: erasing the same range a second time changes nothing. *)
Theorem erase_twice m (off len : Z) :
  I1 m → I2 m → I3 m → in_range m →
  in_u64 off → 0 ≤ len → off + len ≤ u64_max →
  ∃ m', interval_map.erase s off len m = Some m'
    ∧ interval_map.erase s off len m' = Some m'.
Proof.
  intros H1 H2 H3 H4 [Hoff _] Hlen Hmax.
  pose proof (interval_map_facts.invariants_ok m H1 H2 H3 H4) as Hok.
  destruct (decide (len = 0)) as [-> | Hne]; [by exists m|].
  exists (cut s off (off + len) m).
  split; [apply (interval_map_facts.erase_cut s 0); (done || lia)|].
  rewrite (interval_map_facts.erase_cut s 0);
    [|apply interval_map_facts.cut_ok; (done || lia) | lia..].
  f_equal. apply (cut_id s 0); [apply interval_map_facts.cut_ok; (done || lia) | lia|].
  intros x Hx. apply (cut_no_intersect s 0 m); (done || lia).
Qed.

(** X7: on a map that satisfies I1 to I3 within range, for a non-empty
    range ([len > 0]) without wrap-around, inserting over exactly the range
    of the previous insert leaves the map the second insert alone would have
    given: nothing of the first value remains and no remnant is made of
    it. *)
Theorem insert_twice m (off len : Z) (v1 v2 : V) :
  I1 m → I2 m → I3 m → in_range m →
  in_u64 off → 0 < len → off + len ≤ u64_max →
  ∃ m1 m2, interval_map.insert s off len v1 m = Some m1
    ∧ interval_map.insert s off len v2 m1 = Some m2
    ∧ interval_map.insert s off len v2 m = Some m2.
Proof.
  intros H1 H2 H3 H4 Hoff Hlen Hmax.
  pose proof (interval_map_facts.invariants_ok m H1 H2 H3 H4) as Hok.
  destruct (interval_map_facts.insert_ok s 0 m off len v1) as (m1 & Hins1 & Hok1 & Hm1);
    try (done || lia || apply Hoff).
  destruct (interval_map_facts.insert_ok s 0 m off len v2) as (m2 & Hins2 & _ & Hm2);
    try (done || lia || apply Hoff).
  destruct Hoff as [Hoff _].
  exists m1, m2. split; [done|]. split; [|done].
  unfold interval_map.insert.
  rewrite (interval_map_facts.erase_cut s 0) by (done || lia). simpl.
  rewrite Hm1, (cut_sm_insert s 0), Hm2; [done | | done |].
  - apply interval_map_facts.cut_ok; [done | lia].
  - intros y Hy. apply (interval_map_facts.cut_gap s 0 m); [done | lia | done].
Qed.

(** X8: on a map that satisfies I1 to I3 within range and whose size plus
    two fits [unsigned], for a non-empty range without wrap-around,
    [ext_count()] after [erase] is at most one more than before (one more
    when it cuts a hole into one entry), and after [insert] it is at least 1
    and at most two more than before. *)
Theorem ext_count_growth m (off len : Z) (v : V) :
  I1 m → I2 m → I3 m → in_range m →
  in_u64 off → 0 < len → off + len ≤ u64_max →
  Z.of_nat (length m) + 2 < unsigned_modulus →
  ∃ m1 m2, interval_map.erase s off len m = Some m1
    ∧ interval_map.insert s off len v m = Some m2
    ∧ interval_map.ext_count m1 ≤ interval_map.ext_count m + 1
    ∧ 1 ≤ interval_map.ext_count m2 ≤ interval_map.ext_count m + 2.
Proof.
  intros H1 H2 H3 H4 Hoff Hlen Hmax Hsize.
  pose proof (interval_map_facts.invariants_ok m H1 H2 H3 H4) as Hok.
  destruct (interval_map_facts.insert_ok s 0 m off len v) as (m2 & Hins & _ & Hm2);
    try (done || lia || apply Hoff).
  destruct Hoff as [Hoff _].
  exists (cut s off (off + len) m), m2.
  split; [apply (interval_map_facts.erase_cut s 0); (done || lia)|].
  split; [done|].
  destruct (cut_length s 0 m off (off + len) Hok ltac:(lia)) as [Hc _].
  subst m2.
  pose proof (sm_insert_length off (len, v) (cut s off (off + len) m)) as Hi.
  assert (1 ≤ length (sm_insert Z.ltb off (len, v) (cut s off (off + len) m)))%nat as Hone;
    [|unfold interval_map.ext_count, to_unsigned; rewrite !Z.mod_small by lia; lia].
  assert ((off, (len, v)) ∈ sm_insert Z.ltb off (len, v) (cut s off (off + len) m)) as Hin.
  { apply sm_insert_elem; [|by left].
    apply (interval_map_facts.gap_find_None 0 _ off len);
      [by apply interval_map_facts.cut_ok; [|lia] | done|].
    intros y Hy. apply (interval_map_facts.cut_gap s 0 m); [done | lia | done]. }
  destruct (sm_insert Z.ltb off (len, v) (cut s off (off + len) m));
    [by apply elem_of_nil in Hin | simpl; lia].
Qed.
End Properties.

(** *** Concrete runs *)

Local Open Scope Z_scope.

Ltac from_ok m Hok H1 H2 H3 H4 :=
  assert (Hok : ok 0 m) by (unfold m; simpl; unfold u64_max; lia);
  pose proof (interval_map_facts.ok_I1 0 m Hok) as H1;
  pose proof (interval_map_facts.ok_I2 0 m Hok) as H2;
  pose proof (interval_map_facts.ok_I3 0 m Hok) as H3;
  pose proof (interval_map_facts.ok_in_range 0 m Hok ltac:(lia)) as H4.

Ltac u64_bounds := unfold in_u64, u64_max; lia.

Lemma get_containing_range_meets_witness :
  let m := [(0, (5, [Byte.x61])); (10, (5, [Byte.x62]));
            (20, (5, [Byte.x63])); (30, (5, [Byte.x64]))] in
  (I1 m ∧ I2 m ∧ I3 m ∧ in_range m ∧ in_u64 5 ∧ 0 ≤ 21 ∧ 5 + 21 ≤ u64_max)
  ∧ ∃ r, interval_map.get_containing_range 5 21 m = Some r
      ∧ r `sublist_of` m
      ∧ ∀ x, x ∈ r ↔ x ∈ m ∧ intersects 5 (5 + 21) x.
Proof.
  intros m. from_ok m Hok H1 H2 H3 H4.
  assert (Hoff : in_u64 5) by u64_bounds.
  assert (Hlen : 0 ≤ 21) by lia.
  assert (Hmax : 5 + 21 ≤ u64_max) by u64_bounds.
  split; [exact (conj H1 (conj H2 (conj H3 (conj H4 (conj Hoff (conj Hlen Hmax))))))|].
  exact (get_containing_range_meets m 5 21 H1 H2 H3 H4 Hoff Hlen Hmax).
Defined.

Lemma erase_value_at_witness :
  let m := [(0, (5, [Byte.x61; Byte.x62; Byte.x63; Byte.x64; Byte.x65]))] in
  (splits byte_at bufferlist_splitter
   ∧ I1 m ∧ I2 m ∧ I3 m ∧ in_range m ∧ in_u64 1 ∧ 0 ≤ 2 ∧ 1 + 2 ≤ u64_max)
  ∧ ∃ m', interval_map.erase bufferlist_splitter 1 2 m = Some m'
      ∧ value_at byte_at m' 0 = Some (Some Byte.x61)
      ∧ value_at byte_at m' 2 = None
      ∧ value_at byte_at m' 4 = Some (Some Byte.x65).
Proof.
  intros m. from_ok m Hok H1 H2 H3 H4.
  assert (Hoff : in_u64 1) by u64_bounds.
  assert (Hlen : 0 ≤ 2) by lia.
  assert (Hmax : 1 + 2 ≤ u64_max) by u64_bounds.
  split; [exact (conj bufferlist_splitter_splits
            (conj H1 (conj H2 (conj H3 (conj H4 (conj Hoff (conj Hlen Hmax)))))))|].
  destruct (erase_value_at byte_at bufferlist_splitter m 1 2
              bufferlist_splitter_splits H1 H2 H3 H4 Hoff Hlen Hmax) as (m' & He & Hv).
  exists m'. split; [exact He|].
  split; [exact (Hv 0) | split; [exact (Hv 2) | exact (Hv 4)]].
Defined.

Lemma insert_value_at_witness :
  let m := [(0, (5, [Byte.x61; Byte.x62; Byte.x63; Byte.x64; Byte.x65]))] in
  let v := [Byte.x78; Byte.x79] in
  (splits byte_at bufferlist_splitter
   ∧ I1 m ∧ I2 m ∧ I3 m ∧ in_range m ∧ in_u64 3 ∧ 0 < 2 ∧ 3 + 2 ≤ u64_max)
  ∧ ∃ m', interval_map.insert bufferlist_splitter 3 2 v m = Some m'
      ∧ value_at byte_at m' 2 = Some (Some Byte.x63)
      ∧ value_at byte_at m' 3 = Some (Some Byte.x78)
      ∧ value_at byte_at m' 5 = None.
Proof.
  intros m v. from_ok m Hok H1 H2 H3 H4.
  assert (Hoff : in_u64 3) by u64_bounds.
  assert (Hlen : 0 < 2) by lia.
  assert (Hmax : 3 + 2 ≤ u64_max) by u64_bounds.
  split; [exact (conj bufferlist_splitter_splits
            (conj H1 (conj H2 (conj H3 (conj H4 (conj Hoff (conj Hlen Hmax)))))))|].
  destruct (insert_value_at byte_at bufferlist_splitter m 3 2 v
              bufferlist_splitter_splits H1 H2 H3 H4 Hoff Hlen Hmax) as (m' & Hi & Hv).
  exists m'. split; [exact Hi|].
  split; [exact (Hv 2) | split; [exact (Hv 3) | exact (Hv 5)]].
Defined.

Lemma insert_then_get_witness :
  let m := [(0, (5, [Byte.x61])); (10, (5, [Byte.x63]))] in
  (I1 m ∧ I2 m ∧ I3 m ∧ in_range m ∧ in_u64 4 ∧ 0 < 7 ∧ 4 + 7 ≤ u64_max)
  ∧ ∃ m', interval_map.insert bufferlist_splitter 4 7 [Byte.x62] m = Some m'
      ∧ interval_map.get_containing_range 4 7 m' = Some [(4, (7, [Byte.x62]))].
Proof.
  intros m. from_ok m Hok H1 H2 H3 H4.
  assert (Hoff : in_u64 4) by u64_bounds.
  assert (Hlen : 0 < 7) by lia.
  assert (Hmax : 4 + 7 ≤ u64_max) by u64_bounds.
  split; [exact (conj H1 (conj H2 (conj H3 (conj H4 (conj Hoff (conj Hlen Hmax))))))|].
  exact (insert_then_get bufferlist_splitter m 4 7 [Byte.x62] H1 H2 H3 H4 Hoff Hlen Hmax).
Defined.

Lemma erase_uncovered_witness :
  let m := [(0, (5, [Byte.x61])); (10, (5, [Byte.x63]))] in
  (I1 m ∧ I2 m ∧ I3 m ∧ in_range m ∧ in_u64 5 ∧ 0 ≤ 5 ∧ 5 + 5 ≤ u64_max
   ∧ ∀ x, x ∈ m → ¬ intersects 5 (5 + 5) x)
  ∧ interval_map.erase bufferlist_splitter 5 5 m = Some m.
Proof.
  intros m. from_ok m Hok H1 H2 H3 H4.
  assert (Hoff : in_u64 5) by u64_bounds.
  assert (Hlen : 0 ≤ 5) by lia.
  assert (Hmax : 5 + 5 ≤ u64_max) by u64_bounds.
  assert (Hno : ∀ x, x ∈ m → ¬ intersects 5 (5 + 5) x).
  { intros x Hx [? ?].
    repeat (apply elem_of_cons in Hx as [-> | Hx]; [simpl in *; lia|]).
    by apply elem_of_nil in Hx. }
  split; [exact (conj H1 (conj H2 (conj H3 (conj H4
            (conj Hoff (conj Hlen (conj Hmax Hno)))))))|].
  exact (erase_uncovered bufferlist_splitter m 5 5 H1 H2 H3 H4 Hoff Hlen Hmax Hno).
Defined.

Lemma erase_twice_witness :
  let m := [(0, (5, [Byte.x61])); (5, (5, [Byte.x62])); (10, (5, [Byte.x63]))] in
  (I1 m ∧ I2 m ∧ I3 m ∧ in_range m ∧ in_u64 3 ∧ 0 ≤ 5 ∧ 3 + 5 ≤ u64_max)
  ∧ ∃ m', interval_map.erase bufferlist_splitter 3 5 m = Some m'
      ∧ interval_map.erase bufferlist_splitter 3 5 m' = Some m'.
Proof.
  intros m. from_ok m Hok H1 H2 H3 H4.
  assert (Hoff : in_u64 3) by u64_bounds.
  assert (Hlen : 0 ≤ 5) by lia.
  assert (Hmax : 3 + 5 ≤ u64_max) by u64_bounds.
  split; [exact (conj H1 (conj H2 (conj H3 (conj H4 (conj Hoff (conj Hlen Hmax))))))|].
  exact (erase_twice bufferlist_splitter m 3 5 H1 H2 H3 H4 Hoff Hlen Hmax).
Defined.

Lemma insert_twice_witness :
  let m := [(0, (5, [Byte.x61])); (5, (5, [Byte.x62])); (10, (5, [Byte.x63]))] in
  (I1 m ∧ I2 m ∧ I3 m ∧ in_range m ∧ in_u64 3 ∧ 0 < 5 ∧ 3 + 5 ≤ u64_max)
  ∧ ∃ m1 m2, interval_map.insert bufferlist_splitter 3 5 [Byte.x78] m = Some m1
      ∧ interval_map.insert bufferlist_splitter 3 5 [Byte.x79] m1 = Some m2
      ∧ interval_map.insert bufferlist_splitter 3 5 [Byte.x79] m = Some m2.
Proof.
  intros m. from_ok m Hok H1 H2 H3 H4.
  assert (Hoff : in_u64 3) by u64_bounds.
  assert (Hlen : 0 < 5) by lia.
  assert (Hmax : 3 + 5 ≤ u64_max) by u64_bounds.
  split; [exact (conj H1 (conj H2 (conj H3 (conj H4 (conj Hoff (conj Hlen Hmax))))))|].
  exact (insert_twice bufferlist_splitter m 3 5 [Byte.x78] [Byte.x79]
           H1 H2 H3 H4 Hoff Hlen Hmax).
Defined.

Lemma ext_count_growth_witness :
  let m := [(0, (10, [Byte.x61]))] in
  (I1 m ∧ I2 m ∧ I3 m ∧ in_range m ∧ in_u64 3 ∧ 0 < 4 ∧ 3 + 4 ≤ u64_max
   ∧ Z.of_nat (length m) + 2 < unsigned_modulus)
  ∧ ∃ m1 m2, interval_map.erase bufferlist_splitter 3 4 m = Some m1
      ∧ interval_map.insert bufferlist_splitter 3 4 [Byte.x62] m = Some m2
      ∧ interval_map.ext_count m1 ≤ interval_map.ext_count m + 1
      ∧ 1 ≤ interval_map.ext_count m2 ≤ interval_map.ext_count m + 2.
Proof.
  intros m. from_ok m Hok H1 H2 H3 H4.
  assert (Hoff : in_u64 3) by u64_bounds.
  assert (Hlen : 0 < 4) by lia.
  assert (Hmax : 3 + 4 ≤ u64_max) by u64_bounds.
  assert (Hsize : Z.of_nat (length m) + 2 < unsigned_modulus)
    by (unfold m, unsigned_modulus; simpl; lia).
  split; [exact (conj H1 (conj H2 (conj H3 (conj H4 (conj Hoff (conj Hlen
            (conj Hmax Hsize)))))))|].
  exact (ext_count_growth bufferlist_splitter m 3 4 [Byte.x62]
           H1 H2 H3 H4 Hoff Hlen Hmax Hsize).
Defined.

(** the bound of two is met: an insert into the middle of one entry *)
Example ext_count_growth_met :
  interval_map.insert bufferlist_splitter 3 4 [Byte.x62] [(0, (10, [Byte.x61]))]
  = Some [(0, (3, bufferlist_splitter 0 3 [Byte.x61])); (3, (4, [Byte.x62]));
          (7, (3, bufferlist_splitter 7 3 [Byte.x61]))].
Proof. reflexivity. Qed.
End interval_map_laws.

(** ** PGTransaction: what the buffer updates do to each byte *)

Module PGTransaction_laws.
Import PGTransaction_spec PGTransaction_view interval_map_view.
Section Buffers.
Context {hobject_t : Type} `{EqDecision hobject_t}.
Variable hobject_lt : hobject_t → hobject_t → bool.
Abbreviation op_t := (ObjectOperation.t hobject_t).
Abbreviation pgt_t := (PGTransaction.t hobject_t).
Abbreviation bu_t := (ObjectOperation.BufferUpdateType hobject_t).
Implicit Types (hoid h : hobject_t) (pgt : pgt_t) (op : op_t) (bu : bu_t).
Local Open Scope Z_scope.

Lemma Splitter_splits : splits (update_at (hobject_t := hobject_t)) ObjectOperation.Splitter.
Proof.
  intros offset len [buffer fl | | from o l] i Hoff Hi; simpl.
  - f_equal. by apply interval_map_laws.bufferlist_splitter_splits.
  - done.
  - f_equal. unfold u64_add, u64. rewrite Z.add_mod_idemp_l by done. f_equal. lia.
Qed.

(** X9: the splitter of buffer updates returns the sub-range it is asked
    for: byte [i] of [Splitter(offset, len, bu)] is byte [offset + i] of
    [bu], that is the same byte of a written buffer, a zero, or the same
    source byte of a cloned range (source offsets being taken modulo
    [2^64]). *)
Theorem Splitter_sub_range (offset len : Z) bu (i : Z) :
  0 ≤ offset → 0 ≤ i < len →
  update_at (ObjectOperation.Splitter offset len bu) i = update_at bu (offset + i).
Proof. apply Splitter_splits. Qed.

Lemma value_at_beyond {V D : Type} (view : V → Z → D) lo (m : interval_map.t V) x :
  interval_map_spec.ok lo m → u64_max ≤ x → value_at view m x = None.
Proof.
  revert lo. induction m as [|[k [l v]] r IH]; intros lo Hok Hx; simpl; [done|].
  destruct Hok as (Hk & Hl & Hkl & Hr).
  destruct (Z.ltb_spec x (k + l)); [lia|]. rewrite andb_false_r. by apply (IH _ Hr).
Qed.

Lemma buffer_insert_at hoid (off len : Z) bu pgt :
  ObjectOperation.is_delete (op_at hoid pgt) = false →
  interval_map_spec.ok 0 (ObjectOperation.buffer_updates (op_at hoid pgt)) →
  in_u64 off → 0 < len → off + len ≤ u64_max →
  ∃ pgt' b,
    PGTransaction.buffer_insert hobject_lt hoid off len bu pgt = Ok pgt'
    ∧ find hoid pgt' = Some (ObjectOperation.set_buffer_updates b (op_at hoid pgt))
    ∧ (∀ x, value_at update_at b x
            = if (off <=? x) && (x <? off + len) then Some (update_at bu (x - off))
              else value_at update_at (ObjectOperation.buffer_updates (op_at hoid pgt)) x)
    ∧ ∀ h, h ≠ hoid → find h pgt' = find h pgt.
Proof.
  intros Hdel Hok Hoff Hlen Hmax. unfold PGTransaction.buffer_insert.
  rewrite PGTransaction_facts.modify_spec, Hdel. simpl.
  destruct (interval_map_facts.insert_ok ObjectOperation.Splitter 0
              (ObjectOperation.buffer_updates (op_at hoid pgt)) off len bu)
    as (b & -> & _ & Hb); try (done || lia || apply Hoff).
  destruct Hoff as [Hoff _].
  eexists _, b. split; [done|]. split; [apply PGTransaction_facts.store_find_eq|]. split.
  - intros x. subst b. rewrite (interval_map_laws.value_at_insert update_at 0).
    + rewrite (interval_map_laws.value_at_cut update_at ObjectOperation.Splitter 0)
        by (done || lia || apply Splitter_splits).
      by destruct (_ && _).
    + apply interval_map_facts.cut_ok; [done | lia].
    + done.
    + intros y Hy. apply (interval_map_facts.cut_gap ObjectOperation.Splitter 0
                            (ObjectOperation.buffer_updates (op_at hoid pgt)));
        [done | lia | done].
  - intros h Hne. rewrite PGTransaction_facts.store_find_ne by done.
    by apply PGTransaction_facts.subscript_find_ne.
Qed.

(** X10: on an object that is not deleted and whose [buffer_updates] satisfy
    I1 to I3 within range, [write], [zero] and [clone_range] over a non-empty
    range that does not wrap around record their update for every byte of
    the range and leave the update recorded for every other byte, the other
    members of the operation and all other objects as they were. *)
Theorem buffer_update_last_wins hoid (off len : Z) pgt :
  ObjectOperation.is_delete (op_at hoid pgt) = false →
  interval_map_spec.I1 (ObjectOperation.buffer_updates (op_at hoid pgt)) →
  interval_map_spec.I2 (ObjectOperation.buffer_updates (op_at hoid pgt)) →
  interval_map_spec.I3 (ObjectOperation.buffer_updates (op_at hoid pgt)) →
  interval_map_spec.in_range (ObjectOperation.buffer_updates (op_at hoid pgt)) →
  in_u64 off → 0 < len → off + len ≤ u64_max →
  let old := value_at update_at (ObjectOperation.buffer_updates (op_at hoid pgt)) in
  let recorded (c : outcome pgt_t) (new : Z → byte_update) :=
    ∃ pgt' b,
      c = Ok pgt'
      ∧ find hoid pgt' = Some (ObjectOperation.set_buffer_updates b (op_at hoid pgt))
      ∧ (∀ x, value_at update_at b x
              = if (off <=? x) && (x <? off + len) then Some (new x) else old x)
      ∧ ∀ h, h ≠ hoid → find h pgt' = find h pgt in
  (∀ bl fl, recorded (PGTransaction.write hobject_lt hoid off len bl fl pgt)
              (λ x, WriteByte (byte_at bl (x - off)) fl))
  ∧ recorded (PGTransaction.zero hobject_lt hoid off len pgt) (λ _, ZeroByte)
  ∧ (∀ from fromoff,
       recorded (PGTransaction.clone_range hobject_lt from hoid fromoff len off pgt)
         (λ x, CloneByte from (u64 (fromoff + (x - off))))).
Proof.
  intros Hdel H1 H2 H3 H4 Hoff Hlen Hmax old recorded.
  pose proof (interval_map_facts.invariants_ok _ H1 H2 H3 H4) as Hok.
  unfold recorded, PGTransaction.write, PGTransaction.zero, PGTransaction.clone_range.
  split; [|split]; intros;
    match goal with
    | |- context [PGTransaction.buffer_insert _ _ _ _ ?bu _] =>
        destruct (buffer_insert_at hoid off len bu pgt Hdel Hok Hoff Hlen Hmax)
          as (pgt' & b & ? & ? & ? & ?)
    end; by exists pgt', b.
Qed.

(** X11: on an object that is not deleted and whose [buffer_updates]
    satisfy I1 to I3 within the 64-bit range, a [truncate(hoid, off)] that
    is not skipped (no truncate at or above [off] is recorded) leaves no
    update for any byte at or after [off] and leaves the update recorded
    for every byte before [off] as it was. *)
Theorem truncate_keeps_below hoid (off : Z) pgt :
  ObjectOperation.is_delete (op_at hoid pgt) = false → in_u64 off →
  (∀ cur, ObjectOperation.truncate (op_at hoid pgt) = Some cur → cur < off) →
  interval_map_spec.I1 (ObjectOperation.buffer_updates (op_at hoid pgt)) →
  interval_map_spec.I2 (ObjectOperation.buffer_updates (op_at hoid pgt)) →
  interval_map_spec.I3 (ObjectOperation.buffer_updates (op_at hoid pgt)) →
  interval_map_spec.in_range (ObjectOperation.buffer_updates (op_at hoid pgt)) →
  ∃ pgt' op',
    PGTransaction.truncate hobject_lt hoid off pgt = Ok pgt'
    ∧ find hoid pgt' = Some op'
    ∧ ∀ x, value_at update_at (ObjectOperation.buffer_updates op') x
           = if off <=? x then None
             else value_at update_at (ObjectOperation.buffer_updates (op_at hoid pgt)) x.
Proof.
  intros Hdel [Hoff0 Hoff1] Hcur H1 H2 H3 H4.
  pose proof (interval_map_facts.invariants_ok _ H1 H2 H3 H4) as Hok.
  unfold PGTransaction.truncate.
  rewrite PGTransaction_facts.modify_spec, Hdel. simpl.
  set (op := op_at hoid pgt) in *.
  assert ((match ObjectOperation.truncate op with
           | Some cur => (off <=? cur)%Z | None => false end) = false) as ->.
  { destruct (ObjectOperation.truncate op) as [cur|]; [|done].
    specialize (Hcur cur eq_refl). destruct (Z.leb_spec off cur); [lia | done]. }
  destruct (interval_map_facts.erase_ok ObjectOperation.Splitter 0
              (ObjectOperation.buffer_updates op) off (u64_sub u64_max off))
    as (b & Heq & Hb & Hcut);
    try (done || lia);
    try (unfold in_u64; rewrite u64_sub_small; lia).
  rewrite Heq. rewrite u64_sub_small in Hcut by lia.
  eexists _, _. split; [done|]. split; [apply PGTransaction_facts.store_find_eq|].
  intros x.
  assert (ObjectOperation.buffer_updates
            (if ObjectOperation.is_fresh_object (ObjectOperation.set_buffer_updates b op)
             then ObjectOperation.set_buffer_updates b op
             else ObjectOperation.set_truncate (Some off)
                    (ObjectOperation.set_buffer_updates b op)) = b) as ->.
  { by destruct (ObjectOperation.is_fresh_object _). }
  destruct (Z.leb_spec off x) as [Hx | Hx].
  - destruct (Z.le_gt_cases u64_max x); [by apply (value_at_beyond _ 0)|].
    rewrite Hcut by lia.
    rewrite (interval_map_laws.value_at_cut update_at ObjectOperation.Splitter 0)
      by (done || lia || apply Splitter_splits).
    destruct (Z.leb_spec off x); [|lia].
    destruct (Z.ltb_spec x (off + (u64_max - off))); [done | lia].
  - destruct (decide (off = u64_max)) as [-> | Hne].
    + change (u64_sub u64_max u64_max) with 0 in Heq.
      unfold interval_map.erase in Heq. simpl in Heq. by injection Heq as <-.
    + rewrite Hcut by lia.
      rewrite (interval_map_laws.value_at_cut update_at ObjectOperation.Splitter 0)
        by (done || lia || apply Splitter_splits).
      destruct (Z.leb_spec off x); [lia | done].
Qed.
End Buffers.

(** ** PGTransaction: how the operations on one object compose *)

Section Operations.
Context {hobject_t : Type} `{EqDecision hobject_t}.
Variable hobject_lt : hobject_t → hobject_t → bool.
Variable is_temp : hobject_t → bool.
Variable encode_map : gmap string bufferlist → bufferlist.
Variable encode_set : gset string → bufferlist.
Abbreviation op_t := (ObjectOperation.t hobject_t).
Abbreviation pgt_t := (PGTransaction.t hobject_t).
Implicit Types (hoid target source h : hobject_t) (pgt : pgt_t) (op : op_t)
  (m : list (hobject_t * op_t)).

Lemma sm_set_set {V : Type} hoid (v1 v2 : V) (l : list (hobject_t * V)) :
  sm_set hobject_lt hoid v2 (sm_set hobject_lt hoid v1 l) = sm_set hobject_lt hoid v2 l.
Proof.
  induction l as [|[k v] l IH]; simpl.
  - by rewrite decide_True.
  - case_decide; simpl; [by rewrite decide_True|].
    destruct (hobject_lt hoid k) eqn:Hlt; simpl.
    + by rewrite decide_True.
    + rewrite decide_False, Hlt by done. by rewrite IH.
Qed.

(** a second write through [op_map[hoid]] replaces the first *)
Lemma store_store hoid op1 op2 m :
  PGTransaction.store hobject_lt hoid op2
    (PGTransaction.subscript hobject_lt hoid
       (PGTransaction.op_map (PGTransaction.store hobject_lt hoid op1 m))).2
  = PGTransaction.store hobject_lt hoid op2 m.
Proof.
  unfold PGTransaction.store, PGTransaction.subscript. simpl.
  rewrite sm_find_set_eq. simpl. by rewrite sm_set_set.
Qed.

Lemma find_not_empty h pgt : is_Some (find h pgt) → PGTransaction.empty pgt = false.
Proof.
  unfold find, PGTransaction.empty. destruct (PGTransaction.op_map pgt); [|done].
  by intros [? ?].
Qed.

Lemma modified_found hoid pgt :
  is_Some (find hoid
    (PGTransaction.mk (PGTransaction.subscript hobject_lt hoid (PGTransaction.op_map pgt)).2)).
Proof. unfold find. simpl. rewrite PGTransaction_facts.subscript_find_eq. by eexists. Qed.

(** X12: whatever mutation returns, the object it was called on has an
    entry in [op_map] afterwards, so the transaction is no longer
    [empty()]; this holds for [nop] and for a [truncate] that is skipped
    as well. *)
Theorem mutation_records_target (c : mutation) pgt pgt' :
  mutate hobject_lt is_temp encode_map encode_set c pgt = Ok pgt' →
  is_Some (find (target_of c) pgt') ∧ PGTransaction.empty pgt' = false.
Proof.
  intros Hc.
  assert (is_Some (find (target_of c) pgt')) as Hf; [|split; [done | by eapply find_not_empty]].
  pose proof modified_found as Hm.
  assert (Hs : ∀ hoid op m, is_Some (find hoid (PGTransaction.store hobject_lt hoid op m))).
  { intros. rewrite PGTransaction_facts.store_find_eq. by eexists. }
  revert Hc. destruct c; simpl;
    unfold PGTransaction.write, PGTransaction.clone_range, PGTransaction.zero,
      PGTransaction.omap_setkeys_map, PGTransaction.omap_rmkeys_set;
    unfold PGTransaction.remove, PGTransaction.update_snaps, PGTransaction.omap_clear,
      PGTransaction.truncate, PGTransaction.setattrs, PGTransaction.setattr,
      PGTransaction.rmattr, PGTransaction.set_alloc_hint, PGTransaction.buffer_insert,
      PGTransaction.omap_setkeys, PGTransaction.omap_rmkeys,
      PGTransaction.omap_setheader, PGTransaction.nop;
    rewrite ?PGTransaction_facts.modify_spec, ?PGTransaction_facts.create_spec,
      ?PGTransaction_facts.clone_spec, ?PGTransaction_facts.rename_spec;
    repeat match goal with
           | |- context [if ?b then _ else _] => destruct b; simpl; try done
           | |- context [match ?o with Some _ => _ | None => _ end] =>
               destruct o; simpl; try done
           | |- context [assert ?b] => destruct b; simpl; try done
           end;
    intros [= <-]; done.
Qed.

Lemma u64_add_u64 a b : u64_add (u64 a) b = u64 (a + b).
Proof. unfold u64_add, u64. by rewrite Z.add_mod_idemp_l. Qed.

Lemma inner_sum {V : Type} (m : interval_map.t V) (z : Z) :
  fold_left (λ ret j, u64_add ret j.2.1) m (u64 z) = u64 (z + ext_sum m).
Proof.
  revert z. induction m as [|e m IH]; intros z; simpl.
  - by rewrite Z.add_0_r.
  - rewrite u64_add_u64, IH. f_equal. lia.
Qed.

Lemma outer_sum (l : list (hobject_t * op_t)) (z : Z) :
  fold_left
    (λ ret i, fold_left (λ ret j, u64_add ret j.2.1) (ObjectOperation.buffer_updates i.2) ret)
    l (u64 z)
  = u64 (z + foldr (λ p acc, (ext_sum (ObjectOperation.buffer_updates p.2) + acc)%Z) 0%Z l).
Proof.
  revert z. induction l as [|[h op] l IH]; intros z; simpl.
  - by rewrite Z.add_0_r.
  - rewrite inner_sum, IH. f_equal. lia.
Qed.

(** X13: [get_bytes_written] is the sum of the lengths of all buffer
    updates of all objects, taken modulo [2^64]. *)
Theorem get_bytes_written_sum pgt :
  PGTransaction.get_bytes_written pgt = u64 (bytes_sum pgt).
Proof.
  unfold PGTransaction.get_bytes_written, bytes_sum.
  change 0%Z with (u64 0) at 1. rewrite outer_sum. by rewrite Z.add_0_l.
Qed.

(** X14: [remove(hoid)] aborts exactly when the operation is already a
    delete or has [updated_snaps]; otherwise it drops everything recorded
    for the object, leaving a default operation with [delete_first] set and
    the other objects as they were, and a second [remove] aborts. *)
Theorem remove_resets hoid pgt :
  (PGTransaction.remove hobject_lt hoid pgt = AssertFail
   ↔ ObjectOperation.is_delete (op_at hoid pgt) = true
     ∨ ObjectOperation.updated_snaps (op_at hoid pgt) ≠ None)
  ∧ (ObjectOperation.is_delete (op_at hoid pgt) = false →
     ObjectOperation.updated_snaps (op_at hoid pgt) = None →
     ∃ pgt', PGTransaction.remove hobject_lt hoid pgt = Ok pgt'
       ∧ find hoid pgt' = Some (ObjectOperation.set_delete_first true ObjectOperation.fresh)
       ∧ (∀ h, h ≠ hoid → find h pgt' = find h pgt)
       ∧ PGTransaction.remove hobject_lt hoid pgt' = AssertFail).
Proof.
  unfold PGTransaction.remove. rewrite PGTransaction_facts.modify_spec.
  split.
  - destruct (ObjectOperation.is_delete (op_at hoid pgt)); simpl; [split; auto|].
    destruct (bool_decide_reflect (ObjectOperation.updated_snaps (op_at hoid pgt) = None))
      as [Hn | Hn]; simpl.
    + split; [done|]. intros [? | ?]; done.
    + split; [by right | done].
  - intros Hd Hs. rewrite Hd. simpl. rewrite Hs. simpl. eexists. split; [done|].
    split; [apply PGTransaction_facts.store_find_eq|]. split.
    + intros h Hne. rewrite PGTransaction_facts.store_find_ne by done.
      by apply PGTransaction_facts.subscript_find_ne.
    + by rewrite PGTransaction_facts.modify_spec, PGTransaction_facts.op_at_store.
Qed.


(** X16: the kind of an operation is set once: when the operation at
    [hoid] already is a create, a clone or a rename, a further [create],
    [clone] or [rename] onto [hoid] aborts; and each of the three, when it
    succeeds, leaves such an operation. *)
Theorem init_type_set_once hoid pgt :
  (ObjectOperation.is_fresh_object (op_at hoid pgt) = true →
   PGTransaction.create hobject_lt hoid pgt = AssertFail
   ∧ (∀ source, PGTransaction.clone hobject_lt hoid source pgt = AssertFail)
   ∧ (∀ source, PGTransaction.rename hobject_lt is_temp hoid source pgt = AssertFail))
  ∧ (∀ pgt', PGTransaction.create hobject_lt hoid pgt = Ok pgt' →
       ObjectOperation.is_fresh_object (op_at hoid pgt') = true)
  ∧ (∀ source pgt', PGTransaction.clone hobject_lt hoid source pgt = Ok pgt' →
       ObjectOperation.is_fresh_object (op_at hoid pgt') = true)
  ∧ (∀ source pgt', PGTransaction.rename hobject_lt is_temp hoid source pgt = Ok pgt' →
       ObjectOperation.is_fresh_object (op_at hoid pgt') = true).
Proof.
  split; [|split; [|split]].
  - intros Hfresh.
    assert (ObjectOperation.is_none (op_at hoid pgt)
            || ObjectOperation.is_delete (op_at hoid pgt) = false) as Hpre.
    { unfold ObjectOperation.is_fresh_object, ObjectOperation.is_none,
        ObjectOperation.is_delete in *.
      by destruct (ObjectOperation.init_type (op_at hoid pgt)). }
    rewrite PGTransaction_facts.create_spec, Hpre. split; [done|]. split.
    + intros source. by rewrite PGTransaction_facts.clone_spec, Hpre.
    + intros source. rewrite PGTransaction_facts.rename_spec. unfold rename_pre.
      by rewrite Hpre, andb_false_r.
  - intros pgt'. rewrite PGTransaction_facts.create_spec.
    destruct (_ || _); [|done]. intros [= <-].
    by rewrite PGTransaction_facts.op_at_store.
  - intros source pgt'. rewrite PGTransaction_facts.clone_spec.
    destruct (_ || _); [|done]. intros [= <-].
    by rewrite PGTransaction_facts.op_at_store.
  - intros source pgt'. rewrite PGTransaction_facts.rename_spec.
    destruct (rename_pre _ _ _ _); [|done]. simpl.
    destruct (sm_find source _); intros [= <-];
      by rewrite PGTransaction_facts.op_at_store.
Qed.

(** X17: [create] on a deleted object lifts the ban on modifying it: the
    operation keeps [delete_first], is no longer [is_delete], and the
    mutations that aborted before (here [nop] and [omap_clear]) succeed
    again. *)
Theorem create_after_remove hoid pgt :
  ObjectOperation.is_delete (op_at hoid pgt) = true →
  PGTransaction.nop hobject_lt hoid pgt = AssertFail
  ∧ ∃ pgt', PGTransaction.create hobject_lt hoid pgt = Ok pgt'
      ∧ ObjectOperation.delete_first (op_at hoid pgt') = true
      ∧ ObjectOperation.is_delete (op_at hoid pgt') = false
      ∧ (∃ pgt2, PGTransaction.nop hobject_lt hoid pgt' = Ok pgt2)
      ∧ (∃ pgt2, PGTransaction.omap_clear hobject_lt hoid pgt' = Ok pgt2).
Proof.
  intros Hdel. unfold PGTransaction.nop, PGTransaction.omap_clear.
  rewrite PGTransaction_facts.modify_spec, Hdel. split; [done|].
  rewrite PGTransaction_facts.create_spec, Hdel, orb_true_r.
  eexists. split; [done|].
  rewrite !PGTransaction_facts.modify_spec, !PGTransaction_facts.op_at_store.
  unfold ObjectOperation.is_delete in *. simpl.
  destruct (ObjectOperation.init_type (op_at hoid pgt)); try done.
  rewrite Hdel. repeat split; by eexists.
Qed.

Lemma bind_fail_fold {A B : Type} (f : A → B → outcome A) (l : list B) :
  fold_left (λ r b, r ≫= λ a, f a b) l AssertFail = AssertFail.
Proof. by induction l. Qed.

(** X18: [setattrs] with a non-empty map is the same as one [setattr] per
    pair, in the order of the map; this includes when it aborts. *)
Theorem setattrs_as_setattr hoid (a : string * bufferlist) attrs pgt :
  PGTransaction.setattrs hobject_lt hoid (a :: attrs) pgt
  = fold_left (λ r b, r ≫= PGTransaction.setattr hobject_lt hoid b.1 b.2) attrs
      (PGTransaction.setattr hobject_lt hoid a.1 a.2 pgt).
Proof.
  unfold PGTransaction.setattrs, PGTransaction.setattr at 2.
  rewrite PGTransaction_facts.modify_spec.
  destruct (ObjectOperation.is_delete (op_at hoid pgt)) eqn:Hdel; simpl.
  { symmetry. apply (bind_fail_fold (λ p b, PGTransaction.setattr hobject_lt hoid b.1 b.2 p)). }
  generalize (<[a.1:=Some a.2]> (ObjectOperation.attr_updates (op_at hoid pgt))).
  induction attrs as [|b attrs IH]; intros A; simpl; [done|].
  rewrite IH. f_equal. unfold PGTransaction.setattr.
  rewrite PGTransaction_facts.modify_spec, PGTransaction_facts.op_at_store.
  assert (ObjectOperation.is_delete (ObjectOperation.set_attr_updates A (op_at hoid pgt))
          = false) as -> by exact Hdel.
  simpl. f_equal. symmetry.
  exact (store_store hoid (ObjectOperation.set_attr_updates A (op_at hoid pgt)) _ _).
Qed.

Lemma omap_clear_store hoid op1 m :
  PGTransaction.omap_clear hobject_lt hoid (PGTransaction.store hobject_lt hoid op1 m)
  = if ObjectOperation.is_delete op1 then AssertFail
    else Ok (PGTransaction.store hobject_lt hoid
               (ObjectOperation.set_omap_header None
                  (ObjectOperation.set_omap_updates []
                     (ObjectOperation.set_clear_omap true op1))) m).
Proof.
  unfold PGTransaction.omap_clear.
  rewrite PGTransaction_facts.modify_spec, PGTransaction_facts.op_at_store.
  destruct (ObjectOperation.is_delete op1); [done|].
  simpl. f_equal. exact (store_store hoid op1 _ m).
Qed.

(** X19: [omap_clear] discards what [omap_setkeys], [omap_rmkeys] and
    [omap_setheader] recorded before it: each of them followed by
    [omap_clear] gives the same transaction as [omap_clear] alone. *)
Theorem omap_clear_discards hoid (bl : bufferlist) pgt :
  (PGTransaction.omap_setkeys hobject_lt hoid bl pgt ≫= PGTransaction.omap_clear hobject_lt hoid)
  = PGTransaction.omap_clear hobject_lt hoid pgt
  ∧ (PGTransaction.omap_rmkeys hobject_lt hoid bl pgt
       ≫= PGTransaction.omap_clear hobject_lt hoid)
    = PGTransaction.omap_clear hobject_lt hoid pgt
  ∧ (PGTransaction.omap_setheader hobject_lt hoid bl pgt
       ≫= PGTransaction.omap_clear hobject_lt hoid)
    = PGTransaction.omap_clear hobject_lt hoid pgt.
Proof.
  unfold PGTransaction.omap_setkeys, PGTransaction.omap_rmkeys,
    PGTransaction.omap_setheader.
  rewrite PGTransaction_facts.modify_spec.
  destruct (ObjectOperation.is_delete (op_at hoid pgt)) eqn:Hdel.
  { unfold PGTransaction.omap_clear.
    by rewrite PGTransaction_facts.modify_spec, Hdel. }
  assert (Hclear : PGTransaction.omap_clear hobject_lt hoid pgt
    = Ok (PGTransaction.store hobject_lt hoid
            (ObjectOperation.set_omap_header None
               (ObjectOperation.set_omap_updates []
                  (ObjectOperation.set_clear_omap true (op_at hoid pgt))))
            (PGTransaction.subscript hobject_lt hoid (PGTransaction.op_map pgt)).2)).
  { unfold PGTransaction.omap_clear.
    by rewrite PGTransaction_facts.modify_spec, Hdel. }
  rewrite Hclear.
  repeat split;
    (etrans; [exact (omap_clear_store hoid _ _)|]);
    unfold ObjectOperation.is_delete in *; simpl; by rewrite Hdel.
Qed.

(** X20: [omap_setkeys] and [omap_rmkeys] calls on an object that is not
    deleted all succeed and are recorded one by one in call order: the
    operation's [omap_updates] grows by exactly the calls made, and
    [clear_omap] and [omap_header] stay as they were. *)
Theorem omap_updates_in_call_order hoid us pgt :
  ObjectOperation.is_delete (op_at hoid pgt) = false →
  ∃ pgt', fold_left (λ r u, r ≫= omap_update hobject_lt hoid u) us (Ok pgt) = Ok pgt'
    ∧ ObjectOperation.omap_updates (op_at hoid pgt')
      = ObjectOperation.omap_updates (op_at hoid pgt) ++ us
    ∧ ObjectOperation.clear_omap (op_at hoid pgt')
      = ObjectOperation.clear_omap (op_at hoid pgt)
    ∧ ObjectOperation.omap_header (op_at hoid pgt')
      = ObjectOperation.omap_header (op_at hoid pgt).
Proof.
  intros Hdel.
  assert (∃ pgt', fold_left (λ r u, r ≫= omap_update hobject_lt hoid u) us (Ok pgt) = Ok pgt'
    ∧ ObjectOperation.is_delete (op_at hoid pgt') = false
    ∧ ObjectOperation.omap_updates (op_at hoid pgt')
      = ObjectOperation.omap_updates (op_at hoid pgt) ++ us
    ∧ ObjectOperation.clear_omap (op_at hoid pgt')
      = ObjectOperation.clear_omap (op_at hoid pgt)
    ∧ ObjectOperation.omap_header (op_at hoid pgt')
      = ObjectOperation.omap_header (op_at hoid pgt)) as (pgt' & ? & ? & ?);
    [|by exists pgt'].
  revert pgt Hdel. induction us as [|[ty bl] us IH]; intros pgt Hdel; simpl.
  { exists pgt. by rewrite app_nil_r. }
  assert (∃ pgt1, omap_update hobject_lt hoid (ty, bl) pgt = Ok pgt1
    ∧ op_at hoid pgt1
      = ObjectOperation.set_omap_updates
          (ObjectOperation.omap_updates (op_at hoid pgt) ++ [(ty, bl)]) (op_at hoid pgt))
    as (pgt1 & -> & Hop).
  { unfold omap_update, PGTransaction.omap_setkeys, PGTransaction.omap_rmkeys.
    destruct ty; simpl; rewrite PGTransaction_facts.modify_spec, Hdel; simpl;
      eexists; (split; [done|]); by rewrite PGTransaction_facts.op_at_store. }
  destruct (IH pgt1) as (pgt' & Hrun & Hdel' & Hus & Hclear & Hhdr).
  { rewrite Hop. exact Hdel. }
  exists pgt'. rewrite Hrun, Hdel', Hus, Hclear, Hhdr, Hop. simpl.
  by rewrite <- app_assoc.
Qed.

End Operations.

(** ** PGTransaction: the buffer updates stay within I1 to I3 *)

Section Invariants.
Local Open Scope Z_scope.
Context {hobject_t : Type} `{EqDecision hobject_t}.
Variable hobject_lt : hobject_t → hobject_t → bool.
Variable is_temp : hobject_t → bool.
Variable encode_map : gmap string bufferlist → bufferlist.
Variable encode_set : gset string → bufferlist.
Implicit Types (hoid h : hobject_t) (pgt : PGTransaction.t hobject_t)
  (op : ObjectOperation.t hobject_t) (m : list (hobject_t * ObjectOperation.t hobject_t)).

Lemma Forall_sm_insert {V : Type} (P : hobject_t * V → Prop) h (v : V) l :
  Forall P l → P (h, v) → Forall P (sm_insert hobject_lt h v l).
Proof.
  intros Hl Hv. induction Hl as [|[k w] l Hk Hl IH]; simpl.
  - by constructor.
  - case_decide; [by constructor|].
    destruct (hobject_lt h k); by repeat constructor.
Qed.

Lemma Forall_sm_set {V : Type} (P : hobject_t * V → Prop) h (v : V) l :
  Forall P l → P (h, v) → Forall P (sm_set hobject_lt h v l).
Proof.
  intros Hl Hv. induction Hl as [|[k w] l Hk Hl IH]; simpl.
  - by constructor.
  - case_decide; [by constructor|].
    destruct (hobject_lt h k); by repeat constructor.
Qed.

Lemma Forall_sm_erase {V : Type} (P : hobject_t * V → Prop) h (l : list (hobject_t * V)) :
  Forall P l → Forall P (sm_erase h l).
Proof.
  intros Hl. induction Hl as [|[k w] l Hk Hl IH]; simpl; [done|].
  case_decide; [done | by constructor].
Qed.

Lemma buffers_subscript hoid pgt :
  buffers_ok pgt →
  buffers_ok (PGTransaction.mk
                (PGTransaction.subscript hobject_lt hoid (PGTransaction.op_map pgt)).2).
Proof.
  unfold buffers_ok, PGTransaction.subscript. simpl. intros Hok.
  destruct (sm_find hoid _); simpl; [done|]. by apply Forall_sm_insert.
Qed.

Lemma buffers_find h op pgt :
  buffers_ok pgt → find h pgt = Some op →
  interval_map_spec.ok 0 (ObjectOperation.buffer_updates op).
Proof.
  unfold buffers_ok, find. intros Hok Hf. apply sm_find_Some_elem in Hf.
  by apply (proj1 (Forall_forall _ _) Hok (h, op)).
Qed.

Lemma buffers_op_at hoid pgt :
  buffers_ok pgt → interval_map_spec.ok 0 (ObjectOperation.buffer_updates (op_at hoid pgt)).
Proof.
  intros Hok. unfold op_at. destruct (find hoid pgt) as [op|] eqn:Hf; simpl; [|done].
  by eapply buffers_find.
Qed.

Lemma buffers_store hoid op m :
  buffers_ok (PGTransaction.mk m) →
  interval_map_spec.ok 0 (ObjectOperation.buffer_updates op) →
  buffers_ok (PGTransaction.store hobject_lt hoid op m).
Proof. intros Hm Hop. by apply Forall_sm_set. Qed.

Lemma buffer_insert_keeps hoid (off len : Z) bu pgt :
  buffers_ok pgt → in_u64 off → 0 < len → off + len ≤ u64_max →
  PGTransaction.buffer_insert hobject_lt hoid off len bu pgt ≠ Undefined
  ∧ ∀ pgt', PGTransaction.buffer_insert hobject_lt hoid off len bu pgt = Ok pgt' →
            buffers_ok pgt'.
Proof.
  intros Hok Hoff Hlen Hmax. unfold PGTransaction.buffer_insert.
  rewrite PGTransaction_facts.modify_spec.
  destruct (ObjectOperation.is_delete _); simpl; [done|].
  destruct (interval_map_facts.insert_ok ObjectOperation.Splitter 0
              (ObjectOperation.buffer_updates (op_at hoid pgt)) off len bu)
    as (b & -> & Hb & _); try (done || lia || apply Hoff).
  { by apply buffers_op_at. }
  split; [done|]. intros pgt' [= <-].
  apply buffers_store; [by apply buffers_subscript | done].
Qed.

Lemma truncate_keeps hoid (off : Z) pgt :
  buffers_ok pgt → in_u64 off →
  PGTransaction.truncate hobject_lt hoid off pgt ≠ Undefined
  ∧ ∀ pgt', PGTransaction.truncate hobject_lt hoid off pgt = Ok pgt' → buffers_ok pgt'.
Proof.
  intros Hok [Hoff0 Hoff1]. unfold PGTransaction.truncate.
  rewrite PGTransaction_facts.modify_spec.
  destruct (ObjectOperation.is_delete _); simpl; [done|].
  destruct (match ObjectOperation.truncate (op_at hoid pgt) with
            | Some cur => off <=? cur | None => false end).
  { split; [done|]. intros pgt' [= <-]. by apply buffers_subscript. }
  destruct (interval_map_facts.erase_ok ObjectOperation.Splitter 0
              (ObjectOperation.buffer_updates (op_at hoid pgt)) off (u64_sub u64_max off))
    as (b & -> & Hb & _);
    try (done || lia);
    try (unfold in_u64; rewrite u64_sub_small; lia).
  { by apply buffers_op_at. }
  split; [done|]. intros pgt' [= <-].
  apply buffers_store; [by apply buffers_subscript|].
  by destruct (ObjectOperation.is_fresh_object _).
Qed.

(** X21: when every [buffer_updates] map of a transaction satisfies I1 to
    I3 within the 64-bit range, a mutation whose range is not empty and does
    not wrap around never walks an iterator past the end of a map, and when
    it returns every [buffer_updates] map of the transaction satisfies I1 to
    I3 within the 64-bit range again. *)
Theorem mutation_keeps_buffers (c : mutation) pgt :
  buffers_ok pgt → ranges_fit c →
  mutate hobject_lt is_temp encode_map encode_set c pgt ≠ Undefined
  ∧ ∀ pgt', mutate hobject_lt is_temp encode_map encode_set c pgt = Ok pgt' →
            buffers_ok pgt'.
Proof.
  intros Hok Hfit.
  pose proof (buffers_subscript) as Hsub.
  pose proof (buffers_op_at) as Hat.
  destruct c; simpl in *;
    try (destruct Hfit as (Hoff & Hlen & Hmax); by apply buffer_insert_keeps);
    try (by apply truncate_keeps);
    unfold PGTransaction.omap_setkeys_map, PGTransaction.omap_rmkeys_set;
    unfold PGTransaction.remove, PGTransaction.update_snaps, PGTransaction.omap_clear,
      PGTransaction.setattrs, PGTransaction.setattr,
      PGTransaction.rmattr, PGTransaction.set_alloc_hint,
      PGTransaction.omap_setkeys, PGTransaction.omap_rmkeys,
      PGTransaction.omap_setheader, PGTransaction.nop;
    rewrite ?PGTransaction_facts.modify_spec, ?PGTransaction_facts.create_spec,
      ?PGTransaction_facts.clone_spec, ?PGTransaction_facts.rename_spec;
    repeat match goal with
           | |- context [if ?b then _ else _] => destruct b; simpl; try done
           | |- context [assert ?b] => destruct b; simpl; try done
           end;
    try (split; [done|]; intros pgt' [= <-];
         first [ by apply Hsub
               | apply buffers_store; [by apply Hsub | simpl; by (done || apply Hat)] ]).
  (* rename *)
  destruct (sm_find source _) as [sop|] eqn:Hs; (split; [done|]); intros pgt' [= <-].
  - assert (interval_map_spec.ok 0 (ObjectOperation.buffer_updates sop)) as Hsop.
    { eapply (buffers_find source); [apply (Hsub target pgt Hok) | exact Hs]. }
    apply buffers_store; [|done].
    apply Forall_sm_erase, Forall_sm_set; [by apply Hsub | done].
  - apply buffers_store; [by apply Hsub | simpl; by apply Hat].
Qed.

End Invariants.

(** ** PGTransaction: safe_create_traverse on any graph *)

Section Traversal.
Context {hobject_t : Type} `{EqDecision hobject_t}.
Variable hobject_lt : hobject_t → hobject_t → bool.
Implicit Types (h s cur : hobject_t) (ops : list (hobject_t * ObjectOperation.t hobject_t))
  (dgraph : list (hobject_t * list hobject_t)) (stack : list hobject_t)
  (visited : list (hobject_t * ObjectOperation.t hobject_t)).

(** what is on the stack or visited has a source chain that ends *)
Lemma traverse_loop_grounded fuel ops dgraph stack visited visited' :
  traversing ops dgraph stack visited →
  (∀ h, h ∈ stack ∨ h ∈ visited.*1 → grounded ops h) →
  PGTransaction.traverse_loop fuel ops dgraph stack visited = Some (Ok visited') →
  ∀ h, h ∈ visited'.*1 → grounded ops h.
Proof.
  revert dgraph stack visited.
  induction fuel as [|fuel IH]; intros dgraph stack visited Hinv Hg;
    destruct stack as [|cur stack]; simpl; try done.
  - intros [= <-] h Hh. apply Hg. by right.
  - intros [= <-] h Hh. apply Hg. by right.
  - destruct (sm_find cur dgraph) as [children|] eqn:Hcur.
    + pose proof (PGTransaction_facts.traversing_expand _ _ _ _ _ _ Hinv Hcur) as Hnext.
      destruct children as [|c children]; [done|].
      apply IH; [done|].
      intros h [[Hh | Hh]%elem_of_app | Hh].
      * apply (grounded_step ops h cur).
        -- by apply (tr_children _ _ _ _ Hinv cur _ Hcur).
        -- apply Hg. left. left.
      * apply Hg. by left.
      * apply Hg. by right.
    + apply IH; [by apply PGTransaction_facts.traversing_leaf|].
      intros h [Hh | Hh].
      * apply Hg. left. by right.
      * destruct (sm_find cur ops) as [op|]; [|apply Hg; by right].
        rewrite fmap_app in Hh. apply elem_of_app in Hh as [Hh | Hh].
        -- apply Hg. by right.
        -- apply list_elem_of_singleton in Hh as ->. apply Hg. left. left.
Qed.

(** when the loop has ended, nothing with an ending source chain still waits
    in [dgraph] *)
Lemma grounded_not_pending ops dgraph visited h :
  traversing ops dgraph [] visited → grounded ops h → ¬ pending dgraph h.
Proof.
  intros Hinv. induction 1 as [h Hroot | h s Hsrc Hs IH]; intros (p & l & Hp & Hh).
  - apply (tr_children _ _ _ _ Hinv p l Hp) in Hh. congruence.
  - pose proof (proj2 (proj2 (tr_children _ _ _ _ Hinv p l Hp)) h Hh) as Hsrc'.
    assert (p = s) as -> by congruence.
    destruct (tr_keys _ _ _ _ Hinv s) as [Hin | Hpend]; [by eexists | |done].
    by apply elem_of_nil in Hin.
Qed.

(** X22: on any [op_map], cyclic or not, [safe_create_traverse] ends, its
    assertion holds, and the visitor is called at most once per object, only
    on pairs of [op_map], and exactly on those objects whose chain of clone
    and rename sources ends; an object on a cycle of sources, or cloned from
    one, is silently skipped.  A visited source comes after what is cloned
    or renamed from it. *)
Theorem safe_create_traverse_grounded (pgt : PGTransaction.t hobject_t) :
  NoDup (PGTransaction.op_map pgt).*1 →
  ∃ visited,
    PGTransaction.safe_create_traverse hobject_lt pgt = Some (Ok visited)
    ∧ NoDup visited.*1
    ∧ (∀ p, p ∈ visited → p ∈ PGTransaction.op_map pgt)
    ∧ (∀ h, h ∈ visited.*1 ↔
            h ∈ (PGTransaction.op_map pgt).*1 ∧ grounded (PGTransaction.op_map pgt) h)
    ∧ (∀ target source,
         source_of (PGTransaction.op_map pgt) target = Some source →
         source ∈ visited.*1 →
         visited_before target source visited).
Proof.
  destruct pgt as [ops]. simpl. intros Hnd.
  unfold PGTransaction.safe_create_traverse. simpl.
  pose proof (PGTransaction_facts.populated_all hobject_lt ops Hnd) as Hpop.
  destruct (PGTransaction.populate hobject_lt ops) as [dgraph stack] eqn:Hp.
  simpl in Hpop.
  pose proof (PGTransaction_facts.traversing_start _ _ _ Hpop) as Hstart.
  destruct (PGTransaction_facts.traverse_loop_total
              (PGTransaction.traverse_fuel dgraph stack) ops dgraph stack [])
    as [r Hr]; [done|].
  destruct (PGTransaction_facts.traverse_loop_traversing _ _ _ _ _ _ Hstart Hr)
    as (dgraph' & visited & -> & Hinv).
  assert (Hmem : ∀ p, p ∈ visited → p ∈ ops).
  { intros [h op] Hin. by apply sm_find_Some_elem, (tr_visited_ops _ _ _ _ Hinv). }
  exists visited. split; [exact Hr|].
  split; [exact (tr_visited_nodup _ _ _ _ Hinv)|].
  split; [exact Hmem|]. split; [|exact (tr_order _ _ _ _ Hinv)].
  intros h. split.
  - intros Hv. split.
    + apply list_elem_of_fmap in Hv as (p & -> & Hv).
      apply list_elem_of_fmap. exists p. split; [done | by apply Hmem].
    + apply (traverse_loop_grounded _ _ _ _ _ _ Hstart) with (h := h) in Hr; [done| |done].
      intros x [Hx | Hx]; [|by apply elem_of_nil in Hx].
      apply grounded_root.
      destruct (pop_roots _ _ _ _ Hpop x Hx) as [[_ Hsrc] | [Hn _]]; [done|].
      unfold source_of. by rewrite (proj2 (sm_find_None x ops) Hn).
  - intros [Hk Hg].
    destruct (tr_all _ _ _ _ Hinv h Hk) as [? | [Hs | Hpend]]; [done | |].
    + by apply elem_of_nil in Hs.
    + by apply (grounded_not_pending ops dgraph' visited h) in Hpend.
Qed.

End Traversal.

(** ** Concrete runs, on integer object ids *)

Local Open Scope Z_scope.

Lemma Splitter_sub_range_witness :
  let bu : ObjectOperation.BufferUpdateType Z :=
    ObjectOperation.Write [Byte.x61; Byte.x62; Byte.x63] 0 in
  (0 ≤ 1 ∧ 0 ≤ 1 < 2)
  ∧ update_at (ObjectOperation.Splitter 1 2 bu) 1 = WriteByte (Some Byte.x63) 0.
Proof.
  intros bu.
  assert (H0 : 0 ≤ 1) by lia.
  assert (Hi : 0 ≤ 1 < 2) by lia.
  split; [exact (conj H0 Hi)|].
  exact (Splitter_sub_range 1 2 bu 1 H0 Hi).
Defined.

Lemma buffer_update_last_wins_witness :
  let m : interval_map.t (ObjectOperation.BufferUpdateType Z) :=
    [(0, (4, ObjectOperation.Zero))] in
  let pgt :=
    PGTransaction.mk [(1, ObjectOperation.set_buffer_updates m ObjectOperation.fresh)] in
  let bl := [Byte.x61; Byte.x62; Byte.x63; Byte.x64] in
  (ObjectOperation.is_delete (op_at 1 pgt) = false
   ∧ interval_map_spec.I1 (ObjectOperation.buffer_updates (op_at 1 pgt))
   ∧ interval_map_spec.I2 (ObjectOperation.buffer_updates (op_at 1 pgt))
   ∧ interval_map_spec.I3 (ObjectOperation.buffer_updates (op_at 1 pgt))
   ∧ interval_map_spec.in_range (ObjectOperation.buffer_updates (op_at 1 pgt))
   ∧ in_u64 2 ∧ 0 < 4 ∧ 2 + 4 ≤ u64_max)
  ∧ ∃ pgt' b,
      PGTransaction.write Z.ltb 1 2 4 bl 0 pgt = Ok pgt'
      ∧ find 1 pgt' = Some (ObjectOperation.set_buffer_updates b (op_at 1 pgt))
      ∧ value_at update_at b 1 = Some ZeroByte
      ∧ value_at update_at b 3 = Some (WriteByte (Some Byte.x62) 0)
      ∧ value_at update_at b 6 = None.
Proof.
  intros m pgt bl.
  assert (Hok : interval_map_spec.ok 0 m) by (unfold m; simpl; unfold u64_max; lia).
  assert (Hdel : ObjectOperation.is_delete (op_at 1 pgt) = false) by reflexivity.
  assert (H1 : interval_map_spec.I1 (ObjectOperation.buffer_updates (op_at 1 pgt)))
    by exact (interval_map_facts.ok_I1 0 m Hok).
  assert (H2 : interval_map_spec.I2 (ObjectOperation.buffer_updates (op_at 1 pgt)))
    by exact (interval_map_facts.ok_I2 0 m Hok).
  assert (H3 : interval_map_spec.I3 (ObjectOperation.buffer_updates (op_at 1 pgt)))
    by exact (interval_map_facts.ok_I3 0 m Hok).
  assert (H4 : interval_map_spec.in_range (ObjectOperation.buffer_updates (op_at 1 pgt)))
    by exact (interval_map_facts.ok_in_range 0 m Hok ltac:(lia)).
  assert (Hoff : in_u64 2) by (unfold in_u64, u64_max; lia).
  assert (Hlen : 0 < 4) by lia.
  assert (Hmax : 2 + 4 ≤ u64_max) by (unfold u64_max; lia).
  split; [exact (conj Hdel (conj H1 (conj H2 (conj H3 (conj H4
            (conj Hoff (conj Hlen Hmax)))))))|].
  destruct (proj1 (buffer_update_last_wins Z.ltb 1 2 4 pgt Hdel H1 H2 H3 H4 Hoff Hlen Hmax)
              bl 0)
    as (pgt' & b & Hrun & Hfind & Hv & _).
  exists pgt', b. split; [exact Hrun|]. split; [exact Hfind|].
  split; [exact (Hv 1) | split; [exact (Hv 3) | exact (Hv 6)]].
Defined.

Lemma truncate_keeps_below_witness :
  let m : interval_map.t (ObjectOperation.BufferUpdateType Z) :=
    [(0, (8, ObjectOperation.Zero))] in
  let pgt :=
    PGTransaction.mk [(1, ObjectOperation.set_buffer_updates m ObjectOperation.fresh)] in
  (ObjectOperation.is_delete (op_at 1 pgt) = false ∧ in_u64 5
   ∧ (∀ cur, ObjectOperation.truncate (op_at 1 pgt) = Some cur → cur < 5)
   ∧ interval_map_spec.I1 (ObjectOperation.buffer_updates (op_at 1 pgt))
   ∧ interval_map_spec.I2 (ObjectOperation.buffer_updates (op_at 1 pgt))
   ∧ interval_map_spec.I3 (ObjectOperation.buffer_updates (op_at 1 pgt))
   ∧ interval_map_spec.in_range (ObjectOperation.buffer_updates (op_at 1 pgt)))
  ∧ ∃ pgt' op',
      PGTransaction.truncate Z.ltb 1 5 pgt = Ok pgt'
      ∧ find 1 pgt' = Some op'
      ∧ value_at update_at (ObjectOperation.buffer_updates op') 4 = Some ZeroByte
      ∧ value_at update_at (ObjectOperation.buffer_updates op') 5 = None.
Proof.
  intros m pgt.
  assert (Hok : interval_map_spec.ok 0 m) by (unfold m; simpl; unfold u64_max; lia).
  assert (Hdel : ObjectOperation.is_delete (op_at 1 pgt) = false) by reflexivity.
  assert (Hoff : in_u64 5) by (unfold in_u64, u64_max; lia).
  assert (Hcur : ∀ cur, ObjectOperation.truncate (op_at 1 pgt) = Some cur → cur < 5).
  { intros cur Hc. discriminate Hc. }
  assert (H1 : interval_map_spec.I1 (ObjectOperation.buffer_updates (op_at 1 pgt)))
    by exact (interval_map_facts.ok_I1 0 m Hok).
  assert (H2 : interval_map_spec.I2 (ObjectOperation.buffer_updates (op_at 1 pgt)))
    by exact (interval_map_facts.ok_I2 0 m Hok).
  assert (H3 : interval_map_spec.I3 (ObjectOperation.buffer_updates (op_at 1 pgt)))
    by exact (interval_map_facts.ok_I3 0 m Hok).
  assert (H4 : interval_map_spec.in_range (ObjectOperation.buffer_updates (op_at 1 pgt)))
    by exact (interval_map_facts.ok_in_range 0 m Hok ltac:(lia)).
  split; [exact (conj Hdel (conj Hoff (conj Hcur (conj H1 (conj H2 (conj H3 H4))))))|].
  destruct (truncate_keeps_below Z.ltb 1 5 pgt Hdel Hoff Hcur H1 H2 H3 H4)
    as (pgt' & op' & Hrun & Hfind & Hv).
  exists pgt', op'. split; [exact Hrun|]. split; [exact Hfind|].
  split; [exact (Hv 4) | exact (Hv 5)].
Defined.

Lemma mutation_records_target_witness :
  let pgt' := PGTransaction.mk [(1, ObjectOperation.fresh)] in
  mutate Z.ltb negative_is_temp (λ _, []) (λ _, []) (Nop 1) (PGTransaction.mk []) = Ok pgt'
  ∧ is_Some (find (target_of (Nop 1)) pgt') ∧ PGTransaction.empty pgt' = false.
Proof.
  intros pgt'.
  assert (Hrun : mutate Z.ltb negative_is_temp (λ _, []) (λ _, []) (Nop 1)
                   (PGTransaction.mk []) = Ok pgt') by reflexivity.
  split; [exact Hrun|].
  exact (mutation_records_target Z.ltb negative_is_temp (λ _, []) (λ _, []) (Nop 1)
           (PGTransaction.mk []) pgt' Hrun).
Defined.


Lemma create_after_remove_witness :
  let pgt := PGTransaction.mk
               [(1, ObjectOperation.set_delete_first true ObjectOperation.fresh)] in
  ObjectOperation.is_delete (op_at 1 pgt) = true
  ∧ PGTransaction.nop Z.ltb 1 pgt = AssertFail
  ∧ ∃ pgt', PGTransaction.create Z.ltb 1 pgt = Ok pgt'
      ∧ ObjectOperation.delete_first (op_at 1 pgt') = true
      ∧ ∃ pgt2, PGTransaction.nop Z.ltb 1 pgt' = Ok pgt2.
Proof.
  intros pgt.
  assert (Hdel : ObjectOperation.is_delete (op_at 1 pgt) = true) by reflexivity.
  split; [exact Hdel|].
  destruct (create_after_remove Z.ltb 1 pgt Hdel)
    as (Hnop & pgt' & Hrun & Hfirst & _ & Hnop' & _).
  split; [exact Hnop|]. exists pgt'. exact (conj Hrun (conj Hfirst Hnop')).
Defined.

Lemma omap_updates_in_call_order_witness :
  let us := [(ObjectOperation.Insert, [Byte.x61]); (ObjectOperation.Remove, [Byte.x62]);
             (ObjectOperation.Insert, [Byte.x61])] in
  let pgt : PGTransaction.t Z := PGTransaction.mk [] in
  ObjectOperation.is_delete (op_at 1 pgt) = false
  ∧ ∃ pgt', fold_left (λ r u, r ≫= omap_update Z.ltb 1 u) us (Ok pgt) = Ok pgt'
      ∧ ObjectOperation.omap_updates (op_at 1 pgt') = us.
Proof.
  intros us pgt.
  assert (Hdel : ObjectOperation.is_delete (op_at 1 pgt) = false) by reflexivity.
  split; [exact Hdel|].
  destruct (omap_updates_in_call_order Z.ltb 1 us pgt Hdel) as (pgt' & Hrun & Hus & _).
  exists pgt'. exact (conj Hrun Hus).
Defined.

Lemma mutation_keeps_buffers_witness :
  let m : interval_map.t (ObjectOperation.BufferUpdateType Z) :=
    [(0, (4, ObjectOperation.Zero))] in
  let pgt :=
    PGTransaction.mk [(1, ObjectOperation.set_buffer_updates m ObjectOperation.fresh)] in
  let c := Write_ 1 2 4 [Byte.x61; Byte.x62; Byte.x63; Byte.x64] 0 in
  (buffers_ok pgt ∧ ranges_fit c)
  ∧ ∃ pgt', mutate Z.ltb negative_is_temp (λ _, []) (λ _, []) c pgt = Ok pgt'
      ∧ buffers_ok pgt'.
Proof.
  intros m pgt c.
  assert (Hok : buffers_ok pgt).
  { constructor; [|constructor]. unfold m. simpl. unfold u64_max. lia. }
  assert (Hfit : ranges_fit c).
  { unfold c. simpl. unfold in_u64, u64_max. lia. }
  split; [exact (conj Hok Hfit)|].
  eexists. split; [reflexivity|].
  apply (proj2 (mutation_keeps_buffers Z.ltb negative_is_temp (λ _, []) (λ _, []) c pgt
                  Hok Hfit)).
  reflexivity.
Defined.

Lemma safe_create_traverse_grounded_witness :
  let pgt :=
    PGTransaction.mk
      [(1, ObjectOperation.set_init_type (ObjectOperation.Clone 2) ObjectOperation.fresh);
       (2, ObjectOperation.set_init_type (ObjectOperation.Clone 1) ObjectOperation.fresh);
       (3, ObjectOperation.fresh);
       (4, ObjectOperation.set_init_type (ObjectOperation.Clone 3) ObjectOperation.fresh)] in
  NoDup (PGTransaction.op_map pgt).*1
  ∧ PGTransaction.safe_create_traverse Z.ltb pgt
    = Some (Ok [(4, ObjectOperation.set_init_type (ObjectOperation.Clone 3)
                      ObjectOperation.fresh);
                (3, ObjectOperation.fresh)])
  ∧ ∃ visited,
      PGTransaction.safe_create_traverse Z.ltb pgt = Some (Ok visited)
      ∧ (∀ h, h ∈ visited.*1 ↔
              h ∈ (PGTransaction.op_map pgt).*1 ∧ grounded (PGTransaction.op_map pgt) h)
      ∧ (∀ p, p ∈ visited → p ∈ PGTransaction.op_map pgt).
Proof.
  intros pgt.
  assert (Hnd : NoDup (PGTransaction.op_map pgt).*1).
  { unfold pgt. simpl. apply (bool_decide_unpack _). vm_compute. exact I. }
  split; [exact Hnd|]. split; [reflexivity|].
  destruct (safe_create_traverse_grounded Z.ltb pgt Hnd)
    as (visited & Hrun & _ & Hsub & Hiff & _).
  exists visited. exact (conj Hrun (conj Hiff Hsub)).
Defined.
End PGTransaction_laws.
